(** * Skeleton-point extraction: a shallow embedding of [extract_points]

    The development follows [src/extractPoints.py] and, for the script that
    reads its output, [src/read2DExport3D.py].  Python values are
    modelled as follows: [str] as [string], [int] as [Z], Python lists as
    [list], 2-D numpy arrays as lists of rows, the file system as a finite
    map from paths to contents.  Calls into libraries whose code is not part
    of the repository are either parameters of the model (the directory
    listing, the image decoder, the grayscale conversion, the thinning) or
    modelled after what the library computes (path functions, buffered
    text output, connected-component labeling). *)

From Stdlib Require Import ZArith QArith List Ascii String Lia Bool Sorted.
From Stdlib Require Import Floats.SpecFloat.
From stdpp Require Import gmap strings list fin_maps pretty sorting.

Local Open Scope Z_scope.

(** ** Python strings and POSIX paths *)

Module Str.

(** [s.startswith(pre)] *)
Fixpoint startswith (pre s : string) : bool :=
  match pre, s with
  | EmptyString, _ => true
  | String a p, String b t => Ascii.eqb a b && startswith p t
  | String _ _, EmptyString => false
  end.

(** [needle in hay] on Python strings: substring containment. *)
Fixpoint contains (needle hay : string) : bool :=
  startswith needle hay ||
  match hay with
  | EmptyString => false
  | String _ t => contains needle t
  end.

(** [s.rfind(c)]: index of the last occurrence of [c], [-1] if none. *)
Fixpoint rfind_from (c : ascii) (s : string) (i last : Z) : Z :=
  match s with
  | EmptyString => last
  | String a t => rfind_from c t (i + 1) (if Ascii.eqb a c then i else last)
  end.

Definition rfind (c : ascii) (s : string) : Z := rfind_from c s 0 (-1).

(** [s[n:]] and [s[:n]] for [n >= 0]. *)
Fixpoint drop (n : nat) (s : string) : string :=
  match n, s with
  | O, _ => s
  | S k, String _ t => drop k t
  | S _, EmptyString => EmptyString
  end.

Fixpoint take (n : nat) (s : string) : string :=
  match n, s with
  | S k, String a t => String a (take k t)
  | _, _ => EmptyString
  end.

Fixpoint all_char (c : ascii) (s : string) : bool :=
  match s with
  | EmptyString => true
  | String a t => Ascii.eqb a c && all_char c t
  end.

(** The mathematical reading of containment. *)
Definition substring_of (needle hay : string) : Prop :=
  exists pre post, hay = pre +:+ needle +:+ post.

End Str.

Module Path.

Definition sep : ascii := "/"%char.
Definition extsep : ascii := "."%char.

(** [os.path.basename] (posixpath): the text after the last separator. *)
Definition basename (p : string) : string :=
  Str.drop (Z.to_nat (Str.rfind sep p + 1)) p.

(** [os.path.splitext] (posixpath): split at the last dot of the last
    path component, unless that component consists of leading dots only up
    to that dot. *)
Definition splitext (p : string) : string * string :=
  let sepIndex := Str.rfind sep p in
  let dotIndex := Str.rfind extsep p in
  if (sepIndex <? dotIndex) &&
     negb (Str.all_char extsep
             (Str.take (Z.to_nat (dotIndex - (sepIndex + 1)))
                       (Str.drop (Z.to_nat (sepIndex + 1)) p)))
  then (Str.take (Z.to_nat dotIndex) p, Str.drop (Z.to_nat dotIndex) p)
  else (p, EmptyString).

(** [os.path.join a b] (posixpath), two components. *)
Definition join (a b : string) : string :=
  if Str.startswith "/" b then b
  else match a with
       | EmptyString => b
       | _ => if Ascii.eqb (default sep (last (list_ascii_of_string a))) sep
              then a +:+ b else a +:+ "/" +:+ b
       end.

End Path.

(** ** Rasters and binarization *)

(** A 2-D numpy array, as the list of its rows. *)
Abbreviation grid A := (list (list A)) (only parsing).

(** A pixel position, (row, col) as in [region.coords]. *)
Definition coord : Type := (Z * Z)%type.

(** Python's [enumerate(l, start=i)]. *)
Fixpoint enum_from {A} (i : Z) (l : list A) : list (Z * A) :=
  match l with
  | [] => []
  | a :: t => (i, a) :: enum_from (i + 1) t
  end.

Definition enumerate {A} (l : list A) : list (Z * A) := enum_from 0 l.

(** [g[r][c]], for non-negative indices, [None] outside the array. *)
Definition get2 {A} (g : grid A) (p : coord) : option A :=
  if (p.1 <? 0) || (p.2 <? 0) then None
  else row ← g !! Z.to_nat p.1; row !! Z.to_nat p.2.

Definition shape {A} (g : grid A) : list nat := List.map (@List.length A) g.

(** IEEE 754 binary64 numbers, as [spec_float] with precision 53. *)
Module F64.
Definition prec : Z := 53.
Definition emax : Z := 1024.
Definition valid (f : spec_float) : bool := valid_binary prec emax f.

(** The literal [1.0]. *)
Definition one : spec_float := S754_finite false 4503599627370496 (-52).
(** The double nearest to the decimal [0.999999]. *)
Definition below_one : spec_float := S754_finite false 9007190247541737 (-53).

(** [x < y] on floats: false as soon as a NaN is involved. *)
Definition lt (x y : spec_float) : bool := SFltb x y.

Definition is_finite (f : spec_float) : bool :=
  match f with
  | S754_zero _ | S754_finite _ _ _ => true
  | _ => false
  end.

(** The rational number a finite float stands for. *)
Definition to_Q (f : spec_float) : Q :=
  match f with
  | S754_finite s m e =>
      let a := if s then Z.neg m else Z.pos m in
      match e with
      | Z.neg k => Qmake a (2 ^ k)
      | _ => inject_Z (a * 2 ^ e)
      end
  | _ => 0%Q
  end.
End F64.

(** A decoded single-channel image: the array's dtype decides the sample
    type.  [U16] stands for the integer dtypes other than [np.uint8]. *)
Inductive array2 : Type :=
| U8 (v : grid Z)
| U16 (v : grid Z)
| Fl (v : grid spec_float).

(** A decoded image with a channel axis ([ndim == 3]). *)
Inductive array3 : Type :=
| U8c (v : grid (list Z))
| U16c (v : grid (list Z))
| Flc (v : grid (list spec_float)).

Inductive image : Type :=
| Gray (a : array2)
| Color (a : array3).

Definition array2_shape (a : array2) : list nat :=
  match a with
  | U8 v | U16 v => shape v
  | Fl v => shape v
  end.

(** Lines 64-67: [this_image < 255] when the dtype is [np.uint8], otherwise
    [this_image < 1.0].  On an integer array the comparison with the float
    [1.0] is the comparison of the integer with 1. *)
Definition binarize (this_image : array2) : grid bool :=
  match this_image with
  | U8 v => List.map (List.map (fun x => x <? 255)) v
  | U16 v => List.map (List.map (fun x => x <? 1)) v
  | Fl v => List.map (List.map (fun x => F64.lt x F64.one)) v
  end.

(** ** Connected components: [measure.label] and [measure.regionprops]

    Both are scikit-image primitives, called at lines 74 and 77; their code
    is not part of the repository.  The model follows what the library
    computes: [label] with [connectivity=2] numbers the 8-connected
    foreground components 1, 2, ... in the order in which a row-major scan
    meets them and leaves the background at 0; [regionprops] returns one
    region per label present, in ascending label order, and [region.coords]
    lists the (row, col) positions carrying that label in the order of
    [np.nonzero], that is row by row. *)

(** [np.argwhere]: positions whose entry satisfies [f], row-major. *)
Definition argwhere {A} (f : A -> bool) (g : grid A) : list coord :=
  flat_map (fun '(r, row) =>
              flat_map (fun '(c, a) => if f a then [(r, c)] else [])
                       (enumerate row))
           (enumerate g).

Definition coord_eqb (p q : coord) : bool := (p.1 =? q.1) && (p.2 =? q.2).

Definition mem (p : coord) (l : list coord) : bool := existsb (coord_eqb p) l.

(** Two positions touch when they are equal or share an edge or a corner. *)
Definition adjacent8 (p q : coord) : bool :=
  (Z.abs (p.1 - q.1) <=? 1) && (Z.abs (p.2 - q.2) <=? 1).

Definition touches (S : list coord) (q : coord) : bool := existsb (adjacent8 q) S.

(** One round of the fill: the foreground positions touching the set. *)
Definition grow (fg S : list coord) : list coord := List.filter (touches S) fg.

Fixpoint flood (n : nat) (fg S : list coord) : list coord :=
  match n with
  | O => S
  | Datatypes.S k => flood k fg (grow fg S)
  end.

(** The 8-connected component of [seed] in the foreground [fg]. *)
Definition component (fg : list coord) (seed : coord) : list coord :=
  flood (List.length fg) fg [seed].

(** Components in the order the row-major scan meets their first pixel. *)
Fixpoint scan (fuel : nat) (fg rest : list coord) : list (list coord) :=
  match fuel, rest with
  | Datatypes.S n, seed :: _ =>
      let C := component fg seed in
      C :: scan n fg (List.filter (fun q => negb (mem q C)) rest)
  | _, _ => []
  end.

Definition components (fg : list coord) : list (list coord) :=
  scan (List.length fg) fg fg.

(** The number (from [k]) of the first component holding [p], 0 if none. *)
Fixpoint label_of (k : Z) (comps : list (list coord)) (p : coord) : Z :=
  match comps with
  | [] => 0
  | C :: rest => if mem p C then k else label_of (k + 1) rest p
  end.

Definition measure_label (skeleton : grid bool) : grid Z :=
  let comps := components (argwhere id skeleton) in
  List.map (fun '(r, row) =>
              List.map (fun '(c, b) => if b : bool then label_of 1 comps (r, c) else 0)
                       (enumerate row))
           (enumerate skeleton).

Record region : Type := Region { label : Z; coords : list coord }.

Definition grid_max (g : grid Z) : Z :=
  fold_right Z.max 0 (List.map (fold_right Z.max 0) g).

Definition regionprops (labeled_image : grid Z) : list region :=
  List.filter (fun r => negb (Nat.eqb (List.length (coords r)) 0))
    (List.map (fun k => Region k (argwhere (Z.eqb k) labeled_image))
              (List.map Z.of_nat (seq 1 (Z.to_nat (grid_max labeled_image))))).

(** [a[::step]] for a positive [step]: indices 0, step, 2*step, ... *)
Fixpoint slice_step_from {A} (step wait : nat) (l : list A) : list A :=
  match l with
  | [] => []
  | a :: t =>
      match wait with
      | O => a :: slice_step_from step (Nat.pred step) t
      | Datatypes.S w => slice_step_from step w t
      end
  end.

Definition slice_step {A} (step : nat) (l : list A) : list A :=
  slice_step_from step 0 l.

(** ** Effects: output file, event log, exceptions *)

Inductive event : Type :=
| EvOpen (path : string)
| EvGlob (pattern : string)
| EvImread (path : string)
| EvWrite (text : string)
| EvClose (path : string).

(** [fs] holds what has reached the files; [fbuf] is the text accepted by
    [f_out.write] that the buffered stream still holds; [log] lists the I/O
    calls in the order they were issued. *)
Record world : Type := World {
  fs : gmap string string;
  fbuf : string;
  log : list event
}.

Inductive exn : Type :=
| IndexError
| ImreadError (path : string)
| GrayError.

Inductive outcome (A : Type) : Type :=
| Ok (a : A)
| Raise (e : exn).
Arguments Ok {A} a.
Arguments Raise {A} e.

Definition M (A : Type) : Type := world -> outcome A * world.

Definition ret {A} (a : A) : M A := fun w => (Ok a, w).
Definition raise {A} (e : exn) : M A := fun w => (Raise e, w).
Definition bind {A B} (m : M A) (k : A -> M B) : M B :=
  fun w => match m w with
           | (Ok a, w') => k a w'
           | (Raise e, w') => (Raise e, w')
           end.

Notation "x <- m ;; k" := (bind m (fun x => k))
  (at level 100, m at next level, right associativity).
Notation "m ;;; k" := (bind m (fun _ => k))
  (at level 100, right associativity).

(** A [for] loop over a list; an exception in the body leaves the loop. *)
Fixpoint for_each {A} (l : list A) (body : A -> M unit) : M unit :=
  match l with
  | [] => ret tt
  | a :: t => body a ;;; for_each t body
  end.

(** The arguments of the [write] calls of a log, in order, and their
    concatenation. *)
Fixpoint writes (evs : list event) : list string :=
  match evs with
  | [] => []
  | EvWrite s :: t => s :: writes t
  | _ :: t => writes t
  end.

Definition joined (l : list string) : string := fold_right String.append "" l.

Definition written (evs : list event) : string := joined (writes evs).

Record OutputRecord : Type := Record_ {
  rec_label : string;
  rec_x : Z;
  rec_y : Z;
  rec_suffix : string;
  componentIndex : Z
}.

(** ["{},{},{},{},{}\n".format(label, x, y, suffix, componentIndex)] *)
Definition format_record (r : OutputRecord) : string :=
  rec_label r +:+ "," +:+ pretty (rec_x r) +:+ "," +:+ pretty (rec_y r) +:+ ","
  +:+ rec_suffix r +:+ "," +:+ pretty (componentIndex r) +:+ String "010"%char "".

Section Pipeline.

(** Size of the output stream's buffer: text is handed to the file when
    the pending text outgrows it, and when the stream is closed. *)
Variable bufsize : N.
(** [glob.glob(pattern)]: the directory listing, in listing order. *)
Variable glob : string -> list string.
(** [io.imread(path)]; [None] when the read raises. *)
Variable imread : string -> option image.
(** [color.rgb2gray]: a float image; [None] when the conversion raises. *)
Variable rgb2gray : array3 -> option (grid spec_float).
(** [morphology.skeletonize] *)
Variable skeletonize : grid bool -> grid bool.

Definition emit (e : event) (w : world) : world :=
  World (fs w) (fbuf w) (log w ++ [e]).

(** [open(path, 'wt')]: the file is created or truncated at once. *)
Definition open_wt (path : string) (w : world) : world :=
  World (<[path := ""]> (fs w)) "" (log w ++ [EvOpen path]).

(** [f_out.write(text)] *)
Definition f_write (path text : string) : M unit := fun w =>
  let pending := fbuf w +:+ text in
  (Ok tt,
   if (bufsize <? N.of_nat (String.length pending))%N
   then World (alter (fun old => old +:+ pending) path (fs w)) ""
              (log w ++ [EvWrite text])
   else World (fs w) pending (log w ++ [EvWrite text])).

(** Leaving the [with] block: pending text is handed over, file closed. *)
Definition f_close (path : string) (w : world) : world :=
  World (alter (fun old => old +:+ fbuf w) path (fs w)) ""
        (log w ++ [EvClose path]).

(** [with open(path, 'wt') as f_out: body]; the file is closed whether
    the body returns or raises. *)
Definition with_open_wt (path : string) (body : M unit) : M unit := fun w =>
  let '(r, w') := body (open_wt path w) in (r, f_close path w').

Definition do_glob (pattern : string) : M (list string) := fun w =>
  (Ok (glob pattern), emit (EvGlob pattern) w).

Definition do_imread (path : string) : M image := fun w =>
  match imread path with
  | Some img => (Ok img, emit (EvImread path) w)
  | None => (Raise (ImreadError path), emit (EvImread path) w)
  end.

(** Lines 58-59 *)
Definition to_gray (this_image : image) : M array2 :=
  match this_image with
  | Gray a => ret a
  | Color a => match rgb2gray a with
               | Some g => ret (Fl g)
               | None => raise GrayError
               end
  end.

(** [alt_names[idx]] for [idx >= 0] *)
Definition index (l : list string) (idx : Z) : M string :=
  match l !! Z.to_nat idx with
  | Some a => ret a
  | None => raise IndexError
  end.

(** Line 39 *)
Definition name_only (image_name : string) : string :=
  (Path.splitext (Path.basename image_name)).1.

(** Line 42 *)
Definition matching_files (listing : list string) (image_name : string) : list string :=
  List.filter (fun file => Str.contains (name_only image_name) (Path.basename file)) listing.

(** Line 47 *)
Definition files_with_suffix (matching : list string) (suffix : string) : list string :=
  List.filter (fun file => Str.contains suffix (Path.basename file)) matching.

(** Lines 83-88: the records of one region. *)
Definition emit_region (output_file : string) (alt_names : list string) (idx : Z)
    (suffix : string) (comp_idx : Z) (r : region) : M unit :=
  let subsampled_coords := slice_step 5 (coords r) in
  for_each subsampled_coords (fun '(y, x) =>
    alt <- index alt_names idx ;;
    f_write output_file (format_record (Record_ alt x y suffix comp_idx))).

(** Lines 55-88: one image file. *)
Definition process_image (output_file : string) (alt_names : list string) (idx : Z)
    (suffix image_path : string) : M unit :=
  this_image <- do_imread image_path ;;
  this_image <- to_gray this_image ;;
  let binary_image := binarize this_image in
  let skeleton := skeletonize binary_image in
  let labeled_image := measure_label skeleton in
  let regions := regionprops labeled_image in
  for_each (enum_from 1 regions) (fun '(comp_idx, region) =>
    emit_region output_file alt_names idx suffix comp_idx region).

(** Lines 47-88: one (image name, suffix) pair. *)
Definition process_pair (output_file : string) (alt_names : list string)
    (matching : list string) (idx : Z) (suffix : string) : M unit :=
  match files_with_suffix matching suffix with
  | [] => ret tt
  | image_path :: _ => process_image output_file alt_names idx suffix image_path
  end.

Definition extract_points (image_names : list string) (directory_to_search : string)
    (suffixes alt_names : list string) (output_file : string) : M unit :=
  with_open_wt output_file (
    listing <- do_glob (Path.join directory_to_search "*.tif") ;;
    for_each (enumerate image_names) (fun '(idx, image_name) =>
      let matching := matching_files listing image_name in
      for_each suffixes (fun suffix =>
        process_pair output_file alt_names matching idx suffix))).

End Pipeline.

(** ** The back-projection script: [read2DExport3D]

    [src/read2DExport3D.py] reads the lines a run of [extract_points] wrote
    and asks the photogrammetry host for a 3-D point per line.  The host's
    geometry (unprojection, picking on the dense cloud, projection to the
    reference system) and Python's [float] and [{:.6f}] are parameters;
    the chunk keeps its cameras and its list of markers. *)

Module Text.

(** [c.isspace()] for code points below 256. *)
Definition is_space (c : ascii) : bool :=
  let n := nat_of_ascii c in
  ((9 <=? n) && (n <=? 13) || (28 <=? n) && (n <=? 32) || (n =? 133) || (n =? 160))%nat.

Fixpoint lstrip (s : string) : string :=
  match s with
  | EmptyString => EmptyString
  | String c t => if is_space c then lstrip t else s
  end.

Fixpoint rstrip (s : string) : string :=
  match s with
  | EmptyString => EmptyString
  | String c t =>
      match rstrip t with
      | EmptyString => if is_space c then EmptyString else String c EmptyString
      | r => String c r
      end
  end.

(** [s.strip()] *)
Definition strip (s : string) : string := rstrip (lstrip s).

Definition cons_head (c : ascii) (parts : list string) : list string :=
  match parts with
  | [] => [String c EmptyString]
  | h :: r => String c h :: r
  end.

(** [s.split(sep, maxsplit)] for a one-character separator. *)
Fixpoint split (sep : ascii) (s : string) (maxsplit : nat) : list string :=
  match s with
  | EmptyString => [EmptyString]
  | String c t =>
      match maxsplit with
      | O => [s]
      | S k => if Ascii.eqb c sep then EmptyString :: split sep t k
               else cons_head c (split sep t maxsplit)
      end
  end.

Definition LF : ascii := "010"%char.
Definition CR : ascii := "013"%char.

(** Reading in text mode: ["\r\n"] and a lone ["\r"] become ["\n"]. *)
Fixpoint universal_newlines (s : string) : string :=
  match s with
  | EmptyString => EmptyString
  | String c t =>
      if Ascii.eqb c CR
      then String LF (match t with
                      | String d t' => if Ascii.eqb d LF then universal_newlines t'
                                       else universal_newlines t
                      | EmptyString => EmptyString
                      end)
      else String c (universal_newlines t)
  end.

(** Lines with their terminators. *)
Fixpoint keepends (s : string) : list string :=
  match s with
  | EmptyString => []
  | String c t =>
      if Ascii.eqb c LF then String c EmptyString :: keepends t
      else cons_head c (keepends t)
  end.

(** [f.readlines()] on a file opened with ["rt"]. *)
Definition readlines (content : string) : list string :=
  keepends (universal_newlines content).

(** Number of occurrences of a character. *)
Fixpoint count (c : ascii) (s : string) : nat :=
  match s with
  | EmptyString => O
  | String a t => (if Ascii.eqb a c then 1 else 0) + count c t
  end.

End Text.

Inductive py_error : Type :=
| ValueError.

Inductive completion (A : Type) : Type :=
| Done (a : A)
| Failed (e : py_error).
Arguments Done {A} a.
Arguments Failed {A} e.

(** [camera.transform] is set for aligned cameras; [camera.type] is
    [Regular] or not. *)
Record camera : Type := Camera {
  cam_label : string;
  cam_transform : bool;
  cam_regular : bool
}.

Section Script.

(** Python floats and host vectors. *)
Variable num : Type.
Variable point : Type.
(** [float(s)]; [None] when it raises [ValueError]. *)
Variable to_float : string -> option num.
(** ["{:.6f}".format(v)] *)
Variable fmt6 : num -> string.
(** The two [camera.unproject] calls and [surface.pickPoint]. *)
Variable pickPoint : camera -> num -> num -> option point.
(** [crs.project(T.mulp(p))], as [(coord.x, coord.y, coord.z)]. *)
Variable project : point -> num * num * num.
(** Size of the output stream's buffer. *)
Variable bufsize : N.

(** A marker of the chunk: a new one has no label, no projection and no
    reference location. *)
Record marker : Type := Marker {
  mk_label : option string;
  mk_projections : list (camera * (num * num));
  mk_location : option (num * num * num);
  mk_enabled : bool
}.

Definition new_marker : marker := Marker None [] None false.

Record chunk : Type := Chunk {
  cameras : list camera;
  dense_cloud : bool;
  markers : list marker
}.

(** The files, the pending text of [output_file], the chunk, and what was
    printed. *)
Record session : Type := Session {
  disk : gmap string string;
  pending : string;
  the_chunk : chunk;
  printed : list string
}.

Definition set_markers (ms : list marker) (s : session) : session :=
  Session (disk s) (pending s)
          (Chunk (cameras (the_chunk s)) (dense_cloud (the_chunk s)) ms)
          (printed s).

(** [chunk.addMarker()]: the new marker goes to the end of the list; it is
    referred to by its place there. *)
Definition addMarker (s : session) : nat * session :=
  (List.length (markers (the_chunk s)),
   set_markers (markers (the_chunk s) ++ [new_marker]) s).

(** The four assignments to the marker, lines 87-91. *)
Definition configure (m : nat) (label : string) (cam : camera) (x y : num)
    (coord : num * num * num) (s : session) : session :=
  set_markers (alter (fun _ => Marker (Some label) [(cam, (x, y))] (Some coord) true)
                     m (markers (the_chunk s))) s.

(** [chunk.remove(marker)] *)
Definition remove (m : nat) (s : session) : session :=
  set_markers (delete m (markers (the_chunk s))) s.

(** [output_file.write(text)] *)
Definition out_write (out text : string) (s : session) : session :=
  let p := pending s +:+ text in
  if (bufsize <? N.of_nat (String.length p))%N
  then Session (alter (fun old => old +:+ p) out (disk s)) "" (the_chunk s) (printed s)
  else Session (disk s) p (the_chunk s) (printed s).

(** [output_file.flush()], also what closing the file does. *)
Definition out_flush (out : string) (s : session) : session :=
  Session (alter (fun old => old +:+ pending s) out (disk s)) "" (the_chunk s) (printed s).

Definition print (msg : string) (s : session) : session :=
  Session (disk s) (pending s) (the_chunk s) (printed s ++ [msg]).

(** Line 94 *)
Definition format_marker (label : string) (coord : num * num * num)
    (lineType lineNumber : string) : string :=
  label +:+ "," +:+ fmt6 coord.1.1 +:+ "," +:+ fmt6 coord.1.2 +:+ ","
  +:+ fmt6 coord.2 +:+ "," +:+ lineType +:+ "," +:+ lineNumber
  +:+ String Text.LF "".

(** Lines 69-98: the body run for the first camera with the line's label. *)
Definition with_camera (out label lineType lineNumber : string) (x_coord y_coord : num)
    (cam : camera) (s : session) : session :=
  let '(m, s1) := addMarker s in
  match pickPoint cam x_coord y_coord with
  | Some pickedPoint =>
      let coord := project pickedPoint in
      let s2 := configure m label cam x_coord y_coord coord s1 in
      let s3 := out_write out (format_marker label coord lineType lineNumber) s2 in
      remove m s3
  | None => s1
  end.

(** Lines 57-102: one input line. *)
Definition handle_line (out : string) (cams : list camera) (line : string)
    (s : session) : completion unit * session :=
  if (String.length line <? 4)%nat then (Done tt, s)
  else
    match Text.split "," (Text.strip line) 5 with
    | [label; x_coord; y_coord; lineType; lineNumber] =>
        match to_float x_coord with
        | None => (Failed ValueError, s)
        | Some x =>
            match to_float y_coord with
            | None => (Failed ValueError, s)
            | Some y =>
                let s' :=
                  match List.find (fun cam => String.eqb (cam_label cam) label) cams with
                  | Some cam => with_camera out label lineType lineNumber x y cam s
                  | None => s
                  end in
                (Done tt, out_flush out s')
            end
        end
    | _ => (Failed ValueError, s)
    end.

(** The loop over the lines; an exception leaves it. *)
Fixpoint handle_lines (out : string) (cams : list camera) (lines : list string)
    (s : session) : completion unit * session :=
  match lines with
  | [] => (Done tt, s)
  | line :: rest =>
      match handle_line out cams line s with
      | (Done _, s') => handle_lines out cams rest s'
      | (Failed e, s') => (Failed e, s')
      end
  end.

(** Lines 47-50 *)
Definition out_path (path : string) : string :=
  match (Path.splitext path).2 with
  | EmptyString => path +:+ "_out.txt"
  | _ => (Path.splitext path).1 +:+ "_out.txt"
  end.

(** Lines 28-29 *)
Definition usable_cameras (c : chunk) : list camera :=
  List.filter (fun cam => cam_transform cam && cam_regular cam) (cameras c).

(** [read2DExport3D(chunk, path)]; [chunk] is [None] when the document has
    no chunk.  The result is the return value or the exception, with the
    files, the chunk and the printed messages after the call. *)
Definition read2DExport3D (chunk0 : option chunk) (path : string)
    (files : gmap string string)
  : completion Z * (gmap string string * option chunk * list string) :=
  match path with
  | EmptyString => (Done 0, (files, chunk0, ["Invalid path, script aborted"]))
  | _ =>
    match files !! path with
    | None => (Done 0, (files, chunk0, ["Invalid path, script aborted"]))
    | Some _ =>
      match chunk0 with
      | None => (Done 0, (files, chunk0, ["Empty document, script aborted"]))
      | Some c =>
        match usable_cameras c with
        | [] => (Done 0, (files, chunk0, ["Empty chunk, script aborted"]))
        | cams =>
          if negb (dense_cloud c)
          then (Done 0, (files, chunk0, ["Dense cloud is missing, script aborted"]))
          else
            let out := out_path path in
            let s0 := Session (<[out := ""]> files) "" c [] in
            let lines := Text.readlines (default "" (disk s0 !! path)) in
            let '(r, s1) := handle_lines out cams lines s0 in
            let s2 := out_flush out s1 in
            match r with
            | Done _ =>
                let s3 := print "Script finished" s2 in
                (Done 1, (disk s3, Some (the_chunk s3), printed s3))
            | Failed e => (Failed e, (disk s2, Some (the_chunk s2), printed s2))
            end
        end
      end
    end
  end.

End Script.

(** * Vocabulary of the statements *)

(** ** Records of a run *)

(** Rounded-up quotient. *)
Definition ceil_div (n d : nat) : nat := ((n + (d - 1)) / d)%nat.

(** The record written for the position [p] = (row, col). *)
Definition record_at (alt suffix : string) (comp_idx : Z) (p : coord) : OutputRecord :=
  Record_ alt p.2 p.1 suffix comp_idx.

(** A functional description of the records of a run, each tagged with its
    position in the loop nest: index of the image name, index of the suffix,
    number of the region, position in the subsampled coordinate list. *)
Definition key : Type := (Z * Z * Z * Z)%type.

(** The text written for a list of tagged records. *)
Definition lines (recs : list (key * OutputRecord)) : list string :=
  List.map (fun kr => format_record kr.2) recs.

Section Records.

Variable glob : string -> list string.
Variable imread : string -> option image.
Variable rgb2gray : array3 -> option (grid spec_float).
Variable skeletonize : grid bool -> grid bool.

(** The single-channel array lines 58-59 produce, when they do not raise. *)
Definition gray_of (img : image) : option array2 :=
  match img with
  | Gray a => Some a
  | Color a => match rgb2gray a with
               | Some g => Some (Fl g)
               | None => None
               end
  end.

(** The regions found in an image file, none when it cannot be decoded. *)
Definition regions_of (path : string) : list region :=
  match imread path with
  | Some img =>
      match gray_of img with
      | Some a => regionprops (measure_label (skeletonize (binarize a)))
      | None => []
      end
  | None => []
  end.

(** Records of one region, of one image file, of one (image name, suffix)
    pair and of the whole run. *)
Definition region_records (idx j : Z) (alt suffix : string) (cr : Z * region)
  : list (key * OutputRecord) :=
  List.map (fun '(k, (y, x)) => ((idx, j, cr.1, k), Record_ alt x y suffix cr.1))
           (enumerate (slice_step 5 (coords cr.2))).

Definition image_records (alt_names : list string) (idx j : Z) (suffix path : string)
  : list (key * OutputRecord) :=
  match alt_names !! Z.to_nat idx with
  | Some alt => flat_map (region_records idx j alt suffix) (enum_from 1 (regions_of path))
  | None => []
  end.

Definition pair_records (alt_names matching : list string) (idx : Z) (js : Z * string)
  : list (key * OutputRecord) :=
  match files_with_suffix matching js.2 with
  | image_path :: _ => image_records alt_names idx js.1 js.2 image_path
  | [] => []
  end.

Definition run_records (image_names : list string) (directory : string)
    (suffixes alt_names : list string) : list (key * OutputRecord) :=
  let listing := glob (Path.join directory "*.tif") in
  flat_map (fun '(idx, image_name) =>
              flat_map (pair_records alt_names (matching_files listing image_name) idx)
                       (enumerate suffixes))
           (enumerate image_names).

End Records.

(** ** Output stream *)

(** [w'] is reached from [w] by the calls [evs]: the log grows by [evs],
    files other than [out] are untouched, and the text of [out] together
    with the pending text grows by what [evs] wrote. *)
Definition conserved (out : string) (w w' : world) (evs : list event) : Prop :=
  log w' = log w ++ evs /\
  (forall p, p <> out -> fs w' !! p = fs w !! p) /\
  (forall c, fs w !! out = Some c ->
     exists c', fs w' !! out = Some c' /\
                c' +:+ fbuf w' = c +:+ fbuf w +:+ written evs).

(** [m] writes a prefix of [full] to [out], and all of it when it returns
    normally. *)
Definition yields (out : string) (m : M unit) (full : list string) : Prop :=
  forall w, exists evs,
    conserved out w (m w).2 evs /\
    writes evs `prefix_of` full /\
    ((m w).1 = Ok tt -> writes evs = full).

(** Two computations return the same result and issue the same calls,
    whatever the worlds they start in. *)
Definition same_io (m1 m2 : M unit) : Prop :=
  forall w1 w2,
    (m1 w1).1 = (m2 w2).1 /\
    exists evs, log (m1 w1).2 = log w1 ++ evs /\ log (m2 w2).2 = log w2 ++ evs.

(** ** Positions and components *)

(** Row-major order: ascending row, then ascending column. *)
Definition row_major_lt (p q : coord) : Prop :=
  p.1 < q.1 \/ (p.1 = q.1 /\ p.2 < q.2).

(** The hits of one row, and of the rows from a given index on. *)
Definition row_hits {A} (f : A -> bool) (r c0 : Z) (row : list A) : list coord :=
  flat_map (fun '(c, a) => if f a then [(r, c)] else []) (enum_from c0 row).

Definition rows_hits {A} (f : A -> bool) (r0 : Z) (g : grid A) : list coord :=
  flat_map (fun '(r, row) => row_hits f r 0 row) (enum_from r0 g).

(** The foreground positions of a mask, in row-major order. *)
Definition fg_of (skeleton : grid bool) : list coord := argwhere id skeleton.

(** [connected fg p q]: a chain of touching foreground positions leads from
    [p] to [q]. *)
Inductive connected (fg : list coord) : coord -> coord -> Prop :=
| connected_refl p : In p fg -> connected fg p p
| connected_step p q r :
    connected fg p q -> In r fg -> adjacent8 q r = true -> connected fg p r.

(** A set is closed when a round of the fill adds nothing to it. *)
Definition closed (fg X : list coord) : Prop :=
  forall q, In q (grow fg X) -> In q X.

(** The scan keeps the invariant that what remains is a sorted part of the
    foreground made of whole components. *)
Definition whole (fg rest : list coord) : Prop :=
  StronglySorted row_major_lt rest /\
  (forall p, In p rest -> In p fg) /\
  (forall p q, In p rest -> connected fg p q -> In q rest).

(** The label [measure_label] gives to a foreground position. *)
Definition lab (fg : list coord) (p : coord) : Z := label_of 1 (components fg) p.

(** The reading of the labeler in the specification: a breadth-first flood
    fill from the seed that visits the neighbours of each position in a fixed
    order of offsets and records positions when they are first visited. *)
Definition shift (p d : coord) : coord := (p.1 + d.1, p.2 + d.2).

Definition clockwise_from_north : list coord :=
  [(-1, 0); (-1, 1); (0, 1); (1, 1); (1, 0); (1, -1); (0, -1); (-1, -1)].

Definition neighbour_offsets (nbrs : list coord) : bool :=
  forallb (fun d => (Z.abs d.1 <=? 1) && (Z.abs d.2 <=? 1)) nbrs.

Fixpoint visit (fg nbrs : list coord) (p : coord) (seen : list coord) : list coord :=
  match nbrs with
  | [] => []
  | d :: ds =>
      let q := shift p d in
      if mem q fg && negb (mem q seen)
      then q :: visit fg ds p (seen ++ [q])
      else visit fg ds p seen
  end.

Fixpoint bfs (fuel : nat) (fg nbrs queue seen : list coord) : list coord :=
  match fuel, queue with
  | S n, p :: rest =>
      let new := visit fg nbrs p seen in
      bfs n fg nbrs (rest ++ new) (seen ++ new)
  | _, _ => seen
  end.

Definition bfs_order (nbrs fg : list coord) (seed : coord) : list coord :=
  bfs (List.length fg) fg nbrs [seed] [seed].

(** ** Order of the output *)

(** Lexicographic order on positions in the loop nest. *)
Definition key_lt (a b : key) : Prop :=
  let '(i1, j1, c1, k1) := a in
  let '(i2, j2, c2, k2) := b in
  i1 < i2 \/ (i1 = i2 /\ (j1 < j2 \/ (j1 = j2 /\ (c1 < c2 \/ (c1 = c2 /\ k1 < k2))))).

Definition by_key (x y : key * OutputRecord) : Prop := key_lt x.1 y.1.

(** ** The back-projection script *)

Section ScriptRecords.

Variable num : Type.
Variable point : Type.
Variable to_float : string -> option num.
Variable fmt6 : num -> string.
Variable pickPoint : camera -> num -> num -> option point.
Variable project : point -> num * num * num.

(** What a line of at least four characters asks for: label, pixel
    position and the two tags; [None] when the line is rejected. *)
Definition parse_line (line : string) : option (string * num * num * string * string) :=
  match Text.split "," (Text.strip line) 5 with
  | [label; x_coord; y_coord; lineType; lineNumber] =>
      match to_float x_coord, to_float y_coord with
      | Some x, Some y => Some (label, x, y, lineType, lineNumber)
      | _, _ => None
      end
  | _ => None
  end.

Definition first_camera (cams : list camera) (label : string) : option camera :=
  List.find (fun cam => String.eqb (cam_label cam) label) cams.

(** The text an accepted line adds to the output file: one line when a
    usable camera carries the label and the ray meets the surface. *)
Definition line_text (cams : list camera) (line : string) : string :=
  if (String.length line <? 4)%nat then ""
  else match parse_line line with
       | Some (label, x, y, lineType, lineNumber) =>
           match first_camera cams label with
           | Some cam =>
               match pickPoint cam x y with
               | Some p => format_marker num fmt6 label (project p) lineType lineNumber
               | None => ""
               end
           | None => ""
           end
       | None => ""
       end.

(** Whether an accepted line leaves its marker in the chunk: a camera
    carries the label but the ray misses the surface. *)
Definition line_leaks (cams : list camera) (line : string) : bool :=
  if (String.length line <? 4)%nat then false
  else match parse_line line with
       | Some (label, x, y, _, _) =>
           match first_camera cams label with
           | Some cam => match pickPoint cam x y with Some _ => false | None => true end
           | None => false
           end
       | None => false
       end.

(** A line the loop gets past: too short to be looked at, or accepted. *)
Definition line_ok (line : string) : bool :=
  (String.length line <? 4)%nat ||
  match parse_line line with Some _ => true | None => false end.

(** The lines the loop handles: those before the first rejected one. *)
Fixpoint handled_lines (lines : list string) : list string :=
  match lines with
  | [] => []
  | line :: rest => if line_ok line then line :: handled_lines rest else []
  end.

End ScriptRecords.

(** What a step of the script leaves alone: the files other than [out],
    the cameras, the dense cloud and the printed messages. *)
Definition frame {num} (out : string) (s s' : session num) : Prop :=
  (forall p, p <> out -> disk num s' !! p = disk num s !! p) /\
  cameras num (the_chunk num s') = cameras num (the_chunk num s) /\
  dense_cloud num (the_chunk num s') = dense_cloud num (the_chunk num s) /\
  printed num s' = printed num s.

(** The five guards of lines 17-37 let the call through. *)
Definition ready {num} (chunk0 : option (chunk num)) (path : string)
    (files : gmap string string) : bool :=
  negb (String.eqb path "") &&
  match files !! path with Some _ => true | None => false end &&
  match chunk0 with
  | Some c => match usable_cameras num c with [] => false | _ => true end && dense_cloud num c
  | None => false
  end.

(** The lines of the input file, as [readlines] returns them. *)
Definition input_lines (path : string) (files : gmap string string) : list string :=
  Text.readlines (default "" (files !! path)).

(** A text field that survives a round trip through the output file: no
    comma, no line break, no white space in front. *)
Definition clean_field (s : string) : Prop :=
  Text.count "," s = O /\ Text.count Text.LF s = O /\ Text.count Text.CR s = O /\
  Text.lstrip s = s.

(** Every character of a string passes a test. *)
Fixpoint all_chars (P : ascii -> bool) (s : string) : bool :=
  match s with
  | EmptyString => true
  | String c t => P c && all_chars P t
  end.

(** The characters of a printed integer: digits and the minus sign. *)
Definition num_char (c : ascii) : bool :=
  let n := nat_of_ascii c in ((48 <=? n) && (n <=? 57) || (n =? 45))%nat.

(** The string is not empty and its last character is not white space. *)
Fixpoint last_nonspace (s : string) : bool :=
  match s with
  | EmptyString => false
  | String c EmptyString => negb (Text.is_space c)
  | String c t => last_nonspace t
  end.

(** The text of a record without the line break at its end. *)
Definition record_body (r : OutputRecord) : string :=
  rec_label r +:+ "," +:+ pretty (rec_x r) +:+ "," +:+ pretty (rec_y r) +:+ ","
  +:+ rec_suffix r +:+ "," +:+ pretty (componentIndex r).


(** ** Results and skeletons *)


(** The pixel position (row, col) a record stands for. *)
Definition position (r : OutputRecord) : coord := (rec_y r, rec_x r).

Section Results.

Variable glob : string -> list string.
Variable imread : string -> option image.
Variable rgb2gray : array3 -> option (grid spec_float).
Variable skeletonize : grid bool -> grid bool.

(** The skeleton lines 55-71 compute for an image file that decodes. *)
Definition skeleton_of (path : string) : option (grid bool) :=
  match imread path with
  | Some img =>
      match gray_of rgb2gray img with
      | Some a => Some (skeletonize (binarize a))
      | None => None
      end
  | None => None
  end.

(** How the work on one image file ends: the read or the conversion may
    raise, and the first record needs [alt_names[idx]]. *)
Definition image_result (alt_names : list string) (idx : Z) (path : string)
  : outcome unit :=
  match imread path with
  | None => Raise (ImreadError path)
  | Some img =>
      match gray_of rgb2gray img with
      | None => Raise GrayError
      | Some a =>
          match regionprops (measure_label (skeletonize (binarize a))),
                alt_names !! Z.to_nat idx with
          | _ :: _, None => Raise IndexError
          | _, _ => Ok tt
          end
      end
  end.



End Results.

(** ** Sample inputs *)

Definition U_shape : grid bool :=
  [[true; false; true];
   [true; false; true];
   [true; true; true]].

Definition two_dots : grid bool :=
  [[false; true; false; false];
   [true; false; false; true]].

(** A one-pixel-wide curve of three pixels joined by their corners. *)
Definition V_shape : grid bool :=
  [[true; false; true];
   [false; true; false]].

Definition line_region : region :=
  Region 1 (List.map (fun c => (1, c)) [1; 2; 3; 4; 5; 6; 7; 8; 9; 10]).

(** The scenario of the specification: one file holding a straight line of
    ten dark pixels on white. *)
Definition line10 : grid Z :=
  [[255; 255; 255; 255; 255; 255; 255; 255; 255; 255; 255; 255];
   [255; 0; 0; 0; 0; 0; 0; 0; 0; 0; 0; 255];
   [255; 255; 255; 255; 255; 255; 255; 255; 255; 255; 255; 255]].

Definition glob_ex (pattern : string) : list string :=
  ["/d/shapeA_suffix1.tif"; "/d/other.tif"].

Definition imread_ex (path : string) : option image := Some (Gray (U8 line10)).

Definition no_color (a : array3) : option (grid spec_float) := None.

(** Stands for the thinning on masks that are one pixel wide already. *)
Definition thin_already (m : grid bool) : grid bool := m.

Definition glob_two (pattern : string) : list string := ["/d/a_1.tif"; "/d/a_2.tif"].

Definition imread_dot (path : string) : option image := Some (Gray (U8 [[0]])).

Definition old_output : world :=
  World {[ "/out.txt" := "stale" ]} "" [].

(** A reader of decimal integers, standing for [float] on the numbers
    [extract_points] prints. *)
Definition digit_of (c : ascii) : option N :=
  let n := N_of_ascii c in
  if ((48 <=? n) && (n <=? 57))%N then Some (n - 48)%N else None.

(** Value and weight [10 ^ length] of a string of digits. *)
Fixpoint dec_value (s : string) : option (N * N) :=
  match s with
  | EmptyString => Some (0, 1)%N
  | String c t =>
      match digit_of c, dec_value t with
      | Some d, Some (v, p) => Some (d * p + v, 10 * p)%N
      | _, _ => None
      end
  end.

Definition float_ex (s : string) : option Z :=
  match s with
  | EmptyString => None
  | String c t =>
      if Ascii.eqb c "-"
      then match t with
           | EmptyString => None
           | _ => option_map (fun vp : N * N => - Z.of_N vp.1) (dec_value t)
           end
      else option_map (fun vp : N * N => Z.of_N vp.1) (dec_value s)
  end.

Definition fmt6_ex (z : Z) : string := pretty z +:+ ".000000".

(** A surface met by the rays through the pixels left of column 6 only. *)
Definition pick_ex (cam : camera) (x y : Z) : option (Z * Z) :=
  if x <? 6 then Some (x, y) else None.

Definition project_ex (p : Z * Z) : Z * Z * Z := (p.1, p.2, 0).

Definition chunk_ex : chunk Z :=
  Chunk Z [Camera "S0" false true; Camera "S1" true true] true [].

(** The two records of the scenario, a short line and a line for an
    unknown camera. *)
Definition points_txt : string :=
  "S1,1,1,_suffix1,1" +:+ String Text.LF ("S1,6,1,_suffix1,1" +:+ String Text.LF
  ("x" +:+ String Text.LF ("S9,1,1,a,1" +:+ String Text.LF ""))).

Definition files_ex : gmap string string := {[ "/d/points.txt" := points_txt ]}.

(** * Properties *)

(** ** The model on sample inputs *)

Example basename_ex : Path.basename "/data/run/shapeA_suffix1.tif" = "shapeA_suffix1.tif".
Proof. reflexivity. Qed.

Example splitext_ex : Path.splitext "shapeA.tif" = ("shapeA", ".tif").
Proof. reflexivity. Qed.

Example splitext_hidden : Path.splitext "dir.d/.bashrc" = ("dir.d/.bashrc", "").
Proof. reflexivity. Qed.

Example join_ex : Path.join "/data/run" "*.tif" = "/data/run/*.tif".
Proof. reflexivity. Qed.

Example contains_ex :
  Str.contains "_suffix1" "shapeA_suffix1.tif" = true /\
  Str.contains "shapeB" "shapeA_suffix1.tif" = false /\
  Str.contains "" "x" = true.
Proof. repeat split; reflexivity. Qed.

Example regions_U :
  List.map coords (regionprops (measure_label U_shape)) =
  [[(0,0); (0,2); (1,0); (1,2); (2,0); (2,1); (2,2)]].
Proof. vm_compute. reflexivity. Qed.

Example regions_two_dots :
  regionprops (measure_label two_dots) =
  [Region 1 [(0,1); (1,0)]; Region 2 [(1,3)]].
Proof. vm_compute. reflexivity. Qed.

Example slice_ex : slice_step 5 (seq 0 12) = [0; 5; 10]%nat.
Proof. reflexivity. Qed.

(** ** Strings *)

Lemma str_app_cons (x : ascii) (a b : string) : String x a +:+ b = String x (a +:+ b).
Proof. reflexivity. Qed.

Lemma str_app_nil_l (a : string) : "" +:+ a = a.
Proof. reflexivity. Qed.

Lemma str_app_assoc (a b c : string) : (a +:+ b) +:+ c = a +:+ (b +:+ c).
Proof.
  induction a as [|x a IH]; [reflexivity|].
  rewrite !str_app_cons. now rewrite IH.
Qed.

Lemma str_app_nil_r (a : string) : a +:+ "" = a.
Proof.
  induction a as [|x a IH]; [reflexivity|].
  rewrite str_app_cons. now rewrite IH.
Qed.

Lemma startswith_spec (pre s : string) :
  Str.startswith pre s = true <-> exists post, s = pre +:+ post.
Proof.
  revert s. induction pre as [|a pre IH]; intros s; simpl.
  - split; [intros _; now exists s | reflexivity].
  - destruct s as [|b t].
    + split; [discriminate | intros [post H]; discriminate].
    + rewrite andb_true_iff, Ascii.eqb_eq, IH. split.
      * intros [-> [post ->]]. now exists post.
      * intros [post H]. rewrite str_app_cons in H. injection H as -> ->.
        split; [reflexivity | now exists post].
Qed.

Lemma contains_spec (needle hay : string) :
  Str.contains needle hay = true <-> Str.substring_of needle hay.
Proof.
  unfold Str.substring_of. induction hay as [|c t IH].
  - simpl. rewrite orb_false_r, startswith_spec. split.
    + intros [post H]. exists "", post. exact H.
    + intros [pre [post H]]. destruct pre as [|x pre].
      * now exists post.
      * rewrite str_app_cons in H. discriminate.
  - cbn [Str.contains]. rewrite orb_true_iff, startswith_spec, IH. split.
    + intros [[post H] | [pre [post H]]].
      * exists "", post. exact H.
      * exists (String c pre), post. rewrite str_app_cons. now rewrite H.
    + intros [pre [post H]]. destruct pre as [|x pre].
      * left. now exists post.
      * right. rewrite str_app_cons in H. injection H as _ H. now exists pre, post.
Qed.

(** ** Slices *)

Lemma slice_step_from_lookup {A} (s w k : nat) (l : list A) :
  slice_step_from (S s) w l !! k = l !! (w + k * S s)%nat.
Proof.
  revert w k. induction l as [|a t IH]; intros w k; [reflexivity|].
  destruct w as [|w]; simpl.
  - destruct k as [|k]; [reflexivity|]. simpl. rewrite IH. reflexivity.
  - apply IH.
Qed.

Lemma slice_step_from_length {A} (s w : nat) (l : list A) :
  List.length (slice_step_from (S s) w l) = ((List.length l + s - w) / S s)%nat.
Proof.
  revert w. induction l as [|a t IH]; intros w.
  - cbn [slice_step_from List.length]. symmetry. apply Nat.div_small. lia.
  - destruct w as [|w]; cbn [slice_step_from List.length].
    + rewrite IH. cbn [Nat.pred].
      replace (S (List.length t) + s - 0)%nat with (List.length t + s - s + 1 * S s)%nat by lia.
      rewrite Nat.div_add; lia.
    + rewrite IH. reflexivity.
Qed.

Lemma slice_step_lookup {A} (l : list A) (k : nat) :
  slice_step 5 l !! k = l !! (5 * k)%nat.
Proof. unfold slice_step. rewrite slice_step_from_lookup. f_equal. lia. Qed.

Lemma slice_step_length {A} (l : list A) :
  List.length (slice_step 5 l) = ceil_div (List.length l) 5.
Proof. unfold slice_step, ceil_div. rewrite slice_step_from_length. f_equal. lia. Qed.

(** ** The output stream *)

Lemma writes_app (a b : list event) : writes (a ++ b) = writes a ++ writes b.
Proof.
  induction a as [|e a IH]; [reflexivity|].
  destruct e; simpl; now rewrite IH.
Qed.

Lemma joined_app (a b : list string) : joined (a ++ b) = joined a +:+ joined b.
Proof.
  induction a as [|x a IH]; [reflexivity|].
  simpl. rewrite IH. now rewrite str_app_assoc.
Qed.

Lemma written_app (a b : list event) : written (a ++ b) = written a +:+ written b.
Proof. unfold written. now rewrite writes_app, joined_app. Qed.

Section Effects.

Variable bufsize : N.
Variable out : string.

Lemma conserved_refl w : conserved out w w [].
Proof.
  repeat split.
  - now rewrite app_nil_r.
  - intros c Hc. exists c. split; [exact Hc|].
    unfold written. simpl. now rewrite str_app_nil_r.
Qed.

Lemma conserved_trans w1 w2 w3 e1 e2 :
  conserved out w1 w2 e1 -> conserved out w2 w3 e2 -> conserved out w1 w3 (e1 ++ e2).
Proof.
  intros (L1 & O1 & C1) (L2 & O2 & C2). repeat split.
  - rewrite L2, L1. now rewrite <- app_assoc.
  - intros p Hp. rewrite O2, O1 by exact Hp. reflexivity.
  - intros c Hc. destruct (C1 c Hc) as (c1 & Hc1 & E1).
    destruct (C2 c1 Hc1) as (c2 & Hc2 & E2). exists c2. split; [exact Hc2|].
    rewrite E2, written_app, <- !str_app_assoc.
    rewrite E1. now rewrite !str_app_assoc.
Qed.

Lemma conserved_emit e w :
  writes [e] = [] -> conserved out w (emit e w) [e].
Proof.
  intros He. repeat split.
  intros c Hc. exists c. split; [exact Hc|].
  unfold written. rewrite He. simpl. now rewrite str_app_nil_r.
Qed.

Lemma conserved_write text w :
  conserved out w (f_write bufsize out text w).2 [EvWrite text].
Proof.
  unfold f_write. cbn [snd].
  assert (Hw : written [EvWrite text] = text).
  { unfold written. simpl. apply str_app_nil_r. }
  destruct (_ <? _)%N; repeat split; cbn [fs fbuf log].
  - intros p Hp. now rewrite lookup_alter_ne.
  - intros c Hc. exists (c +:+ fbuf w +:+ text). split.
    + rewrite lookup_alter_eq, Hc. reflexivity.
    + rewrite Hw. now rewrite str_app_nil_r.
  - intros c Hc. exists c. split; [exact Hc|]. now rewrite Hw.
Qed.

Lemma yields_ret : yields out (ret tt) [].
Proof.
  intros w. exists []. split; [apply conserved_refl|]. split; [reflexivity | reflexivity].
Qed.

Lemma yields_raise e full : yields out (raise e) full.
Proof.
  intros w. exists []. split; [apply conserved_refl|].
  split; [apply prefix_nil | discriminate].
Qed.

Lemma yields_write text : yields out (f_write bufsize out text) [text].
Proof.
  intros w. exists [EvWrite text]. split; [apply conserved_write|].
  split; reflexivity.
Qed.

Lemma yields_seq m1 m2 f1 f2 :
  yields out m1 f1 -> yields out m2 f2 -> yields out (m1 ;;; m2) (f1 ++ f2).
Proof.
  intros H1 H2 w. unfold bind.
  destruct (H1 w) as (e1 & C1 & P1 & F1).
  destruct (m1 w) as [[[]|e] w1] eqn:E1; cbn [fst snd] in *.
  - destruct (H2 w1) as (e2 & C2 & P2 & F2).
    exists (e1 ++ e2). split; [eapply conserved_trans; eassumption|].
    rewrite writes_app, F1 by reflexivity. split.
    + now apply prefix_app.
    + intros Hok. now rewrite F2.
  - exists e1. split; [exact C1|]. split; [|discriminate].
    now apply prefix_app_r.
Qed.

Lemma yields_for_each {A} (l : list A) (body : A -> M unit) (f : A -> list string) :
  (forall a, In a l -> yields out (body a) (f a)) ->
  yields out (for_each l body) (flat_map f l).
Proof.
  induction l as [|a t IH]; intros H; simpl.
  - apply yields_ret.
  - apply yields_seq; [apply H; now left|].
    apply IH. intros b Hb. apply H. now right.
Qed.

Lemma yields_for_each_enum {A} (k : Z) (l : list A) (body : A -> M unit)
    (f : Z * A -> list string) :
  (forall ia, In ia (enum_from k l) -> yields out (body ia.2) (f ia)) ->
  yields out (for_each l body) (flat_map f (enum_from k l)).
Proof.
  revert k. induction l as [|a t IH]; intros k H; simpl.
  - apply yields_ret.
  - apply yields_seq; [apply (H (k, a)); now left|].
    apply IH. intros b Hb. apply H. now right.
Qed.

End Effects.

(** ** What a run writes *)

Section Run.

Variable bufsize : N.
Variable glob : string -> list string.
Variable imread : string -> option image.
Variable rgb2gray : array3 -> option (grid spec_float).
Variable skeletonize : grid bool -> grid bool.

Variable out : string.

Lemma lines_app a b : lines (a ++ b) = lines a ++ lines b.
Proof. apply map_app. Qed.

Lemma lines_flat_map {A} (f : A -> list (key * OutputRecord)) (l : list A) :
  lines (flat_map f l) = flat_map (fun a => lines (f a)) l.
Proof.
  induction l as [|a t IH]; [reflexivity|].
  simpl. now rewrite lines_app, IH.
Qed.

Lemma map_enum_from {A B} (g : A -> B) (i : Z) (l : list A) :
  List.map (fun ka : Z * A => g ka.2) (enum_from i l) = List.map g l.
Proof.
  revert i. induction l as [|a t IH]; intros i; [reflexivity|].
  simpl. now rewrite IH.
Qed.

Lemma lines_region_records idx j alt suffix cr :
  lines (region_records idx j alt suffix cr) =
  List.map (fun '(y, x) => format_record (Record_ alt x y suffix cr.1))
           (slice_step 5 (coords cr.2)).
Proof.
  unfold lines, region_records. rewrite List.map_map.
  rewrite <- (map_enum_from (fun '(y, x) => format_record (Record_ alt x y suffix cr.1)) 0).
  apply List.map_ext. intros [k [y x]]. reflexivity.
Qed.

Lemma yields_emit_region_some alt_names idx j suffix ci r alt :
  alt_names !! Z.to_nat idx = Some alt ->
  yields out (emit_region bufsize out alt_names idx suffix ci r)
         (lines (region_records idx j alt suffix (ci, r))).
Proof.
  intros Halt. rewrite lines_region_records. cbn [fst snd].
  unfold emit_region. induction (slice_step 5 (coords r)) as [|[y x] t IH].
  - apply yields_ret.
  - cbn [for_each List.map].
    refine (yields_seq out _ _ [_] _ _ IH).
    intros w. unfold bind, index. rewrite Halt. apply yields_write.
Qed.

Lemma yields_emit_region_none alt_names idx suffix ci r :
  alt_names !! Z.to_nat idx = None ->
  yields out (emit_region bufsize out alt_names idx suffix ci r) [].
Proof.
  intros Halt. unfold emit_region.
  destruct (slice_step 5 (coords r)) as [|[y x] t].
  - apply yields_ret.
  - intros w. cbn [for_each]. unfold bind, index. rewrite Halt.
    apply (yields_raise out IndexError []).
Qed.

Lemma flat_map_nil {A B} (l : list A) : flat_map (fun _ : A => @nil B) l = [].
Proof. induction l; [reflexivity | assumption]. Qed.

Lemma yields_regions alt_names idx j suffix (rs : list region) :
  yields out (for_each (enum_from 1 rs) (fun '(comp_idx, region) =>
            emit_region bufsize out alt_names idx suffix comp_idx region))
         (lines (match alt_names !! Z.to_nat idx with
                 | Some alt => flat_map (region_records idx j alt suffix) (enum_from 1 rs)
                 | None => []
                 end)).
Proof.
  destruct (alt_names !! Z.to_nat idx) as [alt|] eqn:Halt.
  - rewrite lines_flat_map. apply yields_for_each.
    intros [ci r] _. now apply yields_emit_region_some.
  - unfold lines. cbn [List.map].
    rewrite <- (flat_map_nil (B := string) (enum_from 1 rs)).
    apply yields_for_each. intros [ci r] _. now apply yields_emit_region_none.
Qed.

Lemma yields_after_emit e m full :
  writes [e] = [] -> yields out m full -> yields out (fun w => m (emit e w)) full.
Proof.
  intros He Hm w. destruct (Hm (emit e w)) as (evs & C & P & F).
  exists ([e] ++ evs). split.
  - eapply conserved_trans; [now apply conserved_emit | exact C].
  - rewrite writes_app, He. split; assumption.
Qed.

Lemma yields_failed e x full :
  writes [e] = [] -> yields out (fun w => (Raise x, emit e w)) full.
Proof.
  intros He w. exists [e]. split; [now apply conserved_emit|].
  rewrite He. split; [apply prefix_nil | discriminate].
Qed.

Lemma process_image_unfold alt_names idx suffix path w :
  process_image bufsize imread rgb2gray skeletonize out alt_names idx suffix path w =
  match imread path with
  | None => (Raise (ImreadError path), emit (EvImread path) w)
  | Some img =>
      match gray_of rgb2gray img with
      | None => (Raise GrayError, emit (EvImread path) w)
      | Some a =>
          for_each (enum_from 1 (regionprops (measure_label (skeletonize (binarize a)))))
            (fun '(comp_idx, region) =>
               emit_region bufsize out alt_names idx suffix comp_idx region)
            (emit (EvImread path) w)
      end
  end.
Proof.
  unfold process_image, bind, do_imread.
  destruct (imread path) as [[a|a]|]; cbn [gray_of to_gray]; try reflexivity.
  destruct (rgb2gray a); reflexivity.
Qed.

Lemma yields_process_image alt_names idx j suffix path :
  yields out (process_image bufsize imread rgb2gray skeletonize out alt_names idx suffix path)
         (lines (image_records imread rgb2gray skeletonize alt_names idx j suffix path)).
Proof.
  intros w. rewrite process_image_unfold. unfold image_records, regions_of.
  destruct (imread path) as [img|].
  - destruct (gray_of rgb2gray img) as [a|].
    + apply (yields_after_emit (EvImread path)); [reflexivity|].
      apply yields_regions.
    + apply (yields_failed (EvImread path)). reflexivity.
  - apply (yields_failed (EvImread path)). reflexivity.
Qed.

Lemma yields_process_pair alt_names matching idx js :
  yields out (process_pair bufsize imread rgb2gray skeletonize out alt_names matching idx js.2)
         (lines (pair_records imread rgb2gray skeletonize alt_names matching idx js)).
Proof.
  unfold process_pair, pair_records.
  destruct (files_with_suffix matching js.2) as [|image_path rest].
  - apply yields_ret.
  - apply yields_process_image.
Qed.

Lemma yields_images (image_names : list string) listing suffixes alt_names :
  yields out
    (for_each (enumerate image_names) (fun '(idx, image_name) =>
       let matching := matching_files listing image_name in
       for_each suffixes (fun suffix =>
         process_pair bufsize imread rgb2gray skeletonize out alt_names matching idx suffix)))
    (lines (flat_map (fun '(idx, image_name) =>
              flat_map (pair_records imread rgb2gray skeletonize alt_names (matching_files listing image_name) idx)
                       (enumerate suffixes))
           (enumerate image_names))).
Proof.
  rewrite lines_flat_map. apply yields_for_each. intros [idx image_name] _.
  cbn zeta. rewrite lines_flat_map.
  apply (yields_for_each_enum out 0 suffixes
           (fun suffix => process_pair bufsize imread rgb2gray skeletonize out alt_names
                            (matching_files listing image_name) idx suffix)
           (fun js => lines (pair_records imread rgb2gray skeletonize alt_names (matching_files listing image_name) idx js))).
  intros js _. apply yields_process_pair.
Qed.

(** The whole run: the file is opened first and closed last; in between
    the run writes a prefix of the records (all of them when it does not
    raise); at the end the file holds exactly what was written. *)
Lemma extract_points_run image_names directory suffixes alt_names w :
  let res := extract_points bufsize glob imread rgb2gray skeletonize
               image_names directory suffixes alt_names out w in
  exists evs,
    log res.2 = log w ++ [EvOpen out; EvGlob (Path.join directory "*.tif")]
                      ++ evs ++ [EvClose out] /\
    (forall p, p <> out -> fs res.2 !! p = fs w !! p) /\
    fs res.2 !! out = Some (written evs) /\
    fbuf res.2 = "" /\
    writes evs `prefix_of` lines (run_records glob imread rgb2gray skeletonize image_names directory suffixes alt_names) /\
    (res.1 = Ok tt ->
     writes evs = lines (run_records glob imread rgb2gray skeletonize image_names directory suffixes alt_names)).
Proof.
  cbv zeta. unfold extract_points, with_open_wt, bind, do_glob.
  set (pattern := Path.join directory "*.tif").
  set (w1 := emit (EvGlob pattern) (open_wt out w)).
  destruct (yields_images image_names (glob pattern) suffixes alt_names w1)
    as (evs & (L & O & C) & P & F).
  match goal with |- context [for_each ?l ?b w1] => destruct (for_each l b w1) as [r w2] end.
  cbn [fst snd] in *. exists evs. repeat split.
  - cbn [f_close log]. rewrite L. cbn [w1 emit open_wt log].
    rewrite <- !app_assoc. reflexivity.
  - intros p Hp. cbn [f_close fs]. rewrite lookup_alter_ne by congruence.
    rewrite O by exact Hp. cbn [w1 emit open_wt fs]. now rewrite lookup_insert_ne.
  - cbn [f_close fs]. rewrite lookup_alter_eq.
    destruct (C "") as (c' & Hc' & E).
    { cbn [w1 emit open_wt fs]. apply lookup_insert_eq. }
    rewrite Hc'. change (Some (c' +:+ fbuf w2) = Some (written evs)).
    rewrite E. reflexivity.
  - exact P.
  - exact F.
Qed.

End Run.

(** ** Downsampling and emission *)

Lemma map_lookup {A B} (f : A -> B) (l : list A) (i : nat) :
  List.map f l !! i = option_map f (l !! i).
Proof.
  revert i. induction l as [|a t IH]; intros [|i]; try reflexivity. apply IH.
Qed.

Lemma for_each_cons_ok {A} (a : A) t body w w1 :
  body a w = (Ok tt, w1) -> for_each (a :: t) body w = for_each t body w1.
Proof. intros H. cbn [for_each]. unfold bind. now rewrite H. Qed.

Lemma f_write_log bufsize out text w :
  log (f_write bufsize out text w).2 = log w ++ [EvWrite text].
Proof. unfold f_write. cbn [snd]. now destruct (_ <? _)%N. Qed.

Lemma emit_region_log bufsize out alt_names idx suffix comp_idx r alt w :
  alt_names !! Z.to_nat idx = Some alt ->
  let res := emit_region bufsize out alt_names idx suffix comp_idx r w in
  res.1 = Ok tt /\
  log res.2 = log w ++ List.map (fun p => EvWrite (format_record (record_at alt suffix comp_idx p)))
                                (slice_step 5 (coords r)).
Proof.
  intros Halt. cbv zeta. unfold emit_region.
  revert w. induction (slice_step 5 (coords r)) as [|[y x] t IH]; intros w.
  - split; [reflexivity | now rewrite app_nil_r].
  - rewrite (for_each_cons_ok _ _ _ w
               (f_write bufsize out (format_record (Record_ alt x y suffix comp_idx)) w).2).
    + destruct (IH (f_write bufsize out (format_record (Record_ alt x y suffix comp_idx)) w).2)
        as [Hok Hlog].
      split; [exact Hok|]. rewrite Hlog, f_write_log, <- app_assoc. reflexivity.
    + unfold bind, index. rewrite Halt. reflexivity.
Qed.

(** C1. Stride law: for a region with N pixel coordinates the emitter issues
    exactly ceil(N/5) writes, one record each, and the k-th record carries
    as x the column and as y the row of the coordinate at index 5k, together
    with the alternate name, the suffix and the region's number. *)
Theorem stride_law bufsize out alt_names idx suffix comp_idx r alt w :
  alt_names !! Z.to_nat idx = Some alt ->
  let res := emit_region bufsize out alt_names idx suffix comp_idx r w in
  res.1 = Ok tt /\
  exists recs : list OutputRecord,
    log res.2 = log w ++ List.map (fun rec => EvWrite (format_record rec)) recs /\
    List.length recs = ceil_div (List.length (coords r)) 5 /\
    forall k, (k < List.length recs)%nat ->
      exists row col,
        coords r !! (5 * k)%nat = Some (row, col) /\
        recs !! k = Some (Record_ alt col row suffix comp_idx).
Proof.
  intros Halt. destruct (emit_region_log bufsize out alt_names idx suffix comp_idx r alt w Halt)
    as [Hok Hlog].
  cbv zeta. split; [exact Hok|].
  exists (List.map (record_at alt suffix comp_idx) (slice_step 5 (coords r))).
  split; [|split].
  - rewrite Hlog, List.map_map. reflexivity.
  - rewrite length_map. apply slice_step_length.
  - intros k Hk. rewrite length_map in Hk.
    destruct (lookup_lt_is_Some_2 _ _ Hk) as [[row col] Hp].
    exists row, col. rewrite <- slice_step_lookup. split; [exact Hp|].
    rewrite map_lookup, Hp. reflexivity.
Qed.

Lemma stride_law_witness :
  let res := emit_region 64 "out.txt" ["S1"] 0 "_suffix1" 1 line_region (World ∅ "" []) in
  res.1 = Ok tt /\
  exists recs : list OutputRecord,
    log res.2 = [] ++ List.map (fun rec => EvWrite (format_record rec)) recs /\
    List.length recs = 2%nat /\
    forall k, (k < List.length recs)%nat ->
      exists row col,
        coords line_region !! (5 * k)%nat = Some (row, col) /\
        recs !! k = Some (Record_ "S1" col row "_suffix1" 1).
Proof.
  apply (stride_law 64 "out.txt" ["S1"] 0 "_suffix1" 1 line_region "S1" (World ∅ "" [])).
  reflexivity.
Defined.

(** ** Binarization *)

Lemma get2_map {A B} (f : A -> B) (v : grid A) (p : coord) :
  get2 (List.map (List.map f) v) p = option_map f (get2 v p).
Proof.
  unfold get2. destruct (_ || _); [reflexivity|].
  rewrite map_lookup. destruct (v !! Z.to_nat p.1) as [row|]; [|reflexivity].
  cbn. apply map_lookup.
Qed.

Lemma shape_map {A B} (f : A -> B) (v : grid A) :
  shape (List.map (List.map f) v) = shape v.
Proof.
  unfold shape. rewrite List.map_map. apply List.map_ext. intros row. apply length_map.
Qed.

Lemma digits2_pos_bounds (m : positive) :
  2 ^ (Z.pos (digits2_pos m) - 1) <= Z.pos m < 2 ^ Z.pos (digits2_pos m).
Proof.
  induction m as [m IH|m IH|]; cbn [digits2_pos].
  - rewrite Pos2Z.inj_succ. replace (Z.succ (Z.pos (digits2_pos m)) - 1) with (Z.succ (Z.pos (digits2_pos m) - 1)) by lia.
    rewrite !Z.pow_succ_r by lia. lia.
  - rewrite Pos2Z.inj_succ. replace (Z.succ (Z.pos (digits2_pos m)) - 1) with (Z.succ (Z.pos (digits2_pos m) - 1)) by lia.
    rewrite !Z.pow_succ_r by lia. lia.
  - simpl. lia.
Qed.

Lemma bounded64 m e :
  bounded F64.prec F64.emax m e = true ->
  Z.max (Z.pos (digits2_pos m) + e - 53) (-1074) = e.
Proof.
  unfold bounded, canonical_mantissa, fexp, emin, F64.prec, F64.emax.
  rewrite andb_true_iff, Z.eqb_eq. intros [H _]. exact H.
Qed.

Lemma Qlt_one_frac (a : Z) (b : positive) : (a # b < 1)%Q <-> a < Z.pos b.
Proof. unfold Qlt. cbn [Qnum Qden]. lia. Qed.

Lemma Qlt_one_int (a : Z) : (inject_Z a < 1)%Q <-> a < 1.
Proof. unfold Qlt, inject_Z. cbn [Qnum Qden]. lia. Qed.

Lemma SFltb_finite_pos m e m' e' :
  SFltb (S754_finite false m e) (S754_finite false m' e') =
  match e ?= e' with
  | Lt => true
  | Gt => false
  | Eq => Z.pos m <? Z.pos m'
  end.
Proof.
  unfold SFltb, SFcompare. now destruct (e ?= e').
Qed.

Lemma one_mantissa : Z.pos 4503599627370496 = 2 ^ 52.
Proof. vm_compute. reflexivity. Qed.

Lemma lt_one_finite m e :
  bounded F64.prec F64.emax m e = true ->
  F64.lt (S754_finite false m e) F64.one = true <->
  (F64.to_Q (S754_finite false m e) < 1)%Q.
Proof.
  intros Hb. apply bounded64 in Hb.
  pose proof (digits2_pos_bounds m) as Hd.
  set (d := Z.pos (digits2_pos m)) in *.
  assert (Hd1 : 1 <= d) by (unfold d; lia).
  unfold F64.lt, F64.one, F64.to_Q. rewrite SFltb_finite_pos, one_mantissa.
  destruct (Z.compare_spec e (-52)) as [He|He|He].
  - subst e. assert (Hd53 : d - 1 = 52) by lia. rewrite Hd53 in Hd.
    rewrite Qlt_one_frac, Pos2Z.inj_pow, Z.ltb_lt. lia.
  - destruct e as [|k|k]; try lia.
    rewrite Qlt_one_frac, Pos2Z.inj_pow. split; [intros _|reflexivity].
    assert (2 ^ d <= 2 ^ Z.pos k) by (apply Z.pow_le_mono_r; lia). lia.
  - split; [discriminate|]. intros H. exfalso.
    destruct e as [|k|k].
    + rewrite Qlt_one_int in H. lia.
    + rewrite Qlt_one_int in H.
      assert (0 < 2 ^ Z.pos k) by (apply Z.pow_pos_nonneg; lia). nia.
    + rewrite Qlt_one_frac, Pos2Z.inj_pow in H.
      assert (2 ^ Z.pos k <= 2 ^ (d - 1)) by (apply Z.pow_le_mono_r; lia). lia.
Qed.

Lemma lt_one_spec (f : spec_float) :
  F64.valid f = true -> F64.is_finite f = true ->
  F64.lt f F64.one = true <-> (F64.to_Q f < 1)%Q.
Proof.
  intros Hv Hf. destruct f as [s|s| |s m e]; try discriminate.
  - split; [reflexivity | intros _; reflexivity].
  - destruct s.
    + split; [intros _ | reflexivity].
      unfold F64.to_Q. destruct e as [|k|k].
      * rewrite Qlt_one_int. lia.
      * rewrite Qlt_one_int. assert (0 < 2 ^ Z.pos k) by (apply Z.pow_pos_nonneg; lia). nia.
      * rewrite Qlt_one_frac. lia.
    + apply lt_one_finite. exact Hv.
Qed.

(** C2. Binarization rule: in an 8-bit raster a pixel is foreground exactly
    when its value is below 255; in a float raster exactly when the number
    it stands for is below 1; the mask has the raster's dimensions. *)
Theorem binarization_rule :
  (forall (v : grid Z) (p : coord) (x : Z),
     get2 v p = Some x ->
     exists b, get2 (binarize (U8 v)) p = Some b /\ (b = true <-> x < 255)) /\
  (forall (v : grid spec_float) (p : coord) (f : spec_float),
     get2 v p = Some f -> F64.valid f = true -> F64.is_finite f = true ->
     exists b, get2 (binarize (Fl v)) p = Some b /\ (b = true <-> (F64.to_Q f < 1)%Q)) /\
  (forall a : array2, shape (binarize a) = array2_shape a).
Proof.
  split; [|split].
  - intros v p x Hx. exists (x <? 255). split.
    + cbn [binarize]. rewrite get2_map, Hx. reflexivity.
    + apply Z.ltb_lt.
  - intros v p f Hf Hv Hfin. exists (F64.lt f F64.one). split.
    + cbn [binarize]. rewrite get2_map, Hf. reflexivity.
    + now apply lt_one_spec.
  - intros [v|v|v]; apply shape_map.
Qed.

Lemma binarization_rule_witness :
  (exists b, get2 (binarize (U8 [[254; 255]])) (0, 1) = Some b /\ (b = true <-> 255 < 255)) /\
  (exists b, get2 (binarize (Fl [[F64.below_one; F64.one]])) (0, 0) = Some b /\
             (b = true <-> (F64.to_Q F64.below_one < 1)%Q)).
Proof.
  destruct binarization_rule as (H8 & HF & _). split.
  - apply (H8 [[254; 255]] (0, 1) 255). reflexivity.
  - apply (HF [[F64.below_one; F64.one]] (0, 0) F64.below_one); reflexivity.
Defined.

Example binarization_boundary :
  binarize (U8 [[255; 254]]) = [[false; true]] /\
  binarize (Fl [[F64.one; F64.below_one]]) = [[false; true]].
Proof. split; reflexivity. Qed.

(** ** Sample domains other than 8-bit *)

Lemma for_each_ok {A} (l : list A) (body : A -> M unit) :
  (forall a w, (body a w).1 = Ok tt) -> forall w, (for_each l body w).1 = Ok tt.
Proof.
  intros Hb. induction l as [|a t IH]; intros w; [reflexivity|].
  cbn [for_each]. unfold bind. specialize (Hb a w).
  destruct (body a w) as [[[]|e] w1]; [apply IH | discriminate].
Qed.

Lemma process_image_ok bufsize imread rgb2gray skeletonize out alt_names idx suffix path a alt w :
  imread path = Some (Gray a) ->
  alt_names !! Z.to_nat idx = Some alt ->
  (process_image bufsize imread rgb2gray skeletonize out alt_names idx suffix path w).1 = Ok tt.
Proof.
  intros Him Halt. rewrite process_image_unfold, Him. cbn [gray_of].
  apply for_each_ok. intros [ci r] w1.
  now destruct (emit_region_log bufsize out alt_names idx suffix ci r alt w1 Halt).
Qed.

(** A 16-bit raster is read, thresholded and processed without any error. *)
Lemma uint16_raster_accepted :
  let img := U16 [[65535; 0; 65535]] in
  let res := process_image 64 (fun _ => Some (Gray img)) (fun _ => None) (fun m => m)
               "out.txt" ["A"] 0 "_s" "/d/x_s.tif" (World ∅ "" []) in
  binarize img = [[false; true; false]] /\
  res.1 = Ok tt /\
  log res.2 = [EvImread "/d/x_s.tif"; EvWrite (format_record (Record_ "A" 1 0 "_s" 1))].
Proof. vm_compute. repeat split. Qed.

(** C3 (as the code has it). No sample domain is rejected: a single-channel
    raster of any sample type is thresholded into a mask of its dimensions
    and processed to the end without an exception; every domain other than
    8-bit goes through the comparison with 1.0, so in an integer raster of
    another width, and in a float raster whatever its range, a pixel is
    foreground exactly when its value is below 1. *)
Theorem other_domains_thresholded bufsize imread rgb2gray skeletonize
    out alt_names idx suffix path a alt w :
  imread path = Some (Gray a) ->
  alt_names !! Z.to_nat idx = Some alt ->
  (process_image bufsize imread rgb2gray skeletonize out alt_names idx suffix path w).1 = Ok tt /\
  shape (binarize a) = array2_shape a /\
  (forall v p x, a = U16 v -> get2 v p = Some x ->
     exists b, get2 (binarize a) p = Some b /\ (b = true <-> x < 1)) /\
  (forall v p f, a = Fl v -> get2 v p = Some f ->
     F64.valid f = true -> F64.is_finite f = true ->
     exists b, get2 (binarize a) p = Some b /\ (b = true <-> (F64.to_Q f < 1)%Q)).
Proof.
  intros Him Halt. split; [|split; [|split]].
  - eapply process_image_ok; eassumption.
  - destruct a; apply shape_map.
  - intros v p x -> Hx. exists (x <? 1). split.
    + cbn [binarize]. rewrite get2_map, Hx. reflexivity.
    + apply Z.ltb_lt.
  - intros v p f -> Hf Hv Hfin. exists (F64.lt f F64.one). split.
    + cbn [binarize]. rewrite get2_map, Hf. reflexivity.
    + now apply lt_one_spec.
Qed.

Lemma other_domains_thresholded_witness :
  let a := U16 [[65535; 0; 65535]] in
  (process_image 64 (fun _ => Some (Gray a)) (fun _ => None) (fun m => m)
     "out.txt" ["A"] 0 "_s" "/d/x_s.tif" (World ∅ "" [])).1 = Ok tt /\
  shape (binarize a) = array2_shape a /\
  (forall v p x, a = U16 v -> get2 v p = Some x ->
     exists b, get2 (binarize a) p = Some b /\ (b = true <-> x < 1)) /\
  (forall v p f, a = Fl v -> get2 v p = Some f ->
     F64.valid f = true -> F64.is_finite f = true ->
     exists b, get2 (binarize a) p = Some b /\ (b = true <-> (F64.to_Q f < 1)%Q)).
Proof.
  apply (other_domains_thresholded 64 (fun _ => Some (Gray (U16 [[65535; 0; 65535]])))
           (fun _ => None) (fun m => m) "out.txt" ["A"] 0 "_s" "/d/x_s.tif"
           (U16 [[65535; 0; 65535]]) "A" (World ∅ "" [])); reflexivity.
Defined.

(** ** Row-major order and [argwhere] *)

Lemma row_major_lt_irrefl p : ~ row_major_lt p p.
Proof. unfold row_major_lt. lia. Qed.

Lemma row_major_lt_trans p q r :
  row_major_lt p q -> row_major_lt q r -> row_major_lt p r.
Proof. unfold row_major_lt. lia. Qed.

Lemma coord_eqb_eq p q : coord_eqb p q = true <-> p = q.
Proof.
  unfold coord_eqb. destruct p as [a b], q as [c d]. cbn [fst snd].
  rewrite andb_true_iff, !Z.eqb_eq. split; [intros [-> ->]; reflexivity|].
  intros H. injection H as -> ->. split; reflexivity.
Qed.

Lemma mem_In p l : mem p l = true <-> In p l.
Proof.
  unfold mem. rewrite existsb_exists. split.
  - intros [q [Hq E]]. apply coord_eqb_eq in E. now subst.
  - intros H. exists p. split; [exact H | now apply coord_eqb_eq].
Qed.

Lemma enum_from_In {A} (k : Z) (l : list A) (i : Z) (a : A) :
  In (i, a) (enum_from k l) <-> k <= i /\ l !! Z.to_nat (i - k) = Some a.
Proof.
  revert k. induction l as [|x t IH]; intros k; cbn [enum_from In].
  - split; [tauto | intros [_ H]; discriminate].
  - rewrite IH. split.
    + intros [H | [Hk H]].
      * injection H as -> ->. split; [lia|]. now replace (i - i) with 0 by lia.
      * split; [lia|]. replace (Z.to_nat (i - k)) with (S (Z.to_nat (i - (k + 1)))) by lia.
        exact H.
    + intros [Hk H]. destruct (Z.eq_dec i k) as [->|Hne].
      * left. replace (k - k) with 0 in H by lia.
        change (Some x = Some a) in H. now injection H as ->.
      * right. split; [lia|].
        replace (Z.to_nat (i - k)) with (S (Z.to_nat (i - (k + 1)))) in H by lia.
        exact H.
Qed.

Lemma argwhere_rows {A} (f : A -> bool) (g : grid A) : argwhere f g = rows_hits f 0 g.
Proof. reflexivity. Qed.

Lemma row_hits_In {A} (f : A -> bool) r c0 (row : list A) p :
  In p (row_hits f r c0 row) <->
  p.1 = r /\ c0 <= p.2 /\ exists a, row !! Z.to_nat (p.2 - c0) = Some a /\ f a = true.
Proof.
  unfold row_hits. rewrite in_flat_map. split.
  - intros [[c a] [Hin Hp]]. apply enum_from_In in Hin. destruct Hin as [Hc Ha].
    destruct (f a) eqn:Hf; [|contradiction]. destruct Hp as [<-|[]]. cbn [fst snd].
    split; [reflexivity|]. split; [exact Hc|]. now exists a.
  - intros (Hr & Hc & a & Ha & Hf). exists (p.2, a). split.
    + apply enum_from_In. now split.
    + rewrite Hf. left. destruct p. cbn [fst snd] in *. now subst.
Qed.

Lemma rows_hits_In {A} (f : A -> bool) r0 (g : grid A) p :
  In p (rows_hits f r0 g) <->
  r0 <= p.1 /\ 0 <= p.2 /\
  exists row a, g !! Z.to_nat (p.1 - r0) = Some row /\
                row !! Z.to_nat p.2 = Some a /\ f a = true.
Proof.
  unfold rows_hits. rewrite in_flat_map. split.
  - intros [[r row] [Hin Hp]]. apply enum_from_In in Hin. destruct Hin as [Hr Hrow].
    apply row_hits_In in Hp. destruct Hp as (E & Hc & a & Ha & Hf). subst r.
    rewrite Z.sub_0_r in Ha. split; [exact Hr|]. split; [exact Hc|]. now exists row, a.
  - intros (Hr & Hc & row & a & Hrow & Ha & Hf). exists (p.1, row). split.
    + apply enum_from_In. now split.
    + apply row_hits_In. split; [reflexivity|]. split; [exact Hc|].
      exists a. now rewrite Z.sub_0_r.
Qed.

Lemma argwhere_In {A} (f : A -> bool) (g : grid A) p :
  In p (argwhere f g) <-> exists a, get2 g p = Some a /\ f a = true.
Proof.
  rewrite argwhere_rows, rows_hits_In. unfold get2. rewrite Z.sub_0_r. split.
  - intros (Hr & Hc & row & a & Hrow & Ha & Hf). exists a.
    replace (p.1 <? 0) with false by (symmetry; apply Z.ltb_ge; lia).
    replace (p.2 <? 0) with false by (symmetry; apply Z.ltb_ge; lia).
    cbn [orb]. rewrite Hrow. cbn. now split.
  - intros [a [Hg Hf]].
    destruct (Z.ltb_spec p.1 0); [discriminate|].
    destruct (Z.ltb_spec p.2 0); [discriminate|]. cbn [orb] in Hg.
    destruct (g !! Z.to_nat p.1) as [row|] eqn:Hrow; [|discriminate]. cbn in Hg.
    split; [lia|]. split; [lia|]. now exists row, a.
Qed.

Lemma row_hits_sorted {A} (f : A -> bool) r c0 (row : list A) :
  StronglySorted row_major_lt (row_hits f r c0 row).
Proof.
  revert c0. induction row as [|a t IH]; intros c0; [constructor|].
  change (row_hits f r c0 (a :: t))
    with ((if f a then [(r, c0)] else []) ++ row_hits f r (c0 + 1) t).
  destruct (f a); [|apply IH]. cbn [app]. constructor; [apply IH|].
  apply Forall_forall. intros q Hq. apply list_elem_of_In, row_hits_In in Hq.
  right. cbn [fst snd]. lia.
Qed.

Lemma rows_hits_sorted {A} (f : A -> bool) r0 (g : grid A) :
  StronglySorted row_major_lt (rows_hits f r0 g).
Proof.
  revert r0. induction g as [|row t IH]; intros r0; [constructor|].
  change (rows_hits f r0 (row :: t)) with (row_hits f r0 0 row ++ rows_hits f (r0 + 1) t).
  apply StronglySorted_app. split; [|split; [apply row_hits_sorted | apply IH]].
  intros p q Hp Hq. apply list_elem_of_In, row_hits_In in Hp.
  apply list_elem_of_In, rows_hits_In in Hq. left. lia.
Qed.

Lemma argwhere_sorted {A} (f : A -> bool) (g : grid A) :
  StronglySorted row_major_lt (argwhere f g).
Proof. apply rows_hits_sorted. Qed.

Lemma sorted_NoDup (l : list coord) : StronglySorted row_major_lt l -> NoDup l.
Proof.
  induction 1 as [|p l Hs IH Hall]; constructor; [|exact IH].
  intros Hin. rewrite Forall_forall in Hall. apply (row_major_lt_irrefl p). now apply Hall.
Qed.

Lemma filter_sorted (P : coord -> bool) (l : list coord) :
  StronglySorted row_major_lt l -> StronglySorted row_major_lt (List.filter P l).
Proof.
  induction 1 as [|p l Hs IH Hall]; cbn [List.filter]; [constructor|].
  destruct (P p); [|exact IH]. constructor; [exact IH|].
  rewrite Forall_forall in *. intros q Hq. apply Hall.
  apply list_elem_of_In. apply list_elem_of_In in Hq. apply filter_In in Hq. tauto.
Qed.

(** ** The flood fill computes 8-connected components *)

Lemma adjacent8_refl p : adjacent8 p p = true.
Proof.
  unfold adjacent8. rewrite !Z.sub_diag. reflexivity.
Qed.

Lemma adjacent8_sym p q : adjacent8 p q = adjacent8 q p.
Proof.
  unfold adjacent8. f_equal.
  - replace (q.1 - p.1) with (- (p.1 - q.1)) by lia. now rewrite Z.abs_opp.
  - replace (q.2 - p.2) with (- (p.2 - q.2)) by lia. now rewrite Z.abs_opp.
Qed.

Lemma connected_In_l fg p q : connected fg p q -> In p fg.
Proof. induction 1; assumption. Qed.

Lemma connected_In_r fg p q : connected fg p q -> In q fg.
Proof. induction 1; assumption. Qed.

Lemma connected_trans fg p q r :
  connected fg p q -> connected fg q r -> connected fg p r.
Proof.
  intros Hpq Hqr. induction Hqr as [q Hq | q x r Hqx IH Hr Hadj]; [exact Hpq|].
  eapply connected_step; [apply IH; exact Hpq | exact Hr | exact Hadj].
Qed.

Lemma connected_sym fg p q : connected fg p q -> connected fg q p.
Proof.
  induction 1 as [p Hp | p q r Hpq IH Hr Hadj]; [now constructor|].
  apply connected_trans with q; [|exact IH].
  eapply connected_step; [now apply connected_refl | now apply connected_In_l in IH |].
  now rewrite adjacent8_sym.
Qed.

Lemma touches_spec X q :
  touches X q = true <-> exists x, In x X /\ adjacent8 q x = true.
Proof. unfold touches. apply existsb_exists. Qed.

Lemma grow_In fg X q :
  In q (grow fg X) <-> In q fg /\ exists x, In x X /\ adjacent8 q x = true.
Proof. unfold grow. now rewrite filter_In, touches_spec. Qed.

Lemma grow_keeps fg X q : In q X -> In q fg -> In q (grow fg X).
Proof.
  intros HS Hfg. apply grow_In. split; [exact Hfg|].
  exists q. split; [exact HS | apply adjacent8_refl].
Qed.

Lemma flood_succ n fg X : flood (S n) fg X = grow fg (flood n fg X).
Proof.
  revert X. induction n as [|n IH]; intros X; [reflexivity|].
  change (flood (S (S n)) fg X) with (flood (S n) fg (grow fg X)).
  rewrite IH. reflexivity.
Qed.

Lemma flood_keeps n fg X q : In q X -> In q fg -> In q (flood n fg X).
Proof.
  intros HS Hfg. induction n as [|n IH]; [exact HS|].
  rewrite flood_succ. now apply grow_keeps.
Qed.

Lemma flood_sound fg s n X :
  (forall q, In q X -> connected fg s q) ->
  forall q, In q (flood n fg X) -> connected fg s q.
Proof.
  intros HS. induction n as [|n IH]; [exact HS|].
  intros q Hq. rewrite flood_succ in Hq. apply grow_In in Hq.
  destruct Hq as [Hfg [x [Hx Hadj]]].
  eapply connected_step; [apply IH; exact Hx | exact Hfg |].
  now rewrite adjacent8_sym.
Qed.

Lemma filter_length_le {A} (P Q : A -> bool) (l : list A) :
  (forall x, In x l -> P x = true -> Q x = true) ->
  (List.length (List.filter P l) <= List.length (List.filter Q l))%nat.
Proof.
  induction l as [|a t IH]; intros H; [reflexivity|].
  assert (Ht : forall x, In x t -> P x = true -> Q x = true)
    by (intros x Hx; apply H; now right).
  specialize (IH Ht). cbn [List.filter].
  destruct (P a) eqn:HP.
  - rewrite (H a (or_introl eq_refl) HP). cbn [List.length]. lia.
  - destruct (Q a); cbn [List.length]; lia.
Qed.

Lemma filter_length_eq {A} (P Q : A -> bool) (l : list A) :
  (forall x, In x l -> P x = true -> Q x = true) ->
  List.length (List.filter P l) = List.length (List.filter Q l) ->
  forall x, In x l -> Q x = true -> P x = true.
Proof.
  induction l as [|a t IH]; intros H Hlen x Hx HQ; [contradiction|].
  assert (Ht : forall x, In x t -> P x = true -> Q x = true)
    by (intros y Hy; apply H; now right).
  pose proof (filter_length_le P Q t Ht) as Hle.
  cbn [List.filter] in Hlen.
  destruct (P a) eqn:HP.
  - rewrite (H a (or_introl eq_refl) HP) in Hlen. cbn [List.length] in Hlen.
    destruct Hx as [<-|Hx]; [exact HP|]. apply (IH Ht); [lia | exact Hx | exact HQ].
  - destruct (Q a) eqn:HQa; cbn [List.length] in Hlen; [lia|].
    destruct Hx as [<-|Hx]; [congruence|]. apply (IH Ht); [lia | exact Hx | exact HQ].
Qed.

Lemma filter_full {A} (P : A -> bool) (l : list A) :
  List.length (List.filter P l) = List.length l -> forall x, In x l -> P x = true.
Proof.
  intros Hlen x Hx.
  apply (filter_length_eq P (fun _ => true) l); try easy.
  rewrite Hlen. clear. induction l as [|a t IH]; [reflexivity|]. cbn. now rewrite <- IH.
Qed.

Lemma closed_grow fg X :
  (forall q, In q X -> In q fg) -> closed fg X -> closed fg (grow fg X).
Proof.
  intros Hsub Hc q Hq. apply grow_In in Hq. destruct Hq as [Hfg [x [Hx Hadj]]].
  apply grow_In. split; [exact Hfg|]. exists x. split; [|exact Hadj].
  now apply Hc.
Qed.

Lemma flood_progress fg s n :
  In s fg ->
  closed fg (flood (S n) fg [s]) \/ (S n <= List.length (flood (S n) fg [s]))%nat.
Proof.
  intros Hs. induction n as [|n IH].
  - right. assert (H : In s (flood 1 fg [s])).
    { apply flood_keeps; [now left | exact Hs]. }
    destruct (flood 1 fg [s]); [contradiction | cbn; lia].
  - set (S1 := flood (S n) fg [s]) in *.
    assert (Hsub : forall q, In q S1 -> In q fg).
    { intros q Hq. unfold S1 in Hq. rewrite flood_succ in Hq. now apply grow_In in Hq. }
    rewrite flood_succ. fold S1.
    destruct IH as [Hc | Hlen]; [left; now apply closed_grow|].
    assert (Hmono : forall x, In x fg ->
              touches (flood n fg [s]) x = true -> touches S1 x = true).
    { intros x Hx Ht. apply touches_spec. exists x. split; [|apply adjacent8_refl].
      unfold S1. rewrite flood_succ. unfold grow. apply filter_In. now split. }
    pose proof (filter_length_le _ _ fg Hmono) as Hle.
    destruct (Nat.eq_dec (List.length (grow fg S1)) (List.length S1)) as [E|NE].
    + left. apply closed_grow; [exact Hsub|].
      intros q Hq. unfold S1. rewrite flood_succ. unfold grow. apply filter_In.
      apply grow_In in Hq as Hq'. destruct Hq' as [Hfg _]. split; [exact Hfg|].
      apply (filter_length_eq _ _ fg Hmono); [|exact Hfg|].
      * unfold S1 in E at 2. rewrite flood_succ in E. unfold grow in E. now symmetry.
      * unfold grow in Hq. now apply filter_In in Hq.
    + right.
      assert (List.length S1 = List.length (List.filter (touches (flood n fg [s])) fg)).
      { unfold S1. now rewrite flood_succ. }
      unfold grow in *. lia.
Qed.

Lemma component_closed fg s : In s fg -> closed fg (component fg s).
Proof.
  intros Hs. unfold component.
  destruct (List.length fg) as [|n] eqn:Hn; [destruct fg; [contradiction|discriminate]|].
  destruct (flood_progress fg s n Hs) as [Hc|Hlen]; [exact Hc|].
  intros q Hq. apply grow_In in Hq. destruct Hq as [Hfg _].
  rewrite flood_succ in *. unfold grow in *.
  apply filter_In. split; [exact Hfg|].
  apply (filter_full _ fg); [|exact Hfg].
  pose proof (filter_length_le (touches (flood n fg [s])) (fun _ => true) fg) as Hle.
  assert (List.length (List.filter (fun _ : coord => true) fg) = List.length fg).
  { clear. induction fg as [|a t IH]; [reflexivity|]. cbn. now rewrite IH. }
  specialize (Hle ltac:(easy)). lia.
Qed.

Lemma component_spec fg s q :
  In s fg -> In q (component fg s) <-> connected fg s q.
Proof.
  intros Hs. split.
  - apply flood_sound. intros x [<-|[]]. now constructor.
  - induction 1 as [p Hp | p q r Hpq IH Hr Hadj].
    + apply flood_keeps; [now left | exact Hp].
    + apply component_closed; [exact Hs|]. apply grow_In. split; [exact Hr|].
      exists q. split; [now apply IH | now rewrite adjacent8_sym].
Qed.

(** ** Labels *)

Lemma filter_length_drop {A} (P : A -> bool) (a : A) (t : list A) :
  P a = false -> (List.length (List.filter P (a :: t)) <= List.length t)%nat.
Proof.
  intros H. cbn [List.filter]. rewrite H.
  pose proof (filter_length_le P (fun _ => true) t) as Hle.
  assert (E : List.filter (fun _ : A => true) t = t).
  { clear. induction t as [|x t IH]; [reflexivity|]. cbn. now rewrite IH. }
  rewrite E in Hle. apply Hle. reflexivity.
Qed.

Section ScanLabels.

Variable fg : list coord.

Lemma whole_remove s rest :
  whole fg (s :: rest) ->
  whole fg (List.filter (fun q => negb (mem q (component fg s))) (s :: rest)).
Proof.
  intros (Hsort & Hsub & Hcl).
  assert (Hs : In s fg) by (apply Hsub; now left).
  split; [now apply filter_sorted|]. split.
  - intros p Hp. apply filter_In in Hp. apply Hsub. tauto.
  - intros p q Hp Hpq. apply filter_In in Hp. destruct Hp as [Hp Hn].
    apply filter_In. split; [eapply Hcl; eassumption|].
    apply negb_true_iff, not_true_iff_false. intros Hq.
    apply negb_true_iff, not_true_iff_false in Hn. apply Hn.
    apply mem_In, component_spec in Hq; [|exact Hs].
    apply mem_In, component_spec; [exact Hs|].
    apply connected_trans with q; [exact Hq | now apply connected_sym].
Qed.

Lemma scan_labels n : forall rest k0,
  whole fg rest -> (List.length rest <= n)%nat ->
  forall q, In q rest ->
    k0 <= label_of k0 (scan n fg rest) q /\
    (forall p, In p rest ->
       label_of k0 (scan n fg rest) p = label_of k0 (scan n fg rest) q <->
       connected fg p q) /\
    (forall a, k0 <= a < label_of k0 (scan n fg rest) q ->
       exists p, In p rest /\ label_of k0 (scan n fg rest) p = a /\ row_major_lt p q).
Proof.
  induction n as [|n IH]; intros rest k0 Hw Hlen q Hq.
  { destruct rest; [contradiction | cbn in Hlen; lia]. }
  destruct rest as [|s rest']; [contradiction|].
  pose proof (whole_remove s rest' Hw) as Hw2.
  destruct Hw as (Hsort & Hsub & Hcl).
  assert (Hs : In s fg) by (apply Hsub; now left).
  set (C := component fg s) in *.
  set (rest2 := List.filter (fun q => negb (mem q C)) (s :: rest')) in *.
  assert (HsC : mem s C = true).
  { apply mem_In, component_spec; [exact Hs | now constructor]. }
  assert (Hlen2 : (List.length rest2 <= n)%nat).
  { pose proof (filter_length_drop (fun q => negb (mem q C)) s rest') as H.
    cbn beta in H. rewrite HsC in H. specialize (H eq_refl).
    cbn in Hlen. unfold rest2. lia. }
  change (scan (S n) fg (s :: rest')) with (C :: scan n fg rest2).
  assert (Hin2 : forall x, In x (s :: rest') -> mem x C = false -> In x rest2).
  { intros x Hx Hm. apply filter_In. split; [exact Hx | now rewrite Hm]. }
  assert (Hout : forall x, In x rest2 -> mem x C = false).
  { intros x Hx. apply filter_In in Hx. now apply negb_true_iff. }
  assert (HC : forall x, mem x C = true <-> connected fg s x).
  { intros x. unfold C. rewrite mem_In. now apply component_spec. }
  assert (Hsep : forall x y, mem x C = true -> mem y C = false -> ~ connected fg x y).
  { intros x y Hx Hy Hxy. apply not_true_iff_false in Hy. apply Hy, HC.
    apply connected_trans with x; [now apply HC | exact Hxy]. }
  cbn [label_of].
  destruct (mem q C) eqn:HqC.
  - split; [lia|]. split.
    + intros p Hp. destruct (mem p C) eqn:HpC.
      * split; [intros _ | reflexivity].
        apply connected_trans with s; [apply connected_sym|]; now apply HC.
      * destruct (IH rest2 (k0 + 1) Hw2 Hlen2 p (Hin2 p Hp HpC)) as (Ha & _).
        split; [lia|]. intros Hpq. exfalso.
        apply (Hsep q p HqC HpC). now apply connected_sym.
    + intros a Ha. lia.
  - pose proof (Hin2 q Hq HqC) as Hq2.
    destruct (IH rest2 (k0 + 1) Hw2 Hlen2 q Hq2) as (Ha & Hb & Hc).
    split; [lia|]. split.
    + intros p Hp. destruct (mem p C) eqn:HpC.
      * split; [lia|]. intros Hpq. exfalso. now apply (Hsep p q HpC HqC).
      * apply Hb. now apply Hin2.
    + intros a Hrange. destruct (Z.eq_dec a k0) as [->|Hne].
      * exists s. split; [now left|]. rewrite HsC. split; [reflexivity|].
        destruct Hq as [<-|Hq]; [congruence|].
        apply StronglySorted_inv in Hsort. destruct Hsort as [_ Hall].
        rewrite Forall_forall in Hall. apply Hall. now apply list_elem_of_In.
      * destruct (Hc a ltac:(lia)) as (p & Hp & Hlab & Hlt).
        exists p. split; [|split; [|exact Hlt]].
        -- apply filter_In in Hp. tauto.
        -- now rewrite (Hout p Hp).
Qed.

Hypothesis fg_sorted : StronglySorted row_major_lt fg.

Lemma whole_fg : whole fg fg.
Proof.
  split; [exact fg_sorted|]. split; [tauto|].
  intros p q _ H. now apply connected_In_r in H.
Qed.

Lemma lab_pos q : In q fg -> 1 <= lab fg q.
Proof.
  intros Hq. now destruct (scan_labels (List.length fg) fg 1 whole_fg (le_n _) q Hq).
Qed.

Lemma lab_connected p q : In p fg -> In q fg -> lab fg p = lab fg q <-> connected fg p q.
Proof.
  intros Hp Hq.
  destruct (scan_labels (List.length fg) fg 1 whole_fg (le_n _) q Hq) as (_ & H & _).
  now apply H.
Qed.

Lemma lab_order q a :
  In q fg -> 1 <= a < lab fg q -> exists p, In p fg /\ lab fg p = a /\ row_major_lt p q.
Proof.
  intros Hq Ha.
  destruct (scan_labels (List.length fg) fg 1 whole_fg (le_n _) q Hq) as (_ & _ & H).
  now apply H.
Qed.

End ScanLabels.

(** ** Label image and regions *)

Lemma map_enum_lookup {A B} (h : Z -> A -> B) (k : Z) (l : list A) (n : nat) :
  List.map (fun '(i, a) => h i a) (enum_from k l) !! n =
  option_map (h (k + Z.of_nat n)) (l !! n).
Proof.
  revert k n. induction l as [|a t IH]; intros k n; [now destruct n|].
  destruct n as [|n]; cbn [enum_from List.map].
  - cbn. now rewrite Z.add_0_r.
  - change (List.map (fun '(i, a) => h i a) (enum_from (k + 1) t) !! n =
            option_map (h (k + Z.of_nat (S n))) (t !! n)).
    rewrite IH. now replace (k + 1 + Z.of_nat n) with (k + Z.of_nat (S n)) by lia.
Qed.

Lemma fg_of_In skeleton p : In p (fg_of skeleton) <-> get2 skeleton p = Some true.
Proof.
  unfold fg_of. rewrite argwhere_In. split.
  - intros [a [H Ha]]. unfold id in Ha. now subst.
  - intros H. now exists true.
Qed.

Lemma measure_label_get2 skeleton p :
  get2 (measure_label skeleton) p =
  option_map (fun b : bool => if b then lab (fg_of skeleton) p else 0) (get2 skeleton p).
Proof.
  unfold get2, measure_label, enumerate.
  destruct (Z.ltb_spec p.1 0); [reflexivity|].
  destruct (Z.ltb_spec p.2 0); [reflexivity|]. cbn [orb].
  rewrite (map_enum_lookup
             (fun r row => List.map (fun '(c, b) =>
                if b : bool then label_of 1 (components (argwhere id skeleton)) (r, c) else 0)
                (enum_from 0 row))).
  destruct (skeleton !! Z.to_nat p.1) as [row|]; [|reflexivity].
  cbn [option_map mbind option_bind].
  rewrite (map_enum_lookup (fun c (b : bool) =>
             if b then label_of 1 (components (argwhere id skeleton))
                                (0 + Z.of_nat (Z.to_nat p.1), c) else 0)).
  destruct (row !! Z.to_nat p.2) as [b|]; [|reflexivity].
  cbn [option_map]. destruct b; [|reflexivity].
  unfold lab, fg_of. do 2 f_equal. destruct p as [r c]. cbn [fst snd] in *. f_equal; lia.
Qed.

(** Positions carrying a positive label [k] are the foreground positions
    whose component has number [k]. *)
Lemma label_positions skeleton k p :
  1 <= k ->
  In p (argwhere (Z.eqb k) (measure_label skeleton)) <->
  In p (fg_of skeleton) /\ lab (fg_of skeleton) p = k.
Proof.
  intros Hk. rewrite argwhere_In, fg_of_In, measure_label_get2. split.
  - intros [a [Ha Hka]]. apply Z.eqb_eq in Hka. subst a.
    destruct (get2 skeleton p) as [[|]|]; cbn in Ha; try discriminate.
    + injection Ha as Ha. now split.
    + injection Ha as Ha. lia.
  - intros [Hp Hl]. rewrite Hp. cbn. exists k. split; [now rewrite Hl | apply Z.eqb_refl].
Qed.

Lemma regionprops_In labeled r :
  In r (regionprops labeled) ->
  1 <= label r /\ coords r = argwhere (Z.eqb (label r)) labeled /\ coords r <> [].
Proof.
  unfold regionprops. rewrite filter_In, in_map_iff.
  intros [[k [<- Hk]] Hne]. cbn [label coords] in *.
  apply in_map_iff in Hk. destruct Hk as [m [<- Hm]]. apply in_seq in Hm.
  split; [lia|]. split; [reflexivity|].
  intros E. rewrite E in Hne. discriminate.
Qed.

Lemma regionprops_sorted labeled :
  StronglySorted Z.lt (List.map label (regionprops labeled)).
Proof.
  unfold regionprops. generalize (Z.to_nat (grid_max labeled)). intros m.
  generalize 1%nat. induction m as [|m IH]; intros s; [constructor|].
  cbn [seq List.map List.filter].
  assert (Hall : Forall (Z.lt (Z.of_nat s))
            (List.map label
               (List.filter (fun r => negb (Nat.eqb (List.length (coords r)) 0))
                  (List.map (fun k => Region k (argwhere (Z.eqb k) labeled))
                     (List.map Z.of_nat (seq (S s) m)))))).
  { apply Forall_forall. intros k Hk. apply list_elem_of_In, in_map_iff in Hk.
    destruct Hk as [r [<- Hr]]. apply filter_In in Hr. destruct Hr as [Hr _].
    apply in_map_iff in Hr. destruct Hr as [k [<- Hk]]. cbn [label].
    apply in_map_iff in Hk. destruct Hk as [i [<- Hi]]. apply in_seq in Hi. lia. }
  destruct (negb _); [|apply IH].
  cbn [List.map label]. constructor; [apply IH | exact Hall].
Qed.

Lemma sorted_lookup_lt (l : list Z) i j a b :
  StronglySorted Z.lt l -> l !! i = Some a -> l !! j = Some b -> (i < j)%nat -> a < b.
Proof.
  intros Hs. revert i j. induction Hs as [|x l Hs IH Hall]; intros i j Hi Hj Hij.
  - discriminate.
  - destruct j as [|j]; [lia|]. destruct i as [|i].
    + injection Hi as <-. rewrite Forall_forall in Hall. apply Hall.
      apply list_elem_of_lookup. now exists j.
    + apply (IH i j); [exact Hi | exact Hj | lia].
Qed.

Lemma regionprops_lookup_lt labeled i j ri rj :
  regionprops labeled !! i = Some ri -> regionprops labeled !! j = Some rj ->
  (i < j)%nat -> label ri < label rj.
Proof.
  intros Hi Hj.
  apply (sorted_lookup_lt (List.map label (regionprops labeled)) i j);
    [apply regionprops_sorted| |].
  - rewrite map_lookup, Hi. reflexivity.
  - rewrite map_lookup, Hj. reflexivity.
Qed.

Lemma sorted_head_le (l : list coord) h t p :
  StronglySorted row_major_lt l -> l = h :: t -> In p l -> p = h \/ row_major_lt h p.
Proof.
  intros Hs -> [<-|Hp]; [now left|]. right.
  apply StronglySorted_inv in Hs. destruct Hs as [_ Hall].
  rewrite Forall_forall in Hall. apply Hall. now apply list_elem_of_In.
Qed.

Lemma fold_max_ge (l : list Z) i x : l !! i = Some x -> x <= fold_right Z.max 0 l.
Proof.
  revert i. induction l as [|a t IH]; intros i H; [discriminate|].
  destruct i as [|i]; cbn [fold_right].
  - injection H as ->. lia.
  - specialize (IH i H). lia.
Qed.

Lemma grid_max_ge (g : grid Z) p k : get2 g p = Some k -> k <= grid_max g.
Proof.
  unfold get2, grid_max. destruct (_ || _); [discriminate|].
  destruct (g !! Z.to_nat p.1) as [row|] eqn:Hrow; [|discriminate].
  cbn [mbind option_bind]. intros Hk. apply fold_max_ge in Hk.
  assert (H : List.map (fold_right Z.max 0) g !! Z.to_nat p.1 = Some (fold_right Z.max 0 row)).
  { rewrite map_lookup, Hrow. reflexivity. }
  apply fold_max_ge in H. lia.
Qed.

Lemma regionprops_intro labeled k p :
  1 <= k -> get2 labeled p = Some k ->
  In (Region k (argwhere (Z.eqb k) labeled)) (regionprops labeled).
Proof.
  intros Hk Hp. pose proof (grid_max_ge labeled p k Hp) as Hmax.
  unfold regionprops. apply filter_In. split.
  - apply in_map_iff. exists k. split; [reflexivity|].
    apply in_map_iff. exists (Z.to_nat k). split; [lia|]. apply in_seq. lia.
  - cbn [coords].
    assert (Hin : In p (argwhere (Z.eqb k) labeled)).
    { apply argwhere_In. exists k. split; [exact Hp | apply Z.eqb_refl]. }
    destruct (argwhere (Z.eqb k) labeled); [contradiction | reflexivity].
Qed.

Section Regions.

Variable skeleton : grid bool.

Let fg := fg_of skeleton.
Let regions := regionprops (measure_label skeleton).

Lemma fg_sorted : StronglySorted row_major_lt fg.
Proof. apply argwhere_sorted. Qed.

(** The coordinates of a region are the foreground positions whose
    component carries the region's label. *)
Lemma region_coords_In r p :
  In r regions -> In p (coords r) <-> In p fg /\ lab fg p = label r.
Proof.
  intros Hr. apply regionprops_In in Hr. destruct Hr as (Hk & Hc & _).
  rewrite Hc. now apply label_positions.
Qed.

Lemma region_of_pixel p :
  In p fg -> exists r, In r regions /\ label r = lab fg p /\ In p (coords r).
Proof.
  intros Hp. pose proof (lab_pos fg fg_sorted p Hp) as Hpos.
  exists (Region (lab fg p) (argwhere (Z.eqb (lab fg p)) (measure_label skeleton))).
  split; [|split; [reflexivity|]].
  - apply (regionprops_intro _ _ p); [exact Hpos|].
    rewrite measure_label_get2. apply fg_of_In in Hp. now rewrite Hp.
  - cbn [coords]. apply label_positions; [exact Hpos | now split].
Qed.

Lemma region_coords_sorted r : In r regions -> StronglySorted row_major_lt (coords r).
Proof.
  intros Hr. apply regionprops_In in Hr. destruct Hr as (_ & -> & _).
  apply argwhere_sorted.
Qed.

Lemma regions_same_label i j ri rj :
  regions !! i = Some ri -> regions !! j = Some rj -> label ri = label rj -> i = j.
Proof.
  intros Hi Hj E.
  destruct (Nat.lt_trichotomy i j) as [H|[H|H]]; [|exact H|].
  - pose proof (regionprops_lookup_lt _ i j ri rj Hi Hj H). lia.
  - pose proof (regionprops_lookup_lt _ j i rj ri Hj Hi H). lia.
Qed.

Lemma In_lookup {A} (l : list A) x : In x l <-> exists i, l !! i = Some x.
Proof. rewrite <- list_elem_of_In. apply list_elem_of_lookup. Qed.

(** Region numbers follow the row-major order of the regions' first
    positions. *)
Lemma first_pixels_ascending i j ri rj :
  regions !! i = Some ri -> regions !! j = Some rj -> (i < j)%nat ->
  exists pi pj, head (coords ri) = Some pi /\ head (coords rj) = Some pj /\
                row_major_lt pi pj.
Proof.
  intros Hi Hj Hij.
  pose proof (regionprops_lookup_lt _ i j ri rj Hi Hj Hij) as Hlt.
  assert (Hri : In ri regions) by (apply In_lookup; eauto).
  assert (Hrj : In rj regions) by (apply In_lookup; eauto).
  pose proof (regionprops_In _ _ Hri) as (Hki & _ & Hnei).
  pose proof (regionprops_In _ _ Hrj) as (_ & _ & Hnej).
  destruct (coords ri) as [|pi ti] eqn:Eci; [congruence|].
  destruct (coords rj) as [|pj tj] eqn:Ecj; [congruence|].
  exists pi, pj. split; [reflexivity|]. split; [reflexivity|].
  assert (Hpj : In pj (coords rj)) by (rewrite Ecj; now left).
  apply (region_coords_In rj pj Hrj) in Hpj. destruct Hpj as [Hpjfg Hlabj].
  destruct (lab_order fg fg_sorted pj (label ri) Hpjfg ltac:(lia)) as (p & Hp & Hlab & Hplt).
  assert (Hpin : In p (coords ri)) by (apply (region_coords_In ri p Hri); now split).
  destruct (sorted_head_le (coords ri) pi ti p (region_coords_sorted ri Hri) Eci Hpin)
    as [->|H]; [exact Hplt|].
  eapply row_major_lt_trans; eassumption.
Qed.

End Regions.

(** C5. Labeling partition: every foreground position of the skeleton lies
    in the coordinate list of exactly one region, and once; regions at
    different places in the list share no position; the positions of all
    regions together are exactly the foreground; a skeleton without
    foreground has no region. *)
Theorem labeling_partition (skeleton : grid bool) :
  let regions := regionprops (measure_label skeleton) in
  (forall p, get2 skeleton p = Some true ->
     exists i r, regions !! i = Some r /\ In p (coords r) /\
       forall j r', regions !! j = Some r' -> In p (coords r') -> j = i) /\
  (forall r, In r regions -> NoDup (coords r)) /\
  (forall i j ri rj p,
     regions !! i = Some ri -> regions !! j = Some rj ->
     In p (coords ri) -> In p (coords rj) -> i = j) /\
  (forall p, (exists r, In r regions /\ In p (coords r)) <-> get2 skeleton p = Some true) /\
  ((forall p, get2 skeleton p <> Some true) -> regions = []).
Proof.
  cbv zeta.
  assert (Hdisj : forall i j ri rj p,
            regionprops (measure_label skeleton) !! i = Some ri ->
            regionprops (measure_label skeleton) !! j = Some rj ->
            In p (coords ri) -> In p (coords rj) -> i = j).
  { intros i j ri rj p Hi Hj Hpi Hpj.
    apply (regions_same_label skeleton i j ri rj Hi Hj).
    apply (region_coords_In skeleton ri p) in Hpi; [|apply In_lookup; eauto].
    apply (region_coords_In skeleton rj p) in Hpj; [|apply In_lookup; eauto].
    destruct Hpi as [_ <-], Hpj as [_ <-]. reflexivity. }
  split; [|split; [|split; [exact Hdisj|split]]].
  - intros p Hp. apply fg_of_In in Hp.
    destruct (region_of_pixel skeleton p Hp) as (r & Hr & _ & Hin).
    apply In_lookup in Hr. destruct Hr as [i Hi]. exists i, r.
    split; [exact Hi|]. split; [exact Hin|].
    intros j r' Hj Hin'. exact (Hdisj j i r' r p Hj Hi Hin' Hin).
  - intros r Hr. apply sorted_NoDup. now apply (region_coords_sorted skeleton).
  - intros p. rewrite <- fg_of_In. split.
    + intros (r & Hr & Hin). now apply (region_coords_In skeleton r p Hr) in Hin.
    + intros Hp. destruct (region_of_pixel skeleton p Hp) as (r & Hr & _ & Hin). eauto.
  - intros Hnone.
    destruct (regionprops (measure_label skeleton)) as [|r rs] eqn:E; [reflexivity|].
    exfalso. assert (Hr : In r (regionprops (measure_label skeleton))) by (rewrite E; now left).
    pose proof (regionprops_In _ _ Hr) as (_ & _ & Hne).
    destruct (coords r) as [|p t] eqn:Ec; [congruence|].
    assert (Hp : In p (coords r)) by (rewrite Ec; now left).
    apply (region_coords_In skeleton r p Hr) in Hp. destruct Hp as [Hp _].
    apply fg_of_In in Hp. exact (Hnone p Hp).
Qed.

Lemma labeling_partition_witness :
  exists i r, regionprops (measure_label two_dots) !! i = Some r /\ In (1, 3) (coords r) /\
    forall j r', regionprops (measure_label two_dots) !! j = Some r' ->
                 In (1, 3) (coords r') -> j = i.
Proof.
  destruct (labeling_partition two_dots) as (H & _). apply (H (1, 3)). reflexivity.
Defined.

Example bfs_order_U :
  bfs_order clockwise_from_north (fg_of U_shape) (0, 0) =
  [(0,0); (1,0); (2,1); (2,0); (1,2); (2,2); (0,2)].
Proof. vm_compute. reflexivity. Qed.

Lemma visit_shift fg nbrs p seen q :
  In q (visit fg nbrs p seen) -> exists d, In d nbrs /\ q = shift p d.
Proof.
  revert seen. induction nbrs as [|d ds IH]; intros seen; [contradiction|].
  cbn [visit]. destruct (_ && _).
  - intros [<-|H]; [exists d; split; [now left | reflexivity]|].
    destruct (IH _ H) as [d' [Hd' E]]. exists d'. split; [now right | exact E].
  - intros H. destruct (IH _ H) as [d' [Hd' E]]. exists d'. split; [now right | exact E].
Qed.

Lemma bfs_prefix fuel fg nbrs queue seen :
  exists more, bfs fuel fg nbrs queue seen = seen ++ more.
Proof.
  revert queue seen. induction fuel as [|n IH]; intros queue seen.
  - exists []. now rewrite app_nil_r.
  - destruct queue as [|p rest]; [exists []; now rewrite app_nil_r|].
    cbn [bfs]. destruct (IH (rest ++ visit fg nbrs p seen) (seen ++ visit fg nbrs p seen))
      as [more E].
    rewrite E. exists (visit fg nbrs p seen ++ more). now rewrite app_assoc.
Qed.

(** In a breadth-first order the second position touches the seed. *)
Lemma bfs_second nbrs fg seed q rest :
  neighbour_offsets nbrs = true ->
  bfs_order nbrs fg seed = seed :: q :: rest ->
  adjacent8 seed q = true.
Proof.
  intros Hn. unfold bfs_order. destruct (List.length fg) as [|n]; [discriminate|].
  cbn [bfs app]. destruct (visit fg nbrs seed [seed]) as [|x new] eqn:Ev.
  - destruct n; discriminate.
  - destruct (bfs_prefix n fg nbrs (x :: new) (seed :: x :: new)) as [more E].
    cbn [app] in *. rewrite E. intros H. injection H as H _. subst x.
    assert (Hq : In q (visit fg nbrs seed [seed])) by (rewrite Ev; now left).
    apply visit_shift in Hq. destruct Hq as [d [Hd ->]].
    unfold neighbour_offsets in Hn. rewrite forallb_forall in Hn.
    specialize (Hn d Hd). apply andb_true_iff in Hn. destruct Hn as [H1 H2].
    unfold adjacent8, shift. cbn [fst snd].
    replace (seed.1 - (seed.1 + d.1)) with (- d.1) by lia.
    replace (seed.2 - (seed.2 + d.2)) with (- d.2) by lia.
    rewrite !Z.abs_opp. now rewrite H1, H2.
Qed.

(** The coordinate list of the V-shaped curve is not a breadth-first visiting
    order, whatever the order of the neighbours: its second position does
    not touch the first. *)
Lemma coords_not_bfs_order :
  List.map coords (regionprops (measure_label V_shape)) = [[(0,0); (0,2); (1,1)]] /\
  bfs_order clockwise_from_north (fg_of V_shape) (0, 0) = [(0,0); (1,1); (0,2)] /\
  forall nbrs, neighbour_offsets nbrs = true ->
    bfs_order nbrs (fg_of V_shape) (0, 0) <> [(0,0); (0,2); (1,1)].
Proof.
  split; [vm_compute; reflexivity|]. split; [vm_compute; reflexivity|].
  intros nbrs Hn E. apply (bfs_second nbrs _ _ _ _ Hn) in E. discriminate.
Qed.

(** C4 (as the code has it). The coordinate list of a region holds exactly
    the positions linked to its first position by a chain of touching
    foreground positions, listed row by row (ascending row, then ascending
    column); the first position is therefore the region's row-major-first
    pixel. *)
Theorem region_coords_row_major (skeleton : grid bool) (r : region) :
  In r (regionprops (measure_label skeleton)) ->
  StronglySorted row_major_lt (coords r) /\
  exists seed rest,
    coords r = seed :: rest /\
    forall p, In p (coords r) <-> connected (fg_of skeleton) seed p.
Proof.
  intros Hr. split; [now apply (region_coords_sorted skeleton)|].
  pose proof (regionprops_In _ _ Hr) as (_ & _ & Hne).
  destruct (coords r) as [|seed rest] eqn:Ec; [congruence|].
  exists seed, rest. split; [reflexivity|]. intros p. rewrite <- Ec.
  assert (Hseed : In seed (coords r)) by (rewrite Ec; now left).
  apply (region_coords_In skeleton r seed Hr) in Hseed. destruct Hseed as [Hsfg Hslab].
  rewrite (region_coords_In skeleton r p Hr). split.
  - intros [Hp Hlab]. apply (lab_connected _ (fg_sorted skeleton)); [assumption..|congruence].
  - intros Hc. pose proof (connected_In_r _ _ _ Hc) as Hp. split; [exact Hp|].
    rewrite <- Hslab. symmetry.
    now apply (lab_connected _ (fg_sorted skeleton)).
Qed.

Lemma region_coords_row_major_witness :
  StronglySorted row_major_lt [(0, 1); (1, 0)] /\
  exists seed rest,
    [(0, 1); (1, 0)] = seed :: rest /\
    forall p, In p [(0, 1); (1, 0)] <-> connected (fg_of two_dots) seed p.
Proof.
  apply (region_coords_row_major two_dots (Region 1 [(0, 1); (1, 0)])).
  vm_compute. now left.
Defined.

(** ** Order of the output *)

Lemma sorted_flat_map_enum {A B} (R : B -> B -> Prop) (f : Z * A -> list B)
    (l : list A) (k : Z) :
  (forall ia, In ia (enum_from k l) -> StronglySorted R (f ia)) ->
  (forall ia jb x y, In ia (enum_from k l) -> In jb (enum_from k l) ->
     ia.1 < jb.1 -> In x (f ia) -> In y (f jb) -> R x y) ->
  StronglySorted R (flat_map f (enum_from k l)).
Proof.
  revert k. induction l as [|a t IH]; intros k Hs Hlt; [constructor|].
  cbn [enum_from flat_map]. apply StronglySorted_app. split; [|split].
  - intros x y Hx Hy. apply list_elem_of_In in Hx. apply list_elem_of_In, in_flat_map in Hy.
    destruct Hy as [[j b] [Hjb Hy]].
    apply (Hlt (k, a) (j, b)); [now left | now right | | exact Hx | exact Hy].
    apply enum_from_In in Hjb. cbn [fst]. lia.
  - apply Hs. now left.
  - apply IH.
    + intros ia Hia. apply Hs. now right.
    + intros ia jb x y Hia Hjb. apply Hlt; now right.
Qed.

Lemma map_as_flat_map {A B} (g : A -> B) (l : list A) :
  List.map g l = flat_map (fun a => [g a]) l.
Proof. induction l as [|a t IH]; [reflexivity|]. cbn. now rewrite IH. Qed.

Section Order.

Variable glob : string -> list string.
Variable imread : string -> option image.
Variable rgb2gray : array3 -> option (grid spec_float).
Variable skeletonize : grid bool -> grid bool.

Lemma region_records_key idx j alt suffix cr x :
  In x (region_records idx j alt suffix cr) ->
  exists k, x.1 = (idx, j, cr.1, k) /\ componentIndex x.2 = cr.1.
Proof.
  unfold region_records. rewrite in_map_iff. intros [[k [y c]] [<- _]].
  exists k. split; reflexivity.
Qed.

Lemma region_records_sorted idx j alt suffix cr :
  StronglySorted by_key (region_records idx j alt suffix cr).
Proof.
  unfold region_records, enumerate. rewrite map_as_flat_map.
  apply sorted_flat_map_enum.
  - intros [k [y x]] _. repeat constructor.
  - intros [k1 [y1 x1]] [k2 [y2 x2]] x y _ _ Hlt [<-|[]] [<-|[]].
    unfold by_key, key_lt. cbn [fst snd] in *. lia.
Qed.

Lemma image_records_key alt_names idx j suffix path x :
  In x (image_records imread rgb2gray skeletonize alt_names idx j suffix path) ->
  exists c k, x.1 = (idx, j, c, k) /\ componentIndex x.2 = c /\ 1 <= c.
Proof.
  unfold image_records. destruct (alt_names !! Z.to_nat idx) as [alt|]; [|contradiction].
  rewrite in_flat_map. intros [[c r] [Hcr Hx]].
  apply region_records_key in Hx. destruct Hx as [k [Hk Hc]].
  apply enum_from_In in Hcr. exists c, k. cbn [fst] in *. repeat split; [assumption..|lia].
Qed.

Lemma image_records_sorted alt_names idx j suffix path :
  StronglySorted by_key (image_records imread rgb2gray skeletonize alt_names idx j suffix path).
Proof.
  unfold image_records. destruct (alt_names !! Z.to_nat idx) as [alt|]; [|constructor].
  apply sorted_flat_map_enum.
  - intros cr _. apply region_records_sorted.
  - intros cr1 cr2 x y _ _ Hlt Hx Hy.
    apply region_records_key in Hx. destruct Hx as [k1 [Hx _]].
    apply region_records_key in Hy. destruct Hy as [k2 [Hy _]].
    unfold by_key, key_lt. rewrite Hx, Hy. lia.
Qed.

Lemma pair_records_key alt_names matching idx js x :
  In x (pair_records imread rgb2gray skeletonize alt_names matching idx js) ->
  exists c k, x.1 = (idx, js.1, c, k) /\ componentIndex x.2 = c /\ 1 <= c.
Proof.
  unfold pair_records. destruct (files_with_suffix matching js.2); [contradiction|].
  apply image_records_key.
Qed.

Lemma pair_records_sorted alt_names matching idx js :
  StronglySorted by_key (pair_records imread rgb2gray skeletonize alt_names matching idx js).
Proof.
  unfold pair_records. destruct (files_with_suffix matching js.2); [constructor|].
  apply image_records_sorted.
Qed.

Lemma run_records_key image_names directory suffixes alt_names x :
  In x (run_records glob imread rgb2gray skeletonize image_names directory suffixes alt_names) ->
  exists i j c k, x.1 = (i, j, c, k) /\ componentIndex x.2 = c /\ 1 <= c.
Proof.
  unfold run_records. cbv zeta. rewrite in_flat_map. intros [[idx name] [_ Hx]].
  apply in_flat_map in Hx. destruct Hx as [js [_ Hx]].
  apply pair_records_key in Hx. destruct Hx as (c & k & H). now exists idx, js.1, c, k.
Qed.

Lemma run_records_sorted image_names directory suffixes alt_names :
  StronglySorted by_key
    (run_records glob imread rgb2gray skeletonize image_names directory suffixes alt_names).
Proof.
  unfold run_records, enumerate. cbv zeta. apply sorted_flat_map_enum.
  - intros [idx name] _. apply sorted_flat_map_enum.
    + intros js _. apply pair_records_sorted.
    + intros js1 js2 x y _ _ Hlt Hx Hy.
      apply pair_records_key in Hx. destruct Hx as (c1 & k1 & Hx & _).
      apply pair_records_key in Hy. destruct Hy as (c2 & k2 & Hy & _).
      unfold by_key, key_lt. rewrite Hx, Hy. lia.
  - intros [i1 n1] [i2 n2] x y _ _ Hlt Hx Hy. cbn [fst] in Hlt.
    apply in_flat_map in Hx. destruct Hx as [js1 [_ Hx]].
    apply in_flat_map in Hy. destruct Hy as [js2 [_ Hy]].
    apply pair_records_key in Hx. destruct Hx as (c1 & k1 & Hx & _).
    apply pair_records_key in Hy. destruct Hy as (c2 & k2 & Hy & _).
    unfold by_key, key_lt. rewrite Hx, Hy. lia.
Qed.

Lemma regions_of_numbered path c1 c2 r1 r2 :
  In (c1, r1) (enum_from 1 (regions_of imread rgb2gray skeletonize path)) ->
  In (c2, r2) (enum_from 1 (regions_of imread rgb2gray skeletonize path)) ->
  c1 < c2 ->
  1 <= c1 /\
  exists p1 p2, head (coords r1) = Some p1 /\ head (coords r2) = Some p2 /\
                row_major_lt p1 p2.
Proof.
  intros H1 H2 Hlt. apply enum_from_In in H1, H2.
  destruct H1 as [Hc1 H1], H2 as [Hc2 H2]. split; [exact Hc1|].
  unfold regions_of in *.
  destruct (imread path) as [img|]; [|discriminate].
  destruct (gray_of rgb2gray img) as [a|]; [|discriminate].
  eapply first_pixels_ascending; [exact H1 | exact H2 | lia].
Qed.

End Order.

(** C6. Output order: the run appends to one file; what it writes is, in
    order, the records of the loop nest image name, suffix, region,
    subsampled coordinate (a prefix of them when the run raises, all of them
    otherwise); the positions in that nest increase lexicographically along
    the output; region numbers start at 1 and regions are numbered in the
    row-major order of their first positions. *)
Theorem output_order bufsize glob imread rgb2gray skeletonize
    image_names directory suffixes alt_names out w :
  let res := extract_points bufsize glob imread rgb2gray skeletonize
               image_names directory suffixes alt_names out w in
  let recs := run_records glob imread rgb2gray skeletonize
                image_names directory suffixes alt_names in
  (exists evs,
     log res.2 = log w ++ [EvOpen out; EvGlob (Path.join directory "*.tif")]
                       ++ evs ++ [EvClose out] /\
     fs res.2 !! out = Some (joined (writes evs)) /\
     writes evs `prefix_of` lines recs /\
     (res.1 = Ok tt -> writes evs = lines recs)) /\
  StronglySorted key_lt (List.map fst recs) /\
  (forall x, In x recs -> 1 <= componentIndex x.2 /\
     exists i j k, x.1 = (i, j, componentIndex x.2, k)) /\
  (forall path c1 c2 r1 r2,
     In (c1, r1) (enum_from 1 (regions_of imread rgb2gray skeletonize path)) ->
     In (c2, r2) (enum_from 1 (regions_of imread rgb2gray skeletonize path)) ->
     c1 < c2 ->
     1 <= c1 /\
     exists p1 p2, head (coords r1) = Some p1 /\ head (coords r2) = Some p2 /\
                   row_major_lt p1 p2).
Proof.
  cbv zeta. split; [|split; [|split]].
  - destruct (extract_points_run bufsize glob imread rgb2gray skeletonize out
                image_names directory suffixes alt_names w)
      as (evs & Hlog & _ & Hfs & _ & Hpre & Hall).
    exists evs. repeat split; assumption.
  - pose proof (run_records_sorted glob imread rgb2gray skeletonize
                  image_names directory suffixes alt_names) as Hs.
    induction Hs as [|x l Hs IH Hall]; [constructor|].
    cbn [List.map]. constructor; [exact IH|].
    apply Forall_forall. intros k Hk. apply list_elem_of_In, in_map_iff in Hk.
    destruct Hk as [y [<- Hy]]. rewrite Forall_forall in Hall.
    apply (Hall y). now apply list_elem_of_In.
  - intros x Hx. apply run_records_key in Hx. destruct Hx as (i & j & c & k & Hk & Hc & Hpos).
    rewrite Hc. split; [exact Hpos | now exists i, j, k].
  - apply regions_of_numbered.
Qed.

Example end_to_end :
  let res := extract_points 64 glob_ex imread_ex no_color thin_already
               ["shapeA.tif"] "/d" ["_suffix1"] ["S1"] "/out.txt" (World ∅ "" []) in
  res.1 = Ok tt /\
  writes (log res.2) =
    [format_record (Record_ "S1" 1 1 "_suffix1" 1);
     format_record (Record_ "S1" 6 1 "_suffix1" 1)].
Proof. vm_compute. split; reflexivity. Qed.

Lemma output_order_witness :
  StronglySorted key_lt
    (List.map fst (run_records glob_ex imread_ex no_color thin_already
                     ["shapeA.tif"] "/d" ["_suffix1"] ["S1"])).
Proof.
  exact (proj1 (proj2 (output_order 64 glob_ex imread_ex no_color thin_already
                         ["shapeA.tif"] "/d" ["_suffix1"] ["S1"] "/out.txt"
                         (World ∅ "" [])))).
Defined.

(** ** File selection *)

Lemma filter_first {A} (P : A -> bool) (l : list A) x rest :
  List.filter P l = x :: rest ->
  exists before after,
    l = before ++ x :: after /\ P x = true /\ forall y, In y before -> P y = false.
Proof.
  induction l as [|a t IH]; [discriminate|]. cbn [List.filter].
  destruct (P a) eqn:Ha.
  - intros H. injection H as -> _. exists [], t. repeat split; [exact Ha | contradiction].
  - intros H. destruct (IH H) as (before & after & -> & Hx & Hb).
    exists (a :: before), after. repeat split; [exact Hx|].
    intros y [<-|Hy]; [exact Ha | now apply Hb].
Qed.

(** C7. File selection: among the files the listing of [*.tif] returned,
    the candidates are those whose file name contains the base name and the
    suffix as substrings; the pair is processed on the first candidate in
    listing order; without candidate the pair does nothing: no call, no
    record, no exception. *)
Theorem file_selection bufsize (glob : string -> list string) imread rgb2gray skeletonize
    out alt_names directory image_name idx suffix w :
  let listing := glob (Path.join directory "*.tif") in
  let matching := matching_files listing image_name in
  let candidates := files_with_suffix matching suffix in
  let selected f :=
    Str.substring_of (name_only image_name) (Path.basename f) /\
    Str.substring_of suffix (Path.basename f) in
  (forall f, In f candidates <-> In f listing /\ selected f) /\
  (forall path rest, candidates = path :: rest ->
     process_pair bufsize imread rgb2gray skeletonize out alt_names matching idx suffix w =
     process_image bufsize imread rgb2gray skeletonize out alt_names idx suffix path w /\
     exists before after,
       listing = before ++ path :: after /\ selected path /\
       forall f, In f before -> ~ selected f) /\
  (candidates = [] ->
     process_pair bufsize imread rgb2gray skeletonize out alt_names matching idx suffix w =
     (Ok tt, w)).
Proof.
  cbv zeta. set (listing := glob (Path.join directory "*.tif")).
  assert (Hboth : forall f,
            Str.contains (name_only image_name) (Path.basename f) &&
            Str.contains suffix (Path.basename f) = true <->
            Str.substring_of (name_only image_name) (Path.basename f) /\
            Str.substring_of suffix (Path.basename f)).
  { intros f. now rewrite andb_true_iff, !contains_spec. }
  assert (Hfilter : files_with_suffix (matching_files listing image_name) suffix =
            List.filter (fun f => Str.contains (name_only image_name) (Path.basename f) &&
                                  Str.contains suffix (Path.basename f)) listing).
  { unfold files_with_suffix, matching_files. clear.
    induction listing as [|f t IH]; [reflexivity|]. cbn [List.filter].
    destruct (Str.contains (name_only image_name) (Path.basename f)); cbn [List.filter andb].
    - destruct (Str.contains suffix (Path.basename f)); now rewrite IH.
    - exact IH. }
  split; [|split].
  - intros f. rewrite Hfilter, filter_In, Hboth. reflexivity.
  - intros path rest Hc. split.
    + unfold process_pair. now rewrite Hc.
    + rewrite Hfilter in Hc. apply filter_first in Hc.
      destruct Hc as (before & after & Hl & Hp & Hb).
      exists before, after. split; [exact Hl|]. split; [now apply Hboth|].
      intros f Hf Hsel. apply Hboth in Hsel. rewrite (Hb f Hf) in Hsel. discriminate.
  - intros Hc. unfold process_pair. now rewrite Hc.
Qed.

Lemma file_selection_witness :
  process_pair 64 imread_ex no_color thin_already "/out.txt" ["S1"]
    (matching_files (glob_ex (Path.join "/d" "*.tif")) "shapeB.tif") 0 "_suffix1"
    (World ∅ "" []) = (Ok tt, World ∅ "" []).
Proof.
  apply (file_selection 64 glob_ex imread_ex no_color thin_already "/out.txt" ["S1"]
           "/d" "shapeB.tif" 0 "_suffix1" (World ∅ "" [])).
  reflexivity.
Defined.

(** ** Persistence of the output *)

(** Two pairs, a buffer of 8192 characters: when the second pair starts,
    the record of the first pair has been written to the stream but the
    file is still empty. *)
Lemma records_pending_between_pairs :
  let out := "/out.txt" in
  let run_pair := process_pair 8192 imread_dot no_color thin_already out ["A"]
                    (glob_two "/d/*.tif") 0 in
  let w0 := open_wt out (World ∅ "" []) in
  let w1 := (run_pair "_1" w0).2 in
  for_each ["_1"; "_2"] run_pair w0 = for_each ["_2"] run_pair w1 /\
  log w1 = [EvOpen out; EvImread "/d/a_1.tif";
            EvWrite (format_record (Record_ "A" 0 0 "_1" 1))] /\
  fs w1 !! out = Some "" /\
  fbuf w1 = format_record (Record_ "A" 0 0 "_1" 1).
Proof. vm_compute. repeat split. Qed.

(** C8 (as the code has it). The records of a pair are handed to the
    output stream before the next pair starts, and the file together with
    the stream's pending text always holds, in order, everything written so
    far; the pending text reaches the file when the buffer overflows and
    when the stream is closed at the end of the run, after which nothing is
    pending. *)
Theorem records_buffered_until_close bufsize glob imread rgb2gray skeletonize out :
  (forall alt_names matching idx js w c,
     fs w !! out = Some c ->
     let res := process_pair bufsize imread rgb2gray skeletonize out
                  alt_names matching idx js.2 w in
     exists evs c',
       log res.2 = log w ++ evs /\
       fs res.2 !! out = Some c' /\
       c' +:+ fbuf res.2 = c +:+ fbuf w +:+ written evs /\
       writes evs `prefix_of`
         lines (pair_records imread rgb2gray skeletonize alt_names matching idx js) /\
       (res.1 = Ok tt ->
        writes evs = lines (pair_records imread rgb2gray skeletonize alt_names matching idx js))) /\
  (forall image_names directory suffixes alt_names w,
     let res := extract_points bufsize glob imread rgb2gray skeletonize
                  image_names directory suffixes alt_names out w in
     exists evs,
       log res.2 = log w ++ [EvOpen out; EvGlob (Path.join directory "*.tif")]
                         ++ evs ++ [EvClose out] /\
       fs res.2 !! out = Some (written evs) /\
       fbuf res.2 = "").
Proof.
  split.
  - intros alt_names matching idx js w c Hc. cbv zeta.
    destruct (yields_process_pair bufsize imread rgb2gray skeletonize out
                alt_names matching idx js w) as (evs & (Hlog & _ & Hcons) & Hpre & Hall).
    destruct (Hcons c Hc) as (c' & Hc' & E).
    exists evs, c'. repeat split; assumption.
  - intros image_names directory suffixes alt_names w. cbv zeta.
    destruct (extract_points_run bufsize glob imread rgb2gray skeletonize out
                image_names directory suffixes alt_names w)
      as (evs & Hlog & _ & Hfs & Hbuf & _).
    exists evs. repeat split; assumption.
Qed.

Lemma records_buffered_until_close_witness :
  let out := "/out.txt" in
  let w0 := open_wt out (World ∅ "" []) in
  let res := process_pair 8192 imread_dot no_color thin_already out ["A"]
               (glob_two "/d/*.tif") 0 "_1" w0 in
  exists evs c',
    log res.2 = log w0 ++ evs /\
    fs res.2 !! out = Some c' /\
    c' +:+ fbuf res.2 = "" +:+ fbuf w0 +:+ written evs /\
    writes evs `prefix_of`
      lines (pair_records imread_dot no_color thin_already ["A"] (glob_two "/d/*.tif") 0 (0, "_1")) /\
    (res.1 = Ok tt ->
     writes evs =
       lines (pair_records imread_dot no_color thin_already ["A"] (glob_two "/d/*.tif") 0 (0, "_1"))).
Proof.
  apply (proj1 (records_buffered_until_close 8192 glob_two imread_dot no_color thin_already
                  "/out.txt") ["A"] (glob_two "/d/*.tif") 0 (0, "_1")
               (open_wt "/out.txt" (World ∅ "" [])) "").
  reflexivity.
Defined.

(** C10. The output file is opened for writing before anything else
    happens: the open is the first call of the run, the listing the second;
    the previous content of the file is gone at once; at the end the file
    exists and holds exactly what the run wrote, the empty text when it
    wrote nothing. *)
Theorem output_opened_first bufsize glob imread rgb2gray skeletonize
    image_names directory suffixes alt_names out w :
  let res := extract_points bufsize glob imread rgb2gray skeletonize
               image_names directory suffixes alt_names out w in
  fs (open_wt out w) !! out = Some "" /\
  exists evs,
    log res.2 = log w ++ [EvOpen out; EvGlob (Path.join directory "*.tif")]
                      ++ evs ++ [EvClose out] /\
    fs res.2 !! out = Some (written evs) /\
    (writes evs = [] -> fs res.2 !! out = Some "").
Proof.
  cbv zeta. split; [apply lookup_insert_eq|].
  destruct (extract_points_run bufsize glob imread rgb2gray skeletonize out
              image_names directory suffixes alt_names w)
    as (evs & Hlog & _ & Hfs & _).
  exists evs. split; [exact Hlog|]. split; [exact Hfs|].
  intros Hnone. rewrite Hfs. unfold written. now rewrite Hnone.
Qed.

Example output_replaced :
  let res := extract_points 64 glob_ex imread_ex no_color thin_already
               ["shapeB.tif"] "/d" ["_suffix1"] ["S1"] "/out.txt" old_output in
  res.1 = Ok tt /\ fs res.2 !! "/out.txt" = Some "" /\
  log res.2 = [EvOpen "/out.txt"; EvGlob "/d/*.tif"; EvClose "/out.txt"].
Proof. vm_compute. repeat split. Qed.

Lemma output_opened_first_witness :
  let res := extract_points 64 glob_ex imread_ex no_color thin_already
               ["shapeB.tif"] "/d" ["_suffix1"] ["S1"] "/out.txt" old_output in
  exists evs,
    log res.2 = log old_output ++ [EvOpen "/out.txt"; EvGlob (Path.join "/d" "*.tif")]
                      ++ evs ++ [EvClose "/out.txt"] /\
    fs res.2 !! "/out.txt" = Some (written evs) /\
    (writes evs = [] -> fs res.2 !! "/out.txt" = Some "").
Proof.
  exact (proj2 (output_opened_first 64 glob_ex imread_ex no_color thin_already
                  ["shapeB.tif"] "/d" ["_suffix1"] ["S1"] "/out.txt" old_output)).
Defined.

(** ** Determinism *)

Lemma same_io_ret : same_io (ret tt) (ret tt).
Proof. intros w1 w2. split; [reflexivity|]. exists []. now rewrite !app_nil_r. Qed.

Lemma same_io_write b1 b2 out text : same_io (f_write b1 out text) (f_write b2 out text).
Proof.
  intros w1 w2. split; [reflexivity|]. exists [EvWrite text]. now rewrite !f_write_log.
Qed.

Lemma same_io_seq a1 a2 b1 b2 :
  same_io a1 a2 -> same_io b1 b2 -> same_io (a1 ;;; b1) (a2 ;;; b2).
Proof.
  intros Ha Hb w1 w2. unfold bind.
  destruct (Ha w1 w2) as (Hr & ea & L1 & L2).
  destruct (a1 w1) as [[[]|e1] w1'], (a2 w2) as [[[]|e2] w2']; cbn [fst snd] in *;
    try discriminate.
  - destruct (Hb w1' w2') as (Hr' & eb & L1' & L2'). split; [exact Hr'|].
    exists (ea ++ eb). rewrite L1', L2', L1, L2. now rewrite <- !app_assoc.
  - split; [exact Hr|]. now exists ea.
Qed.

Lemma same_io_for_each {A} (l : list A) (f1 f2 : A -> M unit) :
  (forall a, In a l -> same_io (f1 a) (f2 a)) ->
  same_io (for_each l f1) (for_each l f2).
Proof.
  induction l as [|a t IH]; intros H; cbn [for_each].
  - apply same_io_ret.
  - apply same_io_seq; [apply H; now left|]. apply IH. intros b Hb. apply H. now right.
Qed.

Lemma same_io_after_emit e m1 m2 :
  same_io m1 m2 -> same_io (fun w => m1 (emit e w)) (fun w => m2 (emit e w)).
Proof.
  intros H w1 w2. destruct (H (emit e w1) (emit e w2)) as (Hr & evs & L1 & L2).
  split; [exact Hr|]. exists ([e] ++ evs). rewrite L1, L2. cbn [emit log].
  now rewrite <- !app_assoc.
Qed.

Lemma same_io_failed e x :
  same_io (fun w => (Raise x, emit e w)) (fun w => (Raise x, emit e w)).
Proof. intros w1 w2. split; [reflexivity|]. now exists [e]. Qed.

Lemma same_io_emit_region b1 b2 out alt_names idx suffix ci r :
  same_io (emit_region b1 out alt_names idx suffix ci r)
          (emit_region b2 out alt_names idx suffix ci r).
Proof.
  unfold emit_region. apply same_io_for_each. intros [y x] _ w1 w2.
  unfold bind, index. destruct (alt_names !! Z.to_nat idx) as [alt|].
  - apply same_io_write.
  - split; [reflexivity|]. exists []. now rewrite !app_nil_r.
Qed.

Section TwoRuns.

Variables b1 b2 : N.
Variables imread1 imread2 : string -> option image.
Variable rgb2gray : array3 -> option (grid spec_float).
Variable skeletonize : grid bool -> grid bool.
Variable out : string.

Lemma same_io_process_image alt_names idx suffix path :
  imread1 path = imread2 path ->
  same_io (process_image b1 imread1 rgb2gray skeletonize out alt_names idx suffix path)
          (process_image b2 imread2 rgb2gray skeletonize out alt_names idx suffix path).
Proof.
  intros E w1 w2. rewrite !process_image_unfold, <- E.
  destruct (imread1 path) as [img|].
  - destruct (gray_of rgb2gray img) as [a|].
    + apply (same_io_after_emit (EvImread path)). apply same_io_for_each.
      intros [ci r] _. apply same_io_emit_region.
    + apply (same_io_failed (EvImread path)).
  - apply (same_io_failed (EvImread path)).
Qed.

Lemma same_io_process_pair alt_names matching idx suffix :
  (forall p, In p matching -> imread1 p = imread2 p) ->
  same_io (process_pair b1 imread1 rgb2gray skeletonize out alt_names matching idx suffix)
          (process_pair b2 imread2 rgb2gray skeletonize out alt_names matching idx suffix).
Proof.
  intros H. unfold process_pair.
  destruct (files_with_suffix matching suffix) as [|path rest] eqn:E.
  - apply same_io_ret.
  - apply same_io_process_image. apply H.
    assert (Hin : In path (files_with_suffix matching suffix)) by (rewrite E; now left).
    unfold files_with_suffix in Hin. now apply filter_In in Hin.
Qed.

Lemma same_io_images (image_names : list string) listing suffixes alt_names :
  (forall p, In p listing -> imread1 p = imread2 p) ->
  same_io
    (for_each (enumerate image_names) (fun '(idx, image_name) =>
       let matching := matching_files listing image_name in
       for_each suffixes (fun suffix =>
         process_pair b1 imread1 rgb2gray skeletonize out alt_names matching idx suffix)))
    (for_each (enumerate image_names) (fun '(idx, image_name) =>
       let matching := matching_files listing image_name in
       for_each suffixes (fun suffix =>
         process_pair b2 imread2 rgb2gray skeletonize out alt_names matching idx suffix))).
Proof.
  intros H. apply same_io_for_each. intros [idx image_name] _. cbv zeta.
  apply same_io_for_each. intros suffix _. apply same_io_process_pair.
  intros p Hp. apply H. unfold matching_files in Hp. now apply filter_In in Hp.
Qed.

End TwoRuns.

(** C9. Determinism: two runs with the same arguments, whose [*.tif]
    listings agree and whose listed files decode to the same images, end
    the same way and leave the same text in the output file, whatever was
    in the file system before and whatever the buffer sizes. *)
Theorem run_deterministic b1 b2 glob1 glob2 imread1 imread2 rgb2gray skeletonize
    image_names directory suffixes alt_names out w1 w2 :
  glob1 (Path.join directory "*.tif") = glob2 (Path.join directory "*.tif") ->
  (forall p, In p (glob1 (Path.join directory "*.tif")) -> imread1 p = imread2 p) ->
  let res1 := extract_points b1 glob1 imread1 rgb2gray skeletonize
                image_names directory suffixes alt_names out w1 in
  let res2 := extract_points b2 glob2 imread2 rgb2gray skeletonize
                image_names directory suffixes alt_names out w2 in
  res1.1 = res2.1 /\
  fs res1.2 !! out = fs res2.2 !! out /\
  exists text, fs res1.2 !! out = Some text.
Proof.
  intros Hglob Hread. cbv zeta.
  destruct (extract_points_run b1 glob1 imread1 rgb2gray skeletonize out
              image_names directory suffixes alt_names w1) as (e1 & L1 & _ & F1 & _).
  destruct (extract_points_run b2 glob2 imread2 rgb2gray skeletonize out
              image_names directory suffixes alt_names w2) as (e2 & L2 & _ & F2 & _).
  cbv zeta in *. rewrite F1, F2.
  unfold extract_points, with_open_wt, bind, do_glob in *. rewrite <- Hglob in *.
  set (pattern := Path.join directory "*.tif") in *.
  destruct (same_io_images b1 b2 imread1 imread2 rgb2gray skeletonize out
              image_names (glob1 pattern) suffixes alt_names Hread
              (emit (EvGlob pattern) (open_wt out w1))
              (emit (EvGlob pattern) (open_wt out w2))) as (Hr & evs & E1 & E2).
  match type of E1 with log (?m ?w).2 = _ => destruct (m w) as [r1 v1] end.
  match type of E2 with log (?m ?w).2 = _ => destruct (m w) as [r2 v2] end.
  cbn [fst snd f_close log emit open_wt] in *.
  rewrite E1 in L1. rewrite E2 in L2.
  rewrite <- !app_assoc in L1, L2. cbn [app] in L1, L2.
  apply app_inv_head in L1, L2. injection L1 as L1. injection L2 as L2.
  apply app_inv_tail in L1, L2. subst e1 e2.
  split; [exact Hr|]. split; [reflexivity|]. eauto.
Qed.

Lemma run_deterministic_witness :
  let res1 := extract_points 64 glob_ex imread_ex no_color thin_already
                ["shapeA.tif"] "/d" ["_suffix1"] ["S1"] "/out.txt" (World ∅ "" []) in
  let res2 := extract_points 8192 glob_ex imread_ex no_color thin_already
                ["shapeA.tif"] "/d" ["_suffix1"] ["S1"] "/out.txt" old_output in
  res1.1 = res2.1 /\
  fs res1.2 !! "/out.txt" = fs res2.2 !! "/out.txt" /\
  exists text, fs res1.2 !! "/out.txt" = Some text.
Proof.
  apply (run_deterministic 64 8192 glob_ex glob_ex imread_ex imread_ex no_color thin_already
           ["shapeA.tif"] "/d" ["_suffix1"] ["S1"] "/out.txt" (World ∅ "" []) old_output).
  - reflexivity.
  - intros p _. reflexivity.
Defined.

(** ** Paths *)

Lemma str_length_app (a b : string) :
  String.length (a +:+ b) = (String.length a + String.length b)%nat.
Proof.
  induction a as [|c a IH]; [reflexivity|].
  rewrite str_app_cons. cbn [String.length]. now rewrite IH.
Qed.

Lemma str_take_drop (n : nat) (s : string) : Str.take n s +:+ Str.drop n s = s.
Proof.
  revert s. induction n as [|n IH]; intros s.
  - now destruct s.
  - destruct s as [|c t]; [reflexivity|].
    cbn [Str.take Str.drop]. rewrite str_app_cons. now rewrite IH.
Qed.

Lemma str_drop_app_length (a b : string) : Str.drop (String.length a) (a +:+ b) = b.
Proof.
  induction a as [|c a IH]; [now destruct b|].
  rewrite str_app_cons. exact IH.
Qed.

Lemma rfind_from_absent c s i last :
  Text.count c s = O -> Str.rfind_from c s i last = last.
Proof.
  revert i last. induction s as [|a t IH]; intros i last H; [reflexivity|].
  cbn [Text.count] in H. cbn [Str.rfind_from].
  destruct (Ascii.eqb a c); [discriminate|]. now apply IH.
Qed.

Lemma rfind_from_app c a b i last :
  Str.rfind_from c (a +:+ b) i last =
  Str.rfind_from c b (i + Z.of_nat (String.length a)) (Str.rfind_from c a i last).
Proof.
  revert i last. induction a as [|x a IH]; intros i last.
  - cbn [String.length Str.rfind_from]. rewrite str_app_nil_l. f_equal. lia.
  - rewrite str_app_cons. cbn [Str.rfind_from String.length]. rewrite IH. f_equal. lia.
Qed.

(** Where [rfind] finds the character, the text from there on starts with
    it. *)
Lemma rfind_from_hit c s i last r :
  Str.rfind_from c s i last = r -> r <> last ->
  i <= r /\ exists t, Str.drop (Z.to_nat (r - i)) s = String c t.
Proof.
  revert i last. induction s as [|a t IH]; intros i last Hr Hne.
  - cbn in Hr. congruence.
  - cbn [Str.rfind_from] in Hr.
    destruct (Ascii.eqb a c) eqn:Hac.
    + apply Ascii.eqb_eq in Hac. subst a.
      destruct (Z.eq_dec r i) as [->|Hri].
      * split; [lia|]. rewrite Z.sub_diag. now exists t.
      * destruct (IH (i + 1) i Hr Hri) as [Hle [u Hu]]. split; [lia|]. exists u.
        replace (Z.to_nat (r - i)) with (S (Z.to_nat (r - (i + 1)))) by lia. exact Hu.
    + destruct (IH (i + 1) last Hr Hne) as [Hle [u Hu]]. split; [lia|]. exists u.
      replace (Z.to_nat (r - i)) with (S (Z.to_nat (r - (i + 1)))) by lia. exact Hu.
Qed.

Lemma rfind_from_ge c s i last : last < i -> last <= Str.rfind_from c s i last.
Proof.
  revert i last. induction s as [|a t IH]; intros i last H; [cbn; lia|].
  cbn [Str.rfind_from]. destruct (Ascii.eqb a c).
  - specialize (IH (i + 1) i). lia.
  - specialize (IH (i + 1) last). lia.
Qed.

(** [splitext] cuts the path in two; the second part is empty or starts
    with the dot. *)
Lemma splitext_spec (p : string) :
  (Path.splitext p).1 +:+ (Path.splitext p).2 = p /\
  ((Path.splitext p).2 = "" \/ exists t, (Path.splitext p).2 = String Path.extsep t).
Proof.
  unfold Path.splitext.
  destruct (_ && _) eqn:Hc; cbn [fst snd].
  - split; [apply str_take_drop|]. right.
    apply andb_true_iff in Hc. destruct Hc as [Hlt _]. apply Z.ltb_lt in Hlt.
    pose proof (rfind_from_ge Path.sep p 0 (-1) ltac:(lia)) as Hge.
    unfold Str.rfind in *.
    destruct (rfind_from_hit Path.extsep p 0 (-1) _ eq_refl ltac:(lia)) as [_ [t Ht]].
    rewrite Z.sub_0_r in Ht. now exists t.
  - split; [apply str_app_nil_r | now left].
Qed.

Lemma str_app_inv_head (a b c : string) : a +:+ b = a +:+ c -> b = c.
Proof.
  induction a as [|x a IH]; [now rewrite !str_app_nil_l|].
  rewrite !str_app_cons. intros H. injection H as H. now apply IH.
Qed.

Lemma count_app c (a b : string) :
  Text.count c (a +:+ b) = (Text.count c a + Text.count c b)%nat.
Proof.
  induction a as [|x a IH]; [reflexivity|].
  rewrite str_app_cons. cbn [Text.count]. rewrite IH. lia.
Qed.

Lemma str_take_app_length (a b : string) : Str.take (String.length a) (a +:+ b) = a.
Proof.
  induction a as [|c a IH]; [now destruct b|].
  rewrite str_app_cons. cbn [String.length Str.take]. now rewrite IH.
Qed.

Lemma basename_plain (n : string) : Text.count Path.sep n = O -> Path.basename n = n.
Proof.
  intros H. unfold Path.basename, Str.rfind. now rewrite rfind_from_absent.
Qed.

Lemma basename_join (d n : string) :
  Text.count Path.sep n = O -> Path.basename (d +:+ "/" +:+ n) = n.
Proof.
  intros H. unfold Path.basename, Str.rfind.
  rewrite rfind_from_app. rewrite str_app_cons, str_app_nil_l.
  cbn [Str.rfind_from]. change (Ascii.eqb "/" Path.sep) with true. cbn iota.
  rewrite rfind_from_absent by exact H.
  replace (Z.to_nat (0 + Z.of_nat (String.length d) + 1))
    with (String.length (d +:+ "/")) by (rewrite str_length_app; cbn; lia).
  change (String "/" n) with ("/" +:+ n). rewrite <- str_app_assoc.
  apply str_drop_app_length.
Qed.

Lemma splitext_simple (stem ext : string) :
  Text.count Path.sep stem = O -> Text.count Path.sep ext = O ->
  Text.count Path.extsep ext = O -> Str.all_char Path.extsep stem = false ->
  Path.splitext (stem +:+ "." +:+ ext) = (stem, "." +:+ ext).
Proof.
  intros Hs He Hd Hall. unfold Path.splitext, Str.rfind.
  assert (Hsep : Str.rfind_from Path.sep (stem +:+ "." +:+ ext) 0 (-1) = -1).
  { apply rfind_from_absent. rewrite !count_app, Hs, He. reflexivity. }
  assert (Hdot : Str.rfind_from Path.extsep (stem +:+ "." +:+ ext) 0 (-1) =
                 Z.of_nat (String.length stem)).
  { rewrite rfind_from_app. rewrite str_app_cons, str_app_nil_l.
    cbn [Str.rfind_from]. change (Ascii.eqb "." Path.extsep) with true. cbn iota.
    rewrite rfind_from_absent by exact Hd. lia. }
  rewrite Hsep, Hdot. change (-1 + 1) with 0. change (Z.to_nat 0) with O.
  cbn [Str.drop].
  rewrite Z.sub_0_r, Nat2Z.id, str_take_app_length, Hall, str_drop_app_length.
  replace (-1 <? Z.of_nat (String.length stem)) with true
    by (symmetry; apply Z.ltb_lt; lia).
  reflexivity.
Qed.

(** X1. The base name used for matching is the last path component of the
    image name without its extension: for a name [stem.ext], given with or
    without a directory in front, it is [stem]. *)
Theorem name_only_strips (d stem ext : string) :
  Text.count Path.sep stem = O -> Text.count Path.sep ext = O ->
  Text.count Path.extsep ext = O -> Str.all_char Path.extsep stem = false ->
  name_only (stem +:+ "." +:+ ext) = stem /\
  name_only (d +:+ "/" +:+ stem +:+ "." +:+ ext) = stem.
Proof.
  intros Hs He Hd Hall.
  assert (Hn : Text.count Path.sep (stem +:+ "." +:+ ext) = O).
  { rewrite !count_app, Hs, He. reflexivity. }
  unfold name_only. rewrite basename_join, basename_plain by exact Hn.
  rewrite splitext_simple by assumption. split; reflexivity.
Qed.

Lemma name_only_strips_witness :
  name_only "shapeA.tif" = "shapeA" /\ name_only "/data/run/shapeA.tif" = "shapeA".
Proof.
  apply (name_only_strips "/data/run" "shapeA" "tif"); reflexivity.
Defined.

Lemma out_path_neq (path : string) : out_path path <> path.
Proof.
  destruct (splitext_spec path) as [Hcut Hext]. unfold out_path.
  destruct (Path.splitext path) as [root ext]. cbn [fst snd] in *.
  destruct ext as [|c e].
  - intros H. apply (f_equal String.length) in H. rewrite str_length_app in H.
    cbn in H. lia.
  - destruct Hext as [Hext|[t Hext]]; [discriminate|].
    rewrite <- Hcut. intros H. apply str_app_inv_head in H.
    rewrite Hext in H. discriminate.
Qed.

(** X2. The output path of the script is never the input path, so the input
    file is not the one truncated by the ['wt'] open; the output path puts
    [_out.txt] behind the input path without its extension. *)
Theorem out_path_fresh (path : string) :
  out_path path <> path /\
  exists stem ext, path = stem +:+ ext /\ out_path path = stem +:+ "_out.txt" /\
                   (ext = "" \/ exists t, ext = String Path.extsep t).
Proof.
  split; [apply out_path_neq|].
  destruct (splitext_spec path) as [Hcut Hext]. unfold out_path.
  destruct (Path.splitext path) as [root ext]. cbn [fst snd] in *.
  destruct ext as [|c e].
  - exists path, "". rewrite str_app_nil_r. repeat split; auto.
  - destruct Hext as [Hext|[t Hext]]; [discriminate|].
    exists root, (String c e). repeat split; eauto.
Qed.

(** ** Splitting, stripping and reading lines *)

Lemma split_length sep s n :
  List.length (Text.split sep s n) = S (Nat.min (Text.count sep s) n).
Proof.
  revert n. induction s as [|c t IH]; intros n; [reflexivity|].
  cbn [Text.split Text.count]. destruct n as [|k]; [now rewrite Nat.min_0_r|].
  destruct (Ascii.eqb c sep).
  - cbn [List.length]. rewrite IH. reflexivity.
  - specialize (IH (S k)). cbn [Nat.add].
    destruct (Text.split sep t (S k)) as [|h r]; [discriminate|]. exact IH.
Qed.

Lemma split_no_sep sep a n : Text.count sep a = O -> Text.split sep a n = [a].
Proof.
  revert n. induction a as [|c t IH]; intros n H; [reflexivity|].
  cbn [Text.count] in H. cbn [Text.split]. destruct n as [|k]; [reflexivity|].
  destruct (Ascii.eqb c sep); [discriminate|]. now rewrite IH.
Qed.

Lemma split_field sep a b k :
  Text.count sep a = O ->
  Text.split sep (a +:+ String sep b) (S k) = a :: Text.split sep b k.
Proof.
  induction a as [|c t IH]; intros H.
  - rewrite str_app_nil_l. cbn [Text.split]. now rewrite Ascii.eqb_refl.
  - cbn [Text.count] in H. rewrite str_app_cons. cbn [Text.split].
    destruct (Ascii.eqb c sep); [discriminate|]. now rewrite IH.
Qed.

Lemma lstrip_length s : (String.length (Text.lstrip s) <= String.length s)%nat.
Proof.
  induction s as [|c t IH]; [reflexivity|].
  cbn [Text.lstrip]. destruct (Text.is_space c); cbn [String.length]; lia.
Qed.

Lemma lstrip_fixed_app a b :
  Text.lstrip a = a -> Text.lstrip b = b -> Text.lstrip (a +:+ b) = a +:+ b.
Proof.
  intros Ha Hb. destruct a as [|c t]; [exact Hb|].
  rewrite str_app_cons. cbn [Text.lstrip] in *.
  destruct (Text.is_space c); [|reflexivity].
  pose proof (lstrip_length t) as H. rewrite Ha in H. cbn in H. lia.
Qed.

Lemma rstrip_app_space s c :
  Text.is_space c = true -> Text.rstrip (s +:+ String c "") = Text.rstrip s.
Proof.
  intros Hc. induction s as [|a t IH].
  - rewrite str_app_nil_l. cbn [Text.rstrip]. now rewrite Hc.
  - rewrite str_app_cons. cbn [Text.rstrip]. now rewrite IH.
Qed.

Lemma rstrip_keep s : last_nonspace s = true -> Text.rstrip s = s.
Proof.
  induction s as [|c t IH]; [discriminate|].
  cbn [last_nonspace Text.rstrip]. destruct t as [|d u].
  - intros H. cbn [Text.rstrip]. apply negb_true_iff in H. now rewrite H.
  - intros H. rewrite (IH H). reflexivity.
Qed.

Lemma last_nonspace_app a b : b <> "" -> last_nonspace (a +:+ b) = last_nonspace b.
Proof.
  intros Hb. induction a as [|c t IH]; [reflexivity|].
  rewrite str_app_cons. cbn [last_nonspace].
  destruct (t +:+ b) eqn:E; [|exact IH].
  destruct t; [now rewrite str_app_nil_l in E | discriminate].
Qed.

Lemma all_chars_app P a b : all_chars P (a +:+ b) = all_chars P a && all_chars P b.
Proof.
  induction a as [|c t IH]; [reflexivity|].
  rewrite str_app_cons. cbn [all_chars]. now rewrite IH, andb_assoc.
Qed.

Lemma all_chars_count P c s :
  all_chars P s = true -> P c = false -> Text.count c s = O.
Proof.
  intros Hs Hc. induction s as [|a t IH]; [reflexivity|].
  cbn [all_chars] in Hs. apply andb_true_iff in Hs. destruct Hs as [Ha Ht].
  cbn [Text.count]. destruct (Ascii.eqb a c) eqn:E.
  - apply Ascii.eqb_eq in E. congruence.
  - now apply IH.
Qed.

Lemma all_chars_last s :
  all_chars (fun c => negb (Text.is_space c)) s = true -> s <> "" ->
  last_nonspace s = true.
Proof.
  induction s as [|c t IH]; [congruence|]. intros H _.
  cbn [all_chars] in H. apply andb_true_iff in H. destruct H as [Hc Ht].
  cbn [last_nonspace]. destruct t; [exact Hc|]. now apply IH.
Qed.

Lemma all_chars_weaken (P Q : ascii -> bool) s :
  (forall c, P c = true -> Q c = true) -> all_chars P s = true -> all_chars Q s = true.
Proof.
  intros H. induction s as [|c t IH]; [reflexivity|]. cbn [all_chars].
  rewrite !andb_true_iff. intros [Hc Ht]. split; [now apply H | now apply IH].
Qed.

(** Printed integers consist of digits and at most a minus sign. *)
Lemma pretty_N_char_num x : num_char (pretty_N_char x) = true.
Proof. unfold pretty_N_char. repeat case_match; reflexivity. Qed.

Lemma pretty_N_go_chars x s :
  exists pre, pretty_N_go x s = pre +:+ s /\ all_chars num_char pre = true /\
              ((0 < x)%N -> pre <> "").
Proof.
  revert s. induction (N.lt_wf_0 x) as [x _ IH]; intros s.
  destruct (N.eq_dec x 0%N) as [->|Hx].
  - exists "". rewrite pretty_N_go_0. repeat split. lia.
  - assert (Hpos : (0 < x)%N) by lia.
    rewrite pretty_N_go_step by exact Hpos.
    destruct (IH (x `div` 10)%N (N.div_lt x 10 Hpos eq_refl)
                 (String (pretty_N_char (x `mod` 10)) s)) as (pre & E & Hpre & _).
    exists (pre +:+ String (pretty_N_char (x `mod` 10)) "").
    rewrite E, str_app_assoc, str_app_cons, str_app_nil_l. split; [reflexivity|].
    split.
    + rewrite all_chars_app, Hpre. cbn [all_chars]. now rewrite pretty_N_char_num.
    + intros _ H. apply (f_equal String.length) in H. rewrite str_length_app in H.
      cbn in H. lia.
Qed.

Lemma pretty_N_chars (x : N) : all_chars num_char (pretty x) = true /\ pretty x <> "".
Proof.
  unfold pretty, pretty_N. destruct (decide (x = 0%N)) as [->|Hx]; [now split|].
  destruct (pretty_N_go_chars x "") as (pre & E & Hpre & Hne).
  rewrite E, str_app_nil_r. split; [exact Hpre | apply Hne; lia].
Qed.

Lemma pretty_Z_chars (z : Z) : all_chars num_char (pretty z) = true /\ pretty z <> "".
Proof.
  destruct z as [|p|p].
  - now split.
  - apply (pretty_N_chars (N.pos p)).
  - destruct (pretty_N_chars (N.pos p)) as [H _].
    change (pretty (Z.neg p)) with ("-" +:+ pretty (N.pos p)). split.
    + rewrite all_chars_app. now rewrite H.
    + discriminate.
Qed.

Lemma num_char_plain c :
  num_char c = true ->
  Text.is_space c = false /\ Ascii.eqb c "," = false /\
  Ascii.eqb c Text.LF = false /\ Ascii.eqb c Text.CR = false.
Proof.
  destruct c as [[] [] [] [] [] [] [] []]; vm_compute; intros H;
    first [discriminate H | repeat split].
Qed.

Lemma pretty_Z_count (z : Z) (c : ascii) :
  num_char c = false -> Text.count c (pretty z) = O.
Proof. intros H. destruct (pretty_Z_chars z) as [Hz _]. now apply (all_chars_count num_char). Qed.

Lemma universal_newlines_id s :
  Text.count Text.CR s = O -> Text.universal_newlines s = s.
Proof.
  induction s as [|c t IH]; [reflexivity|].
  cbn [Text.count Text.universal_newlines].
  destruct (Ascii.eqb c Text.CR); [discriminate|]. intros H. now rewrite IH.
Qed.

Lemma keepends_line body rest :
  Text.count Text.LF body = O ->
  Text.keepends (body +:+ String Text.LF rest) =
  (body +:+ String Text.LF "") :: Text.keepends rest.
Proof.
  induction body as [|c t IH]; intros H.
  - rewrite !str_app_nil_l. cbn [Text.keepends]. now rewrite Ascii.eqb_refl.
  - cbn [Text.count] in H. rewrite !str_app_cons. cbn [Text.keepends].
    destruct (Ascii.eqb c Text.LF); [discriminate|]. now rewrite IH.
Qed.

(** A text made of lines, each ended by a line break and free of other
    line breaks, is read back as these lines. *)
Lemma readlines_joined (bodies : list string) :
  Forall (fun b => Text.count Text.LF b = O /\ Text.count Text.CR b = O) bodies ->
  Text.readlines (joined (List.map (fun b => b +:+ String Text.LF "") bodies)) =
  List.map (fun b => b +:+ String Text.LF "") bodies.
Proof.
  intros H. unfold Text.readlines. rewrite universal_newlines_id.
  - induction H as [|b bs [Hlf _] _ IH]; [reflexivity|].
    cbn [List.map joined fold_right]. rewrite str_app_assoc, str_app_cons, str_app_nil_l.
    rewrite keepends_line by exact Hlf. f_equal. exact IH.
  - induction H as [|b bs [_ Hcr] _ IH]; [reflexivity|].
    cbn [List.map joined fold_right]. rewrite !count_app, Hcr. cbn [Text.count].
    change (Ascii.eqb Text.LF Text.CR) with false. cbn. exact IH.
Qed.

(** ** The back-projection script *)

Lemma delete_alter_last {A} (f : A -> A) (l : list A) (x : A) :
  delete (List.length l) (alter f (List.length l) (l ++ [x])) = l.
Proof.
  induction l as [|a t IH]; [reflexivity|].
  change (delete (S (List.length t)) (a :: alter f (List.length t) (t ++ [x])) = a :: t).
  change (a :: delete (List.length t) (alter f (List.length t) (t ++ [x])) = a :: t).
  now rewrite IH.
Qed.

Section ScriptRun.

Variable num : Type.
Variable point : Type.
Variable to_float : string -> option num.
Variable fmt6 : num -> string.
Variable pickPoint : camera -> num -> num -> option point.
Variable project : point -> num * num * num.
Variable bufsize : N.
Variable out : string.
Variable cams : list camera.

Lemma frame_refl (s : session num) : frame out s s.
Proof. repeat split. Qed.

Lemma frame_trans (s1 s2 s3 : session num) : frame out s1 s2 -> frame out s2 s3 -> frame out s1 s3.
Proof.
  intros (D1 & C1 & N1 & P1) (D2 & C2 & N2 & P2). repeat split; try congruence.
  intros p Hp. rewrite D2, D1 by exact Hp. reflexivity.
Qed.

Lemma with_camera_spec label lineType lineNumber x y cam s :
  let s' := with_camera num point fmt6 pickPoint project bufsize
              out label lineType lineNumber x y cam s in
  frame out s s' /\
  markers num (the_chunk num s') =
    markers num (the_chunk num s) ++
    match pickPoint cam x y with Some _ => [] | None => [new_marker num] end /\
  (pending num s = "" -> forall c, disk num s !! out = Some c ->
     disk num (out_flush num out s') !! out =
       Some (c +:+ match pickPoint cam x y with
                   | Some p => format_marker num fmt6 label (project p) lineType lineNumber
                   | None => ""
                   end)).
Proof.
  cbv zeta. unfold with_camera, addMarker.
  destruct (pickPoint cam x y) as [p|].
  - unfold remove, out_write, configure, set_markers. cbn [the_chunk markers pending disk].
    destruct (_ <? _)%N; cbn [the_chunk markers pending disk cameras dense_cloud printed].
    + rewrite delete_alter_last, app_nil_r. split; [|split; [reflexivity|]].
      * repeat split. intros q Hq. cbn [disk]. now rewrite lookup_alter_ne by congruence.
      * intros Hp c Hc. unfold out_flush. cbn [disk pending].
        rewrite !lookup_alter_eq, Hc, Hp. cbn. rewrite str_app_nil_l, str_app_nil_r.
        reflexivity.
    + rewrite delete_alter_last, app_nil_r. split; [|split; [reflexivity|]].
      * repeat split.
      * intros Hp c Hc. unfold out_flush. cbn [disk pending].
        rewrite lookup_alter_eq, Hc, Hp. cbn. rewrite str_app_nil_l. reflexivity.
  - unfold set_markers. cbn [the_chunk markers]. split; [|split; [reflexivity|]].
    + repeat split.
    + intros Hp c Hc. unfold out_flush. cbn [disk pending].
      rewrite lookup_alter_eq, Hc, Hp. reflexivity.
Qed.

Lemma flush_frame (s : session num) : frame out s (out_flush num out s).
Proof.
  repeat split. intros p Hp. unfold out_flush. cbn [disk].
  now rewrite lookup_alter_ne by congruence.
Qed.

(** One line: the result, what it leaves alone, the markers it leaves
    behind, and the text it puts on disk. *)
Lemma handle_line_spec line s :
  let res := handle_line num point to_float fmt6 pickPoint project bufsize out cams line s in
  (res.1 = Failed ValueError <->
     (4 <= String.length line)%nat /\ parse_line num to_float line = None) /\
  (res.1 = Failed ValueError \/ res.1 = Done tt) /\
  frame out s res.2 /\
  markers num (the_chunk num res.2) =
    markers num (the_chunk num s) ++
    (if line_leaks num point to_float pickPoint cams line then [new_marker num] else []) /\
  (pending num s = "" -> forall c, disk num s !! out = Some c ->
     pending num res.2 = "" /\
     disk num res.2 !! out =
       Some (c +:+ line_text num point to_float fmt6 pickPoint project cams line)).
Proof.
  cbv zeta. unfold handle_line, line_text, line_leaks, parse_line, first_camera.
  destruct (Nat.ltb_spec (String.length line) 4) as [Hshort|Hlong].
  { cbn [fst snd]. split; [split; [discriminate | lia]|]. split; [now right|].
    split; [apply frame_refl|]. split; [now rewrite app_nil_r|].
    intros Hp c Hc. now rewrite str_app_nil_r. }
  assert (Hfail : forall s0 : session num,
            ((Failed ValueError : completion unit) = Failed ValueError <->
               (4 <= String.length line)%nat /\ (None : option (string * num * num * string * string)) = None) /\
            ((Failed ValueError : completion unit) = Failed ValueError \/
             (Failed ValueError : completion unit) = Done tt) /\
            frame out s0 s0 /\
            markers num (the_chunk num s0) = markers num (the_chunk num s0) ++ [] /\
            (pending num s0 = "" -> forall c, disk num s0 !! out = Some c ->
               pending num s0 = "" /\ disk num s0 !! out = Some (c +:+ ""))).
  { intros s0. split; [tauto|]. split; [now left|]. split; [apply frame_refl|].
    split; [now rewrite app_nil_r|]. intros Hp c Hc. now rewrite str_app_nil_r. }
  destruct (Text.split "," (Text.strip line) 5)
    as [|label [|xs [|ys [|lineType [|lineNumber [|extra more]]]]]];
    cbn [fst snd]; try apply Hfail.
  destruct (to_float xs) as [x|]; [|apply Hfail].
  destruct (to_float ys) as [y|]; [|apply Hfail].
  cbn [fst snd].
  split; [split; [discriminate | intros [_ H]; discriminate]|]. split; [now right|].
  destruct (List.find (fun cam => String.eqb (cam_label cam) label) cams) as [cam|].
  - destruct (with_camera_spec label lineType lineNumber x y cam s) as (Hf & Hm & Hd).
    split; [eapply frame_trans; [exact Hf | apply flush_frame]|].
    split.
    + cbn [out_flush the_chunk]. rewrite Hm. now destruct (pickPoint cam x y).
    + intros Hp c Hc. split; [reflexivity|]. now apply Hd.
  - split; [apply flush_frame|]. split; [cbn [out_flush the_chunk]; now rewrite app_nil_r|].
    intros Hp c Hc. split; [reflexivity|]. unfold out_flush. cbn [disk].
    rewrite lookup_alter_eq, Hc, Hp. reflexivity.
Qed.

Lemma line_ok_failed line s :
  (handle_line num point to_float fmt6 pickPoint project bufsize out cams line s).1 =
  if line_ok num to_float line then Done tt else Failed ValueError.
Proof.
  destruct (handle_line_spec line s) as (Hfail & Hres & _).
  unfold line_ok. destruct (Nat.ltb_spec (String.length line) 4) as [Hs|Hl]; cbn [orb].
  - destruct Hres as [H|H]; [|exact H]. apply Hfail in H. lia.
  - destruct (parse_line num to_float line) eqn:E.
    + destruct Hres as [H|H]; [|exact H]. apply Hfail in H. destruct H; discriminate.
    + apply Hfail. split; [lia | reflexivity].
Qed.

(** The loop: the lines handled before it stops, and the state it leaves. *)
Lemma handle_lines_spec lines : forall s,
  let res := handle_lines num point to_float fmt6 pickPoint project bufsize out cams lines s in
  res.1 = (if forallb (line_ok num to_float) lines then Done tt else Failed ValueError) /\
  frame out s res.2 /\
  markers num (the_chunk num res.2) =
    markers num (the_chunk num s) ++
    List.map (fun _ => new_marker num)
             (List.filter (line_leaks num point to_float pickPoint cams)
                          (handled_lines num to_float lines)) /\
  (pending num s = "" -> forall c, disk num s !! out = Some c ->
     pending num res.2 = "" /\
     disk num res.2 !! out =
       Some (c +:+ joined (List.map
               (line_text num point to_float fmt6 pickPoint project cams)
               (handled_lines num to_float lines)))).
Proof.
  induction lines as [|line rest IH]; intros s; cbv zeta.
  - cbn [handle_lines handled_lines forallb fst snd List.filter List.map].
    split; [reflexivity|]. split; [apply frame_refl|]. split; [now rewrite app_nil_r|].
    intros Hp c Hc. cbn. now rewrite str_app_nil_r.
  - cbn [handle_lines handled_lines forallb].
    pose proof (line_ok_failed line s) as Hok.
    destruct (handle_line_spec line s) as (Hfail & _ & Hf & Hm & Hd).
    destruct (handle_line num point to_float fmt6 pickPoint project bufsize out cams line s)
      as [[[]|e] s1] eqn:E; cbn [fst snd] in *.
    + destruct (line_ok num to_float line); [|discriminate]. cbn [andb].
      destruct (IH s1) as (Hr & Hf' & Hm' & Hd').
      split; [exact Hr|]. split; [eapply frame_trans; eassumption|]. split.
      * rewrite Hm', Hm. cbn [List.filter].
        destruct (line_leaks num point to_float pickPoint cams line);
          cbn [List.map]; now rewrite <- app_assoc.
      * intros Hp c Hc. destruct (Hd Hp c Hc) as [Hp1 Hc1].
        destruct (Hd' Hp1 _ Hc1) as [Hp2 Hc2]. split; [exact Hp2|].
        rewrite Hc2. cbn [List.map joined fold_right]. now rewrite str_app_assoc.
    + destruct (line_ok num to_float line); [discriminate|]. cbn [andb].
      assert (Hn : parse_line num to_float line = None).
      { apply Hfail. now destruct e. }
      split; [exact Hok|]. split; [exact Hf|]. split.
      * rewrite Hm. unfold line_leaks. rewrite Hn. now destruct (_ <? _)%nat.
      * intros Hp c Hc. destruct (Hd Hp c Hc) as [Hp1 Hc1]. split; [exact Hp1|].
        rewrite Hc1. unfold line_text. rewrite Hn. now destruct (_ <? _)%nat.
Qed.

End ScriptRun.

(** ** Runs of the script *)

Section ScriptTheorems.

Variable num : Type.
Variable point : Type.
Variable to_float : string -> option num.
Variable fmt6 : num -> string.
Variable pickPoint : camera -> num -> num -> option point.
Variable project : point -> num * num * num.
Variable bufsize : N.

Lemma ready_inv (chunk0 : option (chunk num)) path files :
  ready chunk0 path files = true ->
  path <> "" /\ (exists content, files !! path = Some content) /\
  exists c, chunk0 = Some c /\ usable_cameras num c <> [] /\ dense_cloud num c = true.
Proof.
  unfold ready. intros H. apply andb_prop in H as [H H3]. apply andb_prop in H as [H1 H2].
  split; [intros ->; discriminate|]. split.
  - destruct (files !! path) as [content|]; [eauto | discriminate].
  - destruct chunk0 as [c|]; [|discriminate]. exists c. split; [reflexivity|].
    apply andb_prop in H3 as [H3 H4]. split; [|exact H4].
    destruct (usable_cameras num c); [discriminate | discriminate].
Qed.

Lemma not_ready_run (chunk0 : option (chunk num)) path files :
  ready chunk0 path files = false ->
  exists msg, read2DExport3D num point to_float fmt6 pickPoint project bufsize
                chunk0 path files = (Done 0, (files, chunk0, [msg])).
Proof.
  unfold ready, read2DExport3D. intros H.
  destruct path as [|a p]; [eauto|].
  destruct (files !! String a p); [|eauto].
  destruct chunk0 as [c|]; [|eauto].
  destruct (usable_cameras num c); [eauto|].
  destruct (dense_cloud num c); [discriminate H | eauto].
Qed.

(** A run that gets past the guards. *)
Lemma script_run (c : chunk num) path files :
  ready (Some c) path files = true ->
  let cams := usable_cameras num c in
  let lines := input_lines path files in
  let handled := handled_lines num to_float lines in
  let res := read2DExport3D num point to_float fmt6 pickPoint project bufsize
               (Some c) path files in
  res.1 = (if forallb (line_ok num to_float) lines then Done 1 else Failed ValueError) /\
  res.2.2 = (if forallb (line_ok num to_float) lines then ["Script finished"] else []) /\
  (forall p, p <> out_path path -> res.2.1.1 !! p = files !! p) /\
  res.2.1.1 !! out_path path =
    Some (joined (List.map (line_text num point to_float fmt6 pickPoint project cams)
                           handled)) /\
  exists c', res.2.1.2 = Some c' /\
    cameras num c' = cameras num c /\ dense_cloud num c' = dense_cloud num c /\
    markers num c' =
      markers num c ++
      List.map (fun _ => new_marker num)
               (List.filter (line_leaks num point to_float pickPoint cams) handled).
Proof.
  intros Hready. destruct (ready_inv _ _ _ Hready) as (Hpath & [content Hin] & c0 & Hc & Hcams & Hdense).
  injection Hc as <-. cbv zeta. unfold read2DExport3D, input_lines.
  destruct path as [|a p]; [congruence|]. set (path := String a p) in *.
  rewrite Hin. destruct (usable_cameras num c) as [|cam cams] eqn:Ecams; [congruence|].
  rewrite <- Ecams. rewrite Hdense. cbn [negb].
  set (out := out_path path).
  set (s0 := Session num (<[out := ""]> files) "" c []).
  assert (Hne : out <> path) by apply out_path_neq.
  assert (Hlines : disk num s0 !! path = files !! path).
  { unfold s0. cbn [disk]. now rewrite lookup_insert_ne by exact Hne. }
  rewrite Hlines, Hin. change (default "" (Some content)) with content.
  set (lines := Text.readlines content).
  destruct (handle_lines_spec num point to_float fmt6 pickPoint project bufsize out
              (usable_cameras num c) lines s0) as (Hr & Hf & Hm & Hd).
  destruct (handle_lines num point to_float fmt6 pickPoint project bufsize out
              (usable_cameras num c) lines s0) as [r s1]. cbn [fst snd] in *.
  destruct Hf as (Hfd & Hfc & Hfn & Hfp).
  destruct (Hd eq_refl "") as [Hp1 Hc1].
  { unfold s0. cbn [disk]. now rewrite lookup_insert_eq. }
  rewrite str_app_nil_l in Hc1.
  assert (Hdisk : forall q, q <> out ->
            alter (fun old => old +:+ pending num s1) out (disk num s1) !! q = files !! q).
  { intros q Hq. rewrite lookup_alter_ne by congruence. rewrite Hfd by exact Hq.
    unfold s0. cbn [disk]. now rewrite lookup_insert_ne by congruence. }
  assert (Hout : alter (fun old => old +:+ pending num s1) out (disk num s1) !! out =
                 Some (joined (List.map
                   (line_text num point to_float fmt6 pickPoint project (usable_cameras num c))
                   (handled_lines num to_float lines)))).
  { rewrite lookup_alter_eq, Hc1, Hp1. cbn. now rewrite str_app_nil_r. }
  destruct (forallb (line_ok num to_float) lines); subst r; cbn [fst snd out_flush print disk the_chunk printed].
  - split; [reflexivity|]. split; [now rewrite Hfp|]. split; [exact Hdisk|]. split; [exact Hout|].
    exists (the_chunk num s1). split; [reflexivity|]. split; [exact Hfc|]. split; [rewrite Hfn; exact Hdense | exact Hm].
  - split; [reflexivity|]. split; [now rewrite Hfp|]. split; [exact Hdisk|]. split; [exact Hout|].
    exists (the_chunk num s1). split; [reflexivity|]. split; [exact Hfc|]. split; [rewrite Hfn; exact Hdense | exact Hm].
Qed.

End ScriptTheorems.

Section ScriptProperties.

Variable num : Type.
Variable point : Type.
Variable to_float : string -> option num.
Variable fmt6 : num -> string.
Variable pickPoint : camera -> num -> num -> option point.
Variable project : point -> num * num * num.
Variable bufsize : N.

(** X3. The call returns 0 exactly when one of the five guards stops it
    (empty path, no such file, no chunk, no aligned regular camera, no dense
    cloud); it has then printed one message and changed neither a file nor
    the chunk: no output file is created. *)
Theorem guards_leave_no_trace (chunk0 : option (chunk num)) (path : string)
    (files : gmap string string) :
  let res := read2DExport3D num point to_float fmt6 pickPoint project bufsize
               chunk0 path files in
  (res.1 = Done 0 <-> ready chunk0 path files = false) /\
  (res.1 = Done 0 ->
     res.2.1.1 = files /\ res.2.1.2 = chunk0 /\ List.length res.2.2 = 1%nat).
Proof.
  cbv zeta. destruct (ready chunk0 path files) eqn:Hready.
  - destruct (ready_inv _ _ _ _ Hready) as (_ & _ & c & -> & _).
    destruct (script_run num point to_float fmt6 pickPoint project bufsize c path files Hready)
      as (Hr & _).
    assert (Hne : (read2DExport3D num point to_float fmt6 pickPoint project bufsize
                     (Some c) path files).1 <> Done 0).
    { rewrite Hr. destruct (forallb _ _); discriminate. }
    split; [split; [intros H; now destruct Hne | discriminate]|].
    intros H. now destruct Hne.
  - destruct (not_ready_run num point to_float fmt6 pickPoint project bufsize
                chunk0 path files Hready) as [msg ->].
    cbn [fst snd]. split; [split; reflexivity|]. intros _. repeat split.
Qed.

(** X4. Past the guards the call returns 1 when every input line of four
    or more characters splits into five fields whose second and third read
    as numbers, and raises [ValueError] at the first line that does not;
    [Script finished] is printed in the first case only. *)
Theorem script_returns (c : chunk num) (path : string) (files : gmap string string) :
  ready (Some c) path files = true ->
  let res := read2DExport3D num point to_float fmt6 pickPoint project bufsize
               (Some c) path files in
  let all_ok := forallb (line_ok num to_float) (input_lines path files) in
  res.1 = (if all_ok then Done 1 else Failed ValueError) /\
  res.2.2 = (if all_ok then ["Script finished"] else []).
Proof.
  intros Hready. cbv zeta.
  destruct (script_run num point to_float fmt6 pickPoint project bufsize c path files Hready)
    as (Hr & Hp & _).
  split; assumption.
Qed.

(** X5. Past the guards the output file holds, when the call is over, one
    line per handled input line whose label is that of a usable camera and
    whose ray meets the surface, in input order and nothing else, also when
    the call ends in [ValueError]; every other file, the input file among
    them, is as it was. *)
Theorem script_output (c : chunk num) (path : string) (files : gmap string string) :
  ready (Some c) path files = true ->
  let res := read2DExport3D num point to_float fmt6 pickPoint project bufsize
               (Some c) path files in
  res.2.1.1 !! out_path path =
    Some (joined (List.map
            (line_text num point to_float fmt6 pickPoint project (usable_cameras num c))
            (handled_lines num to_float (input_lines path files)))) /\
  res.2.1.1 !! path = files !! path /\
  (forall p, p <> out_path path -> res.2.1.1 !! p = files !! p).
Proof.
  intros Hready. cbv zeta.
  destruct (script_run num point to_float fmt6 pickPoint project bufsize c path files Hready)
    as (_ & _ & Hd & Ho & _).
  split; [exact Ho|]. split; [|exact Hd].
  apply Hd. intros H. symmetry in H. now apply out_path_neq in H.
Qed.

(** X6. The markers of the chunk after the call are those before it,
    followed by one marker without label, projection or location for every
    handled line whose camera is known but whose ray misses the surface:
    only the markers of the lines that gave a point are removed again.
    Cameras and dense cloud are untouched. *)
Theorem script_markers (c : chunk num) (path : string) (files : gmap string string) :
  ready (Some c) path files = true ->
  let res := read2DExport3D num point to_float fmt6 pickPoint project bufsize
               (Some c) path files in
  let misses := List.filter (line_leaks num point to_float pickPoint (usable_cameras num c))
                            (handled_lines num to_float (input_lines path files)) in
  exists c', res.2.1.2 = Some c' /\
    markers num c' = markers num c ++ List.map (fun _ => new_marker num) misses /\
    cameras num c' = cameras num c /\ dense_cloud num c' = dense_cloud num c.
Proof.
  intros Hready. cbv zeta.
  destruct (script_run num point to_float fmt6 pickPoint project bufsize c path files Hready)
    as (_ & _ & _ & _ & c' & Hc & Hcam & Hdense & Hm).
  exists c'. repeat split; assumption.
Qed.

(** X7. Whatever the size of the stream's buffer, when the loop has gone
    through any number of lines nothing is pending: the file on disk holds
    all the text of the lines handled so far. *)
Theorem lines_flushed (out : string) (cams : list camera) (lines : list string)
    (s : session num) (old : string) :
  pending num s = "" -> disk num s !! out = Some old ->
  let res := handle_lines num point to_float fmt6 pickPoint project bufsize
               out cams lines s in
  pending num res.2 = "" /\
  disk num res.2 !! out =
    Some (old +:+ joined (List.map
            (line_text num point to_float fmt6 pickPoint project cams)
            (handled_lines num to_float lines))).
Proof.
  intros Hp Hd. cbv zeta.
  destruct (handle_lines_spec num point to_float fmt6 pickPoint project bufsize out cams
              lines s) as (_ & _ & _ & H).
  exact (H Hp old Hd).
Qed.

(** X8. A line of four or more characters that, stripped, does not hold
    exactly four commas is rejected with [ValueError] before anything is
    done for it: no marker is added and nothing is written. *)
Theorem wrong_field_count_rejected (out : string) (cams : list camera) (line : string)
    (s : session num) :
  (4 <= String.length line)%nat ->
  Text.count "," (Text.strip line) <> 4%nat ->
  handle_line num point to_float fmt6 pickPoint project bufsize out cams line s =
    (Failed ValueError, s).
Proof.
  intros Hlen Hcount. unfold handle_line.
  destruct (Nat.ltb_spec (String.length line) 4) as [H|_]; [lia|].
  pose proof (split_length "," (Text.strip line) 5) as Hl.
  destruct (Text.split "," (Text.strip line) 5)
    as [|label [|xs [|ys [|lineType [|lineNumber [|extra more]]]]]]; try reflexivity.
  cbn [List.length] in Hl. lia.
Qed.

End ScriptProperties.

(** ** The records of [extract_points] as input of the script *)

Lemma record_body_line (r : OutputRecord) :
  format_record r = record_body r +:+ String Text.LF "".
Proof. unfold format_record, record_body. now rewrite !str_app_assoc. Qed.

Lemma pretty_Z_nonspace (z : Z) : last_nonspace (pretty z) = true.
Proof.
  destruct (pretty_Z_chars z) as [Hc Hne]. apply all_chars_last; [|exact Hne].
  eapply all_chars_weaken; [|exact Hc]. intros c Hn.
  destruct (num_char_plain c Hn) as (-> & _). reflexivity.
Qed.

Lemma lstrip_keep_app (a b : string) :
  a <> "" -> Text.lstrip a = a -> Text.lstrip (a +:+ b) = a +:+ b.
Proof.
  destruct a as [|c t]; [congruence|]. intros _ H. rewrite str_app_cons.
  cbn [Text.lstrip] in *. destruct (Text.is_space c); [|reflexivity].
  pose proof (lstrip_length t) as Hlen. rewrite H in Hlen. cbn in Hlen. lia.
Qed.

Lemma strip_record (r : OutputRecord) :
  Text.lstrip (rec_label r) = rec_label r ->
  Text.strip (format_record r) = record_body r.
Proof.
  intros Hl. rewrite record_body_line. unfold Text.strip.
  assert (Hb : Text.lstrip (record_body r) = record_body r).
  { unfold record_body. apply lstrip_fixed_app; [exact Hl | reflexivity]. }
  rewrite lstrip_keep_app; [|unfold record_body; destruct (rec_label r); discriminate|exact Hb].
  rewrite rstrip_app_space by reflexivity.
  apply rstrip_keep. unfold record_body.
  replace (rec_label r +:+ "," +:+ pretty (rec_x r) +:+ "," +:+ pretty (rec_y r) +:+ ","
           +:+ rec_suffix r +:+ "," +:+ pretty (componentIndex r))
    with ((rec_label r +:+ "," +:+ pretty (rec_x r) +:+ "," +:+ pretty (rec_y r) +:+ ","
           +:+ rec_suffix r +:+ ",") +:+ pretty (componentIndex r))
    by now rewrite !str_app_assoc.
  rewrite last_nonspace_app by apply pretty_Z_chars.
  apply pretty_Z_nonspace.
Qed.

Lemma split_record (r : OutputRecord) :
  Text.count "," (rec_label r) = O -> Text.count "," (rec_suffix r) = O ->
  Text.split "," (record_body r) 5 =
  [rec_label r; pretty (rec_x r); pretty (rec_y r); rec_suffix r; pretty (componentIndex r)].
Proof.
  intros Hl Hs. unfold record_body.
  assert (Hc : forall t, "," +:+ t = String "," t) by reflexivity.
  rewrite !Hc.
  rewrite split_field by exact Hl.
  rewrite split_field by (apply pretty_Z_count; reflexivity).
  rewrite split_field by (apply pretty_Z_count; reflexivity).
  rewrite split_field by exact Hs.
  rewrite split_no_sep by (apply pretty_Z_count; reflexivity).
  reflexivity.
Qed.

Lemma record_body_count (r : OutputRecord) (c : ascii) :
  Ascii.eqb "," c = false -> num_char c = false ->
  Text.count c (rec_label r) = O -> Text.count c (rec_suffix r) = O ->
  Text.count c (record_body r) = O.
Proof.
  intros Hcomma Hnum Hl Hs. unfold record_body.
  rewrite !count_app, Hl, Hs, !pretty_Z_count by exact Hnum.
  cbn [Text.count]. rewrite Hcomma. reflexivity.
Qed.

Lemma prefix_map_inv {A B} (f : A -> B) (l : list B) (l' : list A) :
  l `prefix_of` List.map f l' -> exists l0, l = List.map f l0 /\ l0 `prefix_of` l'.
Proof.
  intros [k Hk]. exists (take (List.length l) l'). split.
  - rewrite <- (firstn_map f), Hk. now rewrite take_app_length.
  - apply prefix_take.
Qed.

Lemma count_le_length (c : ascii) (s : string) : (Text.count c s <= String.length s)%nat.
Proof.
  induction s as [|a t IH]; [reflexivity|]. cbn [Text.count String.length].
  destruct (Ascii.eqb a c); lia.
Qed.

Lemma record_long (r : OutputRecord) : (4 <= String.length (format_record r))%nat.
Proof.
  pose proof (count_le_length "," (format_record r)) as H.
  unfold format_record in *. rewrite !count_app in H.
  change (Text.count "," ",") with 1%nat in H.
  change (Text.count "," (String "010" "")) with 0%nat in H. lia.
Qed.

Section RecordLines.

Variable num : Type.
Variable point : Type.
Variable to_float : string -> option num.
Variable fmt6 : num -> string.
Variable pickPoint : camera -> num -> num -> option point.
Variable project : point -> num * num * num.

Lemma parse_record (r : OutputRecord) (x y : num) :
  Text.count "," (rec_label r) = O -> Text.lstrip (rec_label r) = rec_label r ->
  Text.count "," (rec_suffix r) = O ->
  to_float (pretty (rec_x r)) = Some x -> to_float (pretty (rec_y r)) = Some y ->
  parse_line num to_float (format_record r) =
    Some (rec_label r, x, y, rec_suffix r, pretty (componentIndex r)).
Proof.
  intros Hl Hsp Hs Hx Hy. unfold parse_line.
  rewrite strip_record by exact Hsp. rewrite split_record by assumption.
  now rewrite Hx, Hy.
Qed.

(** X9. A line written by [extract_points] is accepted by the script when
    the label holds no comma and no white space in front and the suffix no
    comma: it is read as camera label, pixel position, and suffix and
    component number as the two tags; with a camera of that label and a
    point on the surface the line of the output file carries the same label
    and tags. *)
Theorem record_line_handled (cams : list camera) (r : OutputRecord) (x y : num)
    (cam : camera) (p : point) :
  Text.count "," (rec_label r) = O -> Text.lstrip (rec_label r) = rec_label r ->
  Text.count "," (rec_suffix r) = O ->
  to_float (pretty (rec_x r)) = Some x -> to_float (pretty (rec_y r)) = Some y ->
  first_camera cams (rec_label r) = Some cam -> pickPoint cam x y = Some p ->
  line_ok num to_float (format_record r) = true /\
  line_text num point to_float fmt6 pickPoint project cams (format_record r) =
    format_marker num fmt6 (rec_label r) (project p) (rec_suffix r)
                  (pretty (componentIndex r)).
Proof.
  intros Hl Hsp Hs Hx Hy Hcam Hp.
  pose proof (parse_record r x y Hl Hsp Hs Hx Hy) as Hparse.
  pose proof (record_long r) as Hlong.
  unfold line_ok, line_text. rewrite Hparse, Hcam, Hp.
  destruct (Nat.ltb_spec (String.length (format_record r)) 4) as [H|_]; [lia|].
  split; reflexivity.
Qed.

Lemma record_line_ok (r : OutputRecord) :
  clean_field (rec_label r) -> clean_field (rec_suffix r) ->
  (forall z : Z, to_float (pretty z) <> None) ->
  line_ok num to_float (format_record r) = true.
Proof.
  intros (Hl & _ & _ & Hsp) (Hs & _) Hf.
  destruct (to_float (pretty (rec_x r))) as [x|] eqn:Hx; [|now destruct (Hf (rec_x r))].
  destruct (to_float (pretty (rec_y r))) as [y|] eqn:Hy; [|now destruct (Hf (rec_y r))].
  unfold line_ok. rewrite (parse_record r x y Hl Hsp Hs Hx Hy). apply orb_true_r.
Qed.

End RecordLines.

Lemma run_records_fields glob imread rgb2gray skeletonize image_names directory
    suffixes alt_names kr :
  In kr (run_records glob imread rgb2gray skeletonize image_names directory
           suffixes alt_names) ->
  In (rec_label kr.2) alt_names /\ In (rec_suffix kr.2) suffixes.
Proof.
  unfold run_records. rewrite in_flat_map. intros ([idx image_name] & _ & H).
  rewrite in_flat_map in H. destruct H as ([j suffix] & Hj & H).
  unfold pair_records in H. cbn [fst snd] in H.
  destruct (files_with_suffix _ _) as [|image_path _]; [destruct H|].
  unfold image_records in H.
  destruct (alt_names !! Z.to_nat idx) as [alt|] eqn:Halt; [|destruct H].
  rewrite in_flat_map in H. destruct H as (cr & _ & H).
  unfold region_records in H. rewrite in_map_iff in H.
  destruct H as ([k [y x]] & <- & _). cbn [snd rec_label rec_suffix]. split.
  - apply list_elem_of_In. eapply list_elem_of_lookup_2. exact Halt.
  - unfold enumerate in Hj. apply enum_from_In in Hj as [_ Hj].
    apply list_elem_of_In. eapply list_elem_of_lookup_2. exact Hj.
Qed.

Lemma records_readlines (recs : list OutputRecord) :
  Forall (fun r => clean_field (rec_label r) /\ clean_field (rec_suffix r)) recs ->
  Text.readlines (joined (List.map format_record recs)) = List.map format_record recs.
Proof.
  intros H.
  assert (E : List.map format_record recs =
              List.map (fun b => b +:+ String Text.LF "") (List.map record_body recs)).
  { rewrite List.map_map. apply List.map_ext. intros r. apply record_body_line. }
  rewrite E. apply readlines_joined.
  apply Forall_map. eapply Forall_impl; [exact H|].
  intros r [(_ & Hl1 & Hl2 & _) (_ & Hs1 & Hs2 & _)]. cbn beta.
  split; apply record_body_count; auto.
Qed.

(** The decimal reader reads back what [pretty] prints. *)
Lemma digit_of_char (d : N) : (d < 10)%N -> digit_of (pretty_N_char d) = Some d.
Proof.
  intros H.
  assert (Hd : d = 0%N \/ d = 1%N \/ d = 2%N \/ d = 3%N \/ d = 4%N \/ d = 5%N \/
               d = 6%N \/ d = 7%N \/ d = 8%N \/ d = 9%N) by lia.
  repeat (destruct Hd as [->|Hd]; [reflexivity|]). now subst d.
Qed.

Lemma dec_value_go (x : N) : forall s v p,
  dec_value s = Some (v, p) ->
  exists p', dec_value (pretty_N_go x s) = Some ((x * p + v)%N, p').
Proof.
  induction (N.lt_wf_0 x) as [x _ IH]; intros s v p Hs.
  destruct (N.eq_dec x 0%N) as [->|Hx].
  - exists p. rewrite pretty_N_go_0. rewrite Hs. f_equal.
  - assert (Hpos : (0 < x)%N) by lia.
    rewrite pretty_N_go_step by exact Hpos.
    destruct (IH (x `div` 10)%N (N.div_lt x 10 Hpos eq_refl)
                 (String (pretty_N_char (x `mod` 10)) s)
                 ((x `mod` 10) * p + v)%N (10 * p)%N) as [p' Hp'].
    { cbn [dec_value]. rewrite digit_of_char by (apply N.mod_lt; lia).
      now rewrite Hs. }
    exists p'. rewrite Hp'. f_equal. f_equal.
    pose proof (N.div_mod x 10 ltac:(lia)) as Hdm. nia.
Qed.

Lemma float_ex_digits (s : string) (v p : N) :
  s <> "" -> dec_value s = Some (v, p) -> float_ex s = Some (Z.of_N v).
Proof.
  destruct s as [|c t]; [congruence|]. intros _ H. unfold float_ex.
  destruct (Ascii.eqb_spec c "-") as [->|_].
  - cbn in H. discriminate.
  - now rewrite H.
Qed.

Lemma dec_value_pretty (x : N) :
  x <> 0%N -> pretty x <> "" /\ exists p, dec_value (pretty x) = Some (x, p).
Proof.
  intros Hx. unfold pretty, pretty_N. destruct (decide (x = 0%N)) as [->|_]; [congruence|].
  destruct (dec_value_go x "" 0%N 1%N eq_refl) as [p' Hp'].
  destruct (pretty_N_go_chars x "") as (pre & E & _ & Hne). split.
  - rewrite E, str_app_nil_r. apply Hne. lia.
  - exists p'. rewrite Hp'. f_equal. f_equal. lia.
Qed.

Lemma float_ex_pretty (z : Z) : float_ex (pretty z) = Some z.
Proof.
  destruct z as [|q|q].
  - reflexivity.
  - destruct (dec_value_pretty (N.pos q)) as (Hne & p & Hp); [discriminate|].
    change (pretty (Z.pos q)) with (pretty (N.pos q)).
    now rewrite (float_ex_digits _ _ _ Hne Hp).
  - destruct (dec_value_pretty (N.pos q)) as (Hne & p & Hp); [discriminate|].
    change (pretty (Z.neg q)) with (String "-" (pretty (N.pos q))).
    unfold float_ex. change (Ascii.eqb "-" "-") with true. cbv iota.
    rewrite Hp. destruct (pretty (N.pos q)); [congruence | reflexivity].
Qed.

Section Handover.

Variable bufsize : N.
Variable glob : string -> list string.
Variable imread : string -> option image.
Variable rgb2gray : array3 -> option (grid spec_float).
Variable skeletonize : grid bool -> grid bool.
Variable num : Type.
Variable point : Type.
Variable to_float : string -> option num.
Variable fmt6 : num -> string.
Variable pickPoint : camera -> num -> num -> option point.
Variable project : point -> num * num * num.
Variable script_bufsize : N.

(** X10. The file a run of [extract_points] leaves is one the script reads
    to its end, whether that run returned or raised: when the alternative
    names and the suffixes are clean fields and [float] reads printed
    integers, the lines the script reads are the records written, whole and
    in order, each of them is accepted, and the script returns 1. *)
Theorem pipeline_output_accepted (image_names : list string) (directory : string)
    (suffixes alt_names : list string) (out : string) (w : world) (c : chunk num) :
  Forall clean_field alt_names -> Forall clean_field suffixes ->
  (forall z : Z, to_float (pretty z) <> None) ->
  let res := extract_points bufsize glob imread rgb2gray skeletonize
               image_names directory suffixes alt_names out w in
  let records := lines (run_records glob imread rgb2gray skeletonize
                          image_names directory suffixes alt_names) in
  ready (Some c) out (fs res.2) = true ->
  input_lines out (fs res.2) `prefix_of` records /\
  (res.1 = Ok tt -> input_lines out (fs res.2) = records) /\
  forallb (line_ok num to_float) (input_lines out (fs res.2)) = true /\
  (read2DExport3D num point to_float fmt6 pickPoint project script_bufsize
     (Some c) out (fs res.2)).1 = Done 1.
Proof.
  intros Halt Hsuf Hfloat. cbv zeta. intros Hready.
  destruct (extract_points_run bufsize glob imread rgb2gray skeletonize out
              image_names directory suffixes alt_names w)
    as (evs & _ & _ & Hout & _ & Hpre & Hok).
  unfold lines in Hpre, Hok.
  destruct (prefix_map_inv _ _ _ Hpre) as (recs & Hw & Hrecs).
  assert (Hclean : Forall (fun r => clean_field (rec_label r) /\ clean_field (rec_suffix r))
                          (List.map snd recs)).
  { apply Forall_map. apply Forall_forall. intros kr Hkr.
    assert (Hin : In kr (run_records glob imread rgb2gray skeletonize
                           image_names directory suffixes alt_names)).
    { apply list_elem_of_In. destruct Hrecs as [k ->]. apply elem_of_app. now left. }
    destruct (run_records_fields _ _ _ _ _ _ _ _ _ Hin) as [Hl Hs].
    rewrite Forall_forall in Halt, Hsuf. cbn beta.
    split; [apply Halt | apply Hsuf]; now apply list_elem_of_In. }
  assert (Hlines : input_lines out
                     (fs (extract_points bufsize glob imread rgb2gray skeletonize
                            image_names directory suffixes alt_names out w).2) =
                   writes evs).
  { unfold input_lines. rewrite Hout. change (default "" (Some (written evs))) with (written evs).
    unfold written. rewrite Hw. rewrite <- (List.map_map snd format_record).
    now apply records_readlines. }
  assert (Hall : forallb (line_ok num to_float)
                   (input_lines out
                      (fs (extract_points bufsize glob imread rgb2gray skeletonize
                             image_names directory suffixes alt_names out w).2)) = true).
  { rewrite Hlines, Hw. rewrite <- (List.map_map snd format_record).
    apply forallb_forall. intros line Hline. rewrite in_map_iff in Hline.
    destruct Hline as (r & <- & Hr). rewrite Forall_forall in Hclean.
    apply list_elem_of_In in Hr. destruct (Hclean r Hr) as [Hl Hs].
    now apply record_line_ok. }
  split; [rewrite Hlines; exact Hpre|]. split; [intros H; rewrite Hlines; now apply Hok|].
  split; [exact Hall|].
  destruct (script_run num point to_float fmt6 pickPoint project script_bufsize c out _ Hready)
    as (Hr & _).
  rewrite Hr, Hall. reflexivity.
Qed.

End Handover.

(** ** The script on the sample chunk *)

Lemma script_returns_witness :
  let res := read2DExport3D Z (Z * Z) float_ex fmt6_ex pick_ex project_ex 8
               (Some chunk_ex) "/d/points.txt" files_ex in
  res.1 = Done 1 /\ res.2.2 = ["Script finished"].
Proof.
  apply (script_returns Z (Z * Z) float_ex fmt6_ex pick_ex project_ex 8
           chunk_ex "/d/points.txt" files_ex).
  vm_compute. reflexivity.
Defined.

Lemma script_output_witness :
  let res := read2DExport3D Z (Z * Z) float_ex fmt6_ex pick_ex project_ex 8
               (Some chunk_ex) "/d/points.txt" files_ex in
  res.2.1.1 !! "/d/points_out.txt" =
    Some ("S1,1.000000,1.000000,0.000000,_suffix1,1" +:+ String Text.LF "") /\
  res.2.1.1 !! "/d/points.txt" = Some points_txt /\
  (forall p, p <> "/d/points_out.txt" -> res.2.1.1 !! p = files_ex !! p).
Proof.
  apply (script_output Z (Z * Z) float_ex fmt6_ex pick_ex project_ex 8
           chunk_ex "/d/points.txt" files_ex).
  vm_compute. reflexivity.
Defined.

Lemma script_markers_witness :
  let res := read2DExport3D Z (Z * Z) float_ex fmt6_ex pick_ex project_ex 8
               (Some chunk_ex) "/d/points.txt" files_ex in
  exists c', res.2.1.2 = Some c' /\
    markers Z c' = [] ++ [new_marker Z] /\
    cameras Z c' = cameras Z chunk_ex /\ dense_cloud Z c' = true.
Proof.
  apply (script_markers Z (Z * Z) float_ex fmt6_ex pick_ex project_ex 8
           chunk_ex "/d/points.txt" files_ex).
  vm_compute. reflexivity.
Defined.

Lemma lines_flushed_witness :
  let s := Session Z {[ "/o.txt" := "" ]} "" chunk_ex [] in
  let res := handle_lines Z (Z * Z) float_ex fmt6_ex pick_ex project_ex 1000
               "/o.txt" (usable_cameras Z chunk_ex)
               ["S1,1,1,_suffix1,1"; "S1,2,1,_suffix1,1"] s in
  pending Z res.2 = "" /\
  disk Z res.2 !! "/o.txt" =
    Some ("" +:+ joined ["S1,1.000000,1.000000,0.000000,_suffix1,1" +:+ String Text.LF "";
                         "S1,2.000000,1.000000,0.000000,_suffix1,1" +:+ String Text.LF ""]).
Proof.
  apply (lines_flushed Z (Z * Z) float_ex fmt6_ex pick_ex project_ex 1000
           "/o.txt" (usable_cameras Z chunk_ex)
           ["S1,1,1,_suffix1,1"; "S1,2,1,_suffix1,1"]
           (Session Z {[ "/o.txt" := "" ]} "" chunk_ex []) "").
  - reflexivity.
  - vm_compute. reflexivity.
Defined.

Lemma wrong_field_count_rejected_witness :
  let s := Session Z {[ "/o.txt" := "" ]} "" chunk_ex [] in
  handle_line Z (Z * Z) float_ex fmt6_ex pick_ex project_ex 8
    "/o.txt" (usable_cameras Z chunk_ex) "S1,1,1,_suffix1,1,extra" s =
  (Failed ValueError, s).
Proof.
  apply (wrong_field_count_rejected Z (Z * Z) float_ex fmt6_ex pick_ex project_ex 8
           "/o.txt" (usable_cameras Z chunk_ex) "S1,1,1,_suffix1,1,extra").
  - vm_compute. lia.
  - vm_compute. lia.
Defined.

Lemma record_line_handled_witness :
  let r := Record_ "S1" 1 1 "_suffix1" 1 in
  line_ok Z float_ex (format_record r) = true /\
  line_text Z (Z * Z) float_ex fmt6_ex pick_ex project_ex (usable_cameras Z chunk_ex)
            (format_record r) =
    format_marker Z fmt6_ex "S1" (1, 1, 0) "_suffix1" "1".
Proof.
  apply (record_line_handled Z (Z * Z) float_ex fmt6_ex pick_ex project_ex
           (usable_cameras Z chunk_ex) (Record_ "S1" 1 1 "_suffix1" 1) 1 1
           (Camera "S1" true true) (1, 1)); reflexivity.
Defined.

Lemma pipeline_output_accepted_witness :
  let res := extract_points 64 glob_ex imread_ex no_color thin_already
               ["shapeA.tif"] "/d" ["_suffix1"] ["S1"] "/out.txt" old_output in
  let records := lines (run_records glob_ex imread_ex no_color thin_already
                          ["shapeA.tif"] "/d" ["_suffix1"] ["S1"]) in
  input_lines "/out.txt" (fs res.2) `prefix_of` records /\
  (res.1 = Ok tt -> input_lines "/out.txt" (fs res.2) = records) /\
  forallb (line_ok Z float_ex) (input_lines "/out.txt" (fs res.2)) = true /\
  (read2DExport3D Z (Z * Z) float_ex fmt6_ex pick_ex project_ex 8
     (Some chunk_ex) "/out.txt" (fs res.2)).1 = Done 1.
Proof.
  apply (pipeline_output_accepted 64 glob_ex imread_ex no_color thin_already
           Z (Z * Z) float_ex fmt6_ex pick_ex project_ex 8
           ["shapeA.tif"] "/d" ["_suffix1"] ["S1"] "/out.txt" old_output chunk_ex).
  - repeat constructor.
  - repeat constructor.
  - intros z. rewrite float_ex_pretty. discriminate.
  - vm_compute. reflexivity.
Defined.

(** ** How a run of [extract_points] ends *)




Lemma for_each_noop {A} (l : list A) (body : A -> M unit) :
  (forall a, In a l -> forall w, body a w = (Ok tt, w)) ->
  forall w, for_each l body w = (Ok tt, w).
Proof.
  induction l as [|a t IH]; intros H w; [reflexivity|].
  cbn [for_each]. unfold bind. rewrite (H a (or_introl eq_refl)).
  apply IH. intros b Hb. apply H. now right.
Qed.

Lemma emit_region_no_alt bufsize out alt_names idx suffix comp_idx r w :
  alt_names !! Z.to_nat idx = None -> coords r <> [] ->
  emit_region bufsize out alt_names idx suffix comp_idx r w = (Raise IndexError, w).
Proof.
  intros Halt Hne. unfold emit_region.
  destruct (coords r) as [|[y x] t]; [congruence|].
  unfold slice_step. cbn [slice_step_from for_each]. unfold bind, index.
  rewrite Halt. reflexivity.
Qed.

Section RunResults.

Variable bufsize : N.
Variable glob : string -> list string.
Variable imread : string -> option image.
Variable rgb2gray : array3 -> option (grid spec_float).
Variable skeletonize : grid bool -> grid bool.
Variable out : string.

(** One image file: the result, and the state when it raises. *)
Lemma process_image_result alt_names idx suffix path w :
  let res := process_image bufsize imread rgb2gray skeletonize out alt_names idx suffix path w in
  res.1 = image_result imread rgb2gray skeletonize alt_names idx path /\
  (res.1 <> Ok tt -> res.2 = emit (EvImread path) w).
Proof.
  cbv zeta. rewrite process_image_unfold. unfold image_result.
  destruct (imread path) as [img|]; [|split; reflexivity].
  destruct (gray_of rgb2gray img) as [a|]; [|split; reflexivity].
  set (regions := regionprops (measure_label (skeletonize (binarize a)))).
  destruct (alt_names !! Z.to_nat idx) as [alt|] eqn:Halt.
  - assert (Hok : (for_each (enum_from 1 regions)
                     (fun '(comp_idx, region) =>
                        emit_region bufsize out alt_names idx suffix comp_idx region)
                     (emit (EvImread path) w)).1 = Ok tt).
    { apply for_each_ok. intros [ci r] w0.
      now destruct (emit_region_log bufsize out alt_names idx suffix ci r alt w0 Halt). }
    rewrite Hok. split; [now destruct regions | congruence].
  - destruct regions as [|r rest] eqn:E; [split; [reflexivity | cbn; congruence]|].
    assert (Hr : coords r <> []).
    { apply (regionprops_In (measure_label (skeletonize (binarize a)))).
      fold regions. rewrite E. now left. }
    cbn [enum_from for_each]. unfold bind.
    rewrite emit_region_no_alt by assumption. split; reflexivity.
Qed.



(** X12. A pair is written whole or not at all: the work on a pair either
    returns, having handed all the records of the pair to the stream, or
    raises having written nothing, the read of the image being its only
    call. *)
Theorem pair_all_or_nothing (alt_names matching : list string) (idx j : Z)
    (suffix : string) (w : world) :
  let res := process_pair bufsize imread rgb2gray skeletonize out
               alt_names matching idx suffix w in
  (res.1 = Ok tt /\
   exists evs, log res.2 = log w ++ evs /\
     writes evs = lines (pair_records imread rgb2gray skeletonize
                           alt_names matching idx (j, suffix))) \/
  (exists e path, res.1 = Raise e /\ res.2 = emit (EvImread path) w).
Proof.
  cbv zeta.
  destruct (yields_process_pair bufsize imread rgb2gray skeletonize out
              alt_names matching idx (j, suffix) w) as (evs & (Hlog & _) & _ & Hok).
  cbn [snd] in *.
  destruct (process_pair bufsize imread rgb2gray skeletonize out
              alt_names matching idx suffix w) as [[[]|e] w1] eqn:E; cbn [fst snd] in *.
  - left. split; [reflexivity|]. exists evs. split; [exact Hlog | now apply Hok].
  - right. unfold process_pair in E.
    destruct (files_with_suffix matching suffix) as [|path rest]; [discriminate E|].
    exists e, path. split; [reflexivity|].
    destruct (process_image_result alt_names idx suffix path w) as [_ H].
    rewrite E in H. cbn [fst snd] in H. apply H. discriminate.
Qed.

(** X13. When no (image name, suffix) pair has a candidate file, as with
    an empty listing, no image name or no suffix, the run returns after
    three calls: it opens the output file, lists the directory and closes
    the file, which is left empty; no image is read. *)
Theorem no_candidates_run (image_names : list string) (directory : string)
    (suffixes alt_names : list string) (w : world) :
  (forall image_name suffix, In image_name image_names -> In suffix suffixes ->
     files_with_suffix
       (matching_files (glob (Path.join directory "*.tif")) image_name) suffix = []) ->
  extract_points bufsize glob imread rgb2gray skeletonize
    image_names directory suffixes alt_names out w =
  (Ok tt, World (<[out := ""]> (fs w)) ""
                (log w ++ [EvOpen out; EvGlob (Path.join directory "*.tif"); EvClose out])).
Proof.
  intros Hnone. unfold extract_points, with_open_wt, bind, do_glob.
  rewrite for_each_noop.
  - unfold f_close, emit, open_wt. cbn [fs fbuf log]. f_equal.
    rewrite <- !app_assoc. cbn [app]. f_equal.
    rewrite alter_insert_eq. reflexivity.
  - intros [idx image_name] Hin w0. apply for_each_noop. intros suffix Hs w1.
    unfold process_pair. rewrite Hnone; [reflexivity| |exact Hs].
    unfold enumerate in Hin. apply enum_from_In in Hin as [_ Hin].
    apply list_elem_of_In. eapply list_elem_of_lookup_2. exact Hin.
Qed.

End RunResults.

Lemma no_candidates_run_witness :
  extract_points 64 glob_ex imread_ex no_color thin_already
    ["shapeB.tif"] "/d" ["_suffix1"; "_suffix2"] [] "/out.txt" old_output =
  (Ok tt, World (<["/out.txt" := ""]> (fs old_output)) ""
                (log old_output ++ [EvOpen "/out.txt"; EvGlob (Path.join "/d" "*.tif");
                                    EvClose "/out.txt"])).
Proof.
  apply (no_candidates_run 64 glob_ex imread_ex no_color thin_already "/out.txt"
           ["shapeB.tif"] "/d" ["_suffix1"; "_suffix2"] [] old_output).
  intros image_name suffix [<-|[]] _. reflexivity.
Defined.

(** ** Records and the label image *)

(** The regions carry the labels 1, 2, ... without a gap, so the number
    [enumerate(regions, start=1)] gives a region is its label. *)
Lemma region_label_index (skeleton : grid bool) (i : nat) : forall r,
  regionprops (measure_label skeleton) !! i = Some r -> label r = Z.of_nat i + 1.
Proof.
  induction (lt_wf i) as [i _ IH]. intros r Hr.
  set (regions := regionprops (measure_label skeleton)) in *.
  assert (Hin : In r regions) by (apply In_lookup; eauto).
  destruct (regionprops_In _ _ Hin) as (Hpos & _ & Hne).
  destruct (coords r) as [|q t] eqn:Hq; [congruence|].
  assert (Hqr : In q (coords r)) by (rewrite Hq; now left).
  apply (region_coords_In skeleton r q Hin) in Hqr as [Hqfg Hlab].
  assert (Hlow : Z.of_nat i + 1 <= label r).
  { destruct i as [|k]; [lia|].
    destruct (lookup_lt_is_Some_2 regions k) as [r0 Hr0].
    { apply lookup_lt_Some in Hr. lia. }
    pose proof (IH k (Nat.lt_succ_diag_r k) r0 Hr0) as H0.
    pose proof (regionprops_lookup_lt _ k (S k) r0 r Hr0 Hr (Nat.lt_succ_diag_r k)). lia. }
  destruct (Z.eq_dec (label r) (Z.of_nat i + 1)) as [E|Hgap]; [exact E|].
  destruct (lab_order (fg_of skeleton) (fg_sorted skeleton) q (Z.of_nat i + 1) Hqfg)
    as (p & Hp & Hpl & _); [lia|].
  destruct (region_of_pixel skeleton p Hp) as (r' & Hr'in & Hr'l & _).
  apply In_lookup in Hr'in as [j Hj]. fold regions in Hj.
  destruct (Nat.lt_trichotomy j i) as [Hlt|[->|Hgt]].
  - pose proof (IH j Hlt r' Hj). lia.
  - rewrite Hj in Hr. injection Hr as <-. lia.
  - pose proof (regionprops_lookup_lt _ i j r r' Hr Hj Hgt). lia.
Qed.

Lemma enum_from_lookup {A} (k : Z) (l : list A) (i : nat) :
  enum_from k l !! i = option_map (fun a => (k + Z.of_nat i, a)) (l !! i).
Proof.
  revert k i. induction l as [|a t IH]; intros k [|i]; cbn [enum_from]; try reflexivity.
  - cbn. now rewrite Z.add_0_r.
  - change ((k, a) :: enum_from (k + 1) t) with ([(k, a)] ++ enum_from (k + 1) t).
    cbn. rewrite IH. destruct (t !! i); cbn; [|reflexivity]. do 2 f_equal. lia.
Qed.

Lemma slice_step_from_sublist {A} (step : nat) (l : list A) : forall wait,
  slice_step_from step wait l `sublist_of` l.
Proof.
  induction l as [|a t IH]; intros wait; cbn [slice_step_from]; [constructor|].
  destruct wait; [apply sublist_skip, IH | apply sublist_cons, IH].
Qed.

Lemma NoDup_flat_map {A B} (f : A -> list B) (l : list A) :
  (forall a, In a l -> NoDup (f a)) ->
  (forall i j a b x, l !! i = Some a -> l !! j = Some b ->
     In x (f a) -> In x (f b) -> i = j) ->
  NoDup (flat_map f l).
Proof.
  induction l as [|a t IH]; intros Hnd Hdis; [constructor|].
  cbn [flat_map]. apply NoDup_app. split; [apply Hnd; now left|]. split.
  - intros x Hx Hx'. apply list_elem_of_In in Hx, Hx'.
    apply in_flat_map in Hx' as (b & Hb & Hxb).
    apply In_lookup in Hb as [j Hj].
    pose proof (Hdis O (S j) a b x eq_refl Hj Hx Hxb). discriminate.
  - apply IH.
    + intros b Hb. apply Hnd. now right.
    + intros i j b c x Hi Hj Hb Hc.
      pose proof (Hdis (S i) (S j) b c x Hi Hj Hb Hc). lia.
Qed.

Lemma region_records_positions idx j alt suffix cr :
  List.map (fun kr : key * OutputRecord => position kr.2)
           (region_records idx j alt suffix cr) =
  slice_step 5 (coords cr.2).
Proof.
  unfold region_records, enumerate. generalize 0.
  induction (slice_step 5 (coords cr.2)) as [|[y x] t IH]; intros k; [reflexivity|].
  cbn [enum_from List.map]. rewrite IH. reflexivity.
Qed.

Section RecordsOfImage.

Variable imread : string -> option image.
Variable rgb2gray : array3 -> option (grid spec_float).
Variable skeletonize : grid bool -> grid bool.

Lemma regions_of_skeleton path skeleton :
  skeleton_of imread rgb2gray skeletonize path = Some skeleton ->
  regions_of imread rgb2gray skeletonize path = regionprops (measure_label skeleton).
Proof.
  unfold skeleton_of, regions_of. destruct (imread path) as [img|]; [|discriminate].
  destruct (gray_of rgb2gray img); [|discriminate]. now intros [= <-].
Qed.

Lemma regions_of_none path :
  skeleton_of imread rgb2gray skeletonize path = None ->
  regions_of imread rgb2gray skeletonize path = [].
Proof.
  unfold skeleton_of, regions_of. destruct (imread path) as [img|]; [|reflexivity].
  now destruct (gray_of rgb2gray img).
Qed.

(** Where a record of an image file comes from. *)
Lemma image_records_In alt_names idx j suffix path skeleton kr :
  skeleton_of imread rgb2gray skeletonize path = Some skeleton ->
  In kr (image_records imread rgb2gray skeletonize alt_names idx j suffix path) ->
  exists i r,
    regionprops (measure_label skeleton) !! i = Some r /\
    componentIndex kr.2 = label r /\ label r = Z.of_nat i + 1 /\
    In (position kr.2) (slice_step 5 (coords r)) /\ In (position kr.2) (coords r).
Proof.
  intros Hsk. unfold image_records. rewrite (regions_of_skeleton _ _ Hsk).
  destruct (alt_names !! Z.to_nat idx) as [alt|]; [|intros []].
  rewrite in_flat_map. intros ([ci r] & Hcr & Hkr).
  apply In_lookup in Hcr as [i Hi]. rewrite enum_from_lookup in Hi.
  destruct (regionprops (measure_label skeleton) !! i) as [r0|] eqn:Hr; [|discriminate].
  cbn in Hi. injection Hi as <- <-.
  unfold region_records in Hkr. rewrite in_map_iff in Hkr.
  destruct Hkr as ([k [y x]] & <- & Hk). cbn [fst snd componentIndex position rec_x rec_y].
  unfold enumerate in Hk. apply enum_from_In in Hk as [_ Hk].
  assert (Hs : In (y, x) (slice_step 5 (coords r0))).
  { apply list_elem_of_In. eapply list_elem_of_lookup_2. exact Hk. }
  exists i, r0. split; [exact Hr|]. rewrite (region_label_index skeleton i r0 Hr).
  split; [lia|]. split; [reflexivity|]. split; [exact Hs|].
  apply list_elem_of_In. eapply elem_of_sublist; [|apply slice_step_from_sublist].
  apply list_elem_of_In. exact Hs.
Qed.

(** X14. Every record stands for a pixel of the skeleton, and the
    component number written with it, counted from 1 by [enumerate], is the
    label that pixel carries in the label image. *)
Theorem component_index_is_label (alt_names : list string) (idx j : Z)
    (suffix path : string) (skeleton : grid bool) (kr : key * OutputRecord) :
  skeleton_of imread rgb2gray skeletonize path = Some skeleton ->
  In kr (image_records imread rgb2gray skeletonize alt_names idx j suffix path) ->
  get2 skeleton (position kr.2) = Some true /\
  get2 (measure_label skeleton) (position kr.2) = Some (componentIndex kr.2) /\
  1 <= componentIndex kr.2 /\
  rec_suffix kr.2 = suffix /\ alt_names !! Z.to_nat idx = Some (rec_label kr.2).
Proof.
  intros Hsk Hkr.
  destruct (image_records_In _ _ _ _ _ _ _ Hsk Hkr) as (i & r & Hr & Hci & Hl & _ & Hp).
  assert (Hin : In r (regionprops (measure_label skeleton))) by (apply In_lookup; eauto).
  apply (region_coords_In skeleton r _ Hin) in Hp as [Hfg Hlab].
  apply fg_of_In in Hfg as Hget.
  split; [exact Hget|]. split.
  - rewrite measure_label_get2, Hget. cbn. congruence.
  - split; [lia|].
    unfold image_records in Hkr.
    destruct (alt_names !! Z.to_nat idx) as [alt|]; [|destruct Hkr].
    rewrite in_flat_map in Hkr. destruct Hkr as (cr & _ & Hkr).
    unfold region_records in Hkr. rewrite in_map_iff in Hkr.
    destruct Hkr as ([k [y x]] & <- & _). split; reflexivity.
Qed.

(** X15. Two records of one image file carry the same component number
    exactly when a chain of touching skeleton pixels links their pixels. *)
Theorem same_component_iff_connected (alt_names : list string) (idx j : Z)
    (suffix path : string) (skeleton : grid bool) (kr1 kr2 : key * OutputRecord) :
  skeleton_of imread rgb2gray skeletonize path = Some skeleton ->
  In kr1 (image_records imread rgb2gray skeletonize alt_names idx j suffix path) ->
  In kr2 (image_records imread rgb2gray skeletonize alt_names idx j suffix path) ->
  componentIndex kr1.2 = componentIndex kr2.2 <->
  connected (fg_of skeleton) (position kr1.2) (position kr2.2).
Proof.
  intros Hsk H1 H2.
  destruct (image_records_In _ _ _ _ _ _ _ Hsk H1) as (i1 & r1 & Hr1 & Hc1 & _ & _ & Hp1).
  destruct (image_records_In _ _ _ _ _ _ _ Hsk H2) as (i2 & r2 & Hr2 & Hc2 & _ & _ & Hp2).
  assert (Hin1 : In r1 (regionprops (measure_label skeleton))) by (apply In_lookup; eauto).
  assert (Hin2 : In r2 (regionprops (measure_label skeleton))) by (apply In_lookup; eauto).
  apply (region_coords_In skeleton r1 _ Hin1) in Hp1 as [Hfg1 Hlab1].
  apply (region_coords_In skeleton r2 _ Hin2) in Hp2 as [Hfg2 Hlab2].
  rewrite Hc1, Hc2, <- Hlab1, <- Hlab2.
  apply lab_connected; [apply fg_sorted | exact Hfg1 | exact Hfg2].
Qed.

(** X16. No pixel is written twice for one image file: the positions of
    its records are pairwise distinct. *)
Theorem positions_distinct (alt_names : list string) (idx j : Z) (suffix path : string) :
  NoDup (List.map (fun kr : key * OutputRecord => position kr.2)
                  (image_records imread rgb2gray skeletonize alt_names idx j suffix path)).
Proof.
  unfold image_records.
  destruct (alt_names !! Z.to_nat idx) as [alt|]; [|constructor].
  destruct (skeleton_of imread rgb2gray skeletonize path) as [skeleton|] eqn:Hsk;
    [|rewrite (regions_of_none _ Hsk); constructor].
  rewrite (regions_of_skeleton _ _ Hsk).
  set (regions := regionprops (measure_label skeleton)).
  assert (E : forall l : list (Z * region),
            List.map (fun kr : key * OutputRecord => position kr.2)
                     (flat_map (region_records idx j alt suffix) l) =
            flat_map (fun cr : Z * region => slice_step 5 (coords cr.2)) l).
  { induction l as [|cr t IHl]; [reflexivity|]. cbn [flat_map].
    rewrite List.map_app, IHl. f_equal. apply region_records_positions. }
  rewrite E. apply NoDup_flat_map.
  - intros [ci r] Hcr. cbn [snd]. apply In_lookup in Hcr as [i Hi].
    rewrite enum_from_lookup in Hi. destruct (regions !! i) as [r0|] eqn:Hr; [|discriminate].
    cbn in Hi. injection Hi as <- <-.
    eapply sublist_NoDup; [|apply slice_step_from_sublist].
    apply sorted_NoDup. apply (region_coords_sorted skeleton). apply In_lookup. eauto.
  - intros i1 i2 [c1 r1] [c2 r2] x H1 H2 Hx1 Hx2. cbn [snd] in *.
    rewrite enum_from_lookup in H1, H2.
    destruct (regions !! i1) as [q1|] eqn:Hr1; [|discriminate].
    destruct (regions !! i2) as [q2|] eqn:Hr2; [|discriminate].
    cbn in H1, H2. injection H1 as <- <-. injection H2 as <- <-.
    assert (Hin1 : In q1 regions) by (apply In_lookup; eauto).
    assert (Hin2 : In q2 regions) by (apply In_lookup; eauto).
    assert (Hc1 : In x (coords q1)).
    { apply list_elem_of_In. eapply elem_of_sublist; [|apply slice_step_from_sublist].
      apply list_elem_of_In. exact Hx1. }
    assert (Hc2 : In x (coords q2)).
    { apply list_elem_of_In. eapply elem_of_sublist; [|apply slice_step_from_sublist].
      apply list_elem_of_In. exact Hx2. }
    apply (region_coords_In skeleton q1 x Hin1) in Hc1 as [_ Hl1].
    apply (region_coords_In skeleton q2 x Hin2) in Hc2 as [_ Hl2].
    apply (regions_same_label skeleton i1 i2 q1 q2 Hr1 Hr2). congruence.
Qed.

End RecordsOfImage.

Lemma component_index_is_label_witness :
  let kr : key * OutputRecord := ((0, 0, 1, 1), Record_ "S1" 6 1 "_suffix1" 1) in
  let skeleton := binarize (U8 line10) in
  get2 skeleton (position kr.2) = Some true /\
  get2 (measure_label skeleton) (position kr.2) = Some (componentIndex kr.2) /\
  1 <= componentIndex kr.2 /\
  rec_suffix kr.2 = "_suffix1" /\ ["S1"] !! Z.to_nat 0 = Some (rec_label kr.2).
Proof.
  apply (component_index_is_label imread_ex no_color thin_already ["S1"] 0 0 "_suffix1"
           "/d/shapeA_suffix1.tif" (binarize (U8 line10))
           ((0, 0, 1, 1), Record_ "S1" 6 1 "_suffix1" 1)).
  - reflexivity.
  - vm_compute. right. now left.
Defined.

Lemma same_component_iff_connected_witness :
  let kr1 : key * OutputRecord := ((0, 0, 1, 0), Record_ "S1" 1 1 "_suffix1" 1) in
  let kr2 : key * OutputRecord := ((0, 0, 1, 1), Record_ "S1" 6 1 "_suffix1" 1) in
  componentIndex kr1.2 = componentIndex kr2.2 <->
  connected (fg_of (binarize (U8 line10))) (position kr1.2) (position kr2.2).
Proof.
  apply (same_component_iff_connected imread_ex no_color thin_already ["S1"] 0 0 "_suffix1"
           "/d/shapeA_suffix1.tif" (binarize (U8 line10))
           ((0, 0, 1, 0), Record_ "S1" 1 1 "_suffix1" 1)
           ((0, 0, 1, 1), Record_ "S1" 6 1 "_suffix1" 1)).
  - reflexivity.
  - vm_compute. now left.
  - vm_compute. right. now left.
Defined.
